(** * Bulk permission export and import (plugins/bulk_perms.py)

    A shallow embedding of the permission snapshot and diff engine of the
    bot: [exportperms] turns the roles, channels and permission overwrites
    of a guild into CSV rows, [importperms] reads such rows back, computes
    bit masks against the live guild and schedules edit actions.

    Conventions of the embedding.
    - A Python [str] is a [string]; one [ascii] stands for one character.
    - A Python [int] is a [Z]; [&], [|] and [~] are [Z.land], [Z.lor] and
      [Z.lnot], which agree with Python on unbounded integers.
    - The [csv] module is the boundary of the model: the exporter hands
      a list of rows to [csv.writer], the importer receives a list of rows
      from [csv.reader], one row per line.
    - A Python [dict] is an association list in insertion order, a key
      occurring once; a [set] is a list without repetition.
    - Exceptions are values of [Exception]; a function that can raise
      returns a [Result].
    - discord.py objects compare by identifier ([Hashable.__eq__]), so
      every dictionary or set of channels, roles or members is keyed by
      the identifier (and the kind of the object). *)

From Stdlib Require Import ZArith List String Ascii Bool Lia.
From Stdlib Require Import Permutation Sorted DecimalString DecimalZ DecimalPos DecimalFacts.
Import ListNotations.

Local Open Scope string_scope.
Local Open Scope Z_scope.
Local Open Scope list_scope.

Set Implicit Arguments.

(** ** Exceptions and results *)

(** The texts of the [UserError]s the importer raises, one constructor per
    format string, holding the values the string is filled with. *)
Inductive UserMessage : Type :=
| InvalidHeader
| UnknownPermission (perm : string)
| InvalidRow (line : nat)
| ExpectedRole (line : nat)
| UnknownRole (line : nat) (role_name : string)
| UnknownChannel (line : nat) (name : string)
| NotACategory (line : nat) (name : string)
| IsACategory (line : nat) (name : string)
| ExpectedUserID (line : nat)
| NoSuchMember (line : nat) (user_id : Z)
| ExpectedRoleOrUser (line : nat)
| CannotSyncNoCategory (channel_id : Z).

Inductive Exception : Type :=
| UserError (msg : UserMessage)
| StopIteration
| IndexError
| ValueError
| AttributeError
| UnboundLocalError.

Inductive Result (A : Type) : Type :=
| Ok (a : A)
| Raise (e : Exception).

Arguments Ok {A} a.
Arguments Raise {A} e.

Definition bind {A B : Type} (m : Result A) (k : A -> Result B) : Result B :=
  match m with
  | Ok a => k a
  | Raise e => Raise e
  end.

Notation "x <- m ;; k" := (bind m (fun x => k))
  (at level 61, m at next level, right associativity).
Notation "' p <- m ;; k" := (bind m (fun x => let p := x in k))
  (at level 61, p pattern, m at next level, right associativity).

(** A loop whose body can raise. *)
Fixpoint foldM {A S : Type} (body : S -> A -> Result S) (l : list A) (s : S)
  : Result S :=
  match l with
  | [] => Ok s
  | a :: l' => s' <- body s a ;; foldM body l' s'
  end.

(** ** Python strings *)

Module PyStr.

Fixpoint strip_prefix (p s : string) : option string :=
  match p with
  | EmptyString => Some s
  | String a p' =>
      match s with
      | EmptyString => None
      | String b s' => if Ascii.eqb a b then strip_prefix p' s' else None
      end
  end.

(** [s.startswith(p)] *)
Definition startswith (s p : string) : bool :=
  match strip_prefix p s with Some _ => true | None => false end.

(** [s.removeprefix(p)] *)
Definition removeprefix (s p : string) : string :=
  match strip_prefix p s with Some r => r | None => s end.

(** [str.isspace] on the characters below 256. *)
Definition isspace (c : ascii) : bool :=
  let n := nat_of_ascii c in
  ((9 <=? n) && (n <=? 13) || (28 <=? n) && (n <=? 32)
   || (n =? 133) || (n =? 160))%nat.

Fixpoint lstrip (s : string) : string :=
  match s with
  | EmptyString => EmptyString
  | String c r => if isspace c then lstrip r else s
  end.

Fixpoint take_token (s : string) : string :=
  match s with
  | EmptyString => EmptyString
  | String c r => if isspace c then EmptyString else String c (take_token r)
  end.

(** [s.split(maxsplit=1)[0]]: the first white-space delimited token;
    [IndexError] when [s] holds only white space. *)
Definition split_first (s : string) : Result string :=
  match lstrip s with
  | EmptyString => Raise IndexError
  | t => Ok (take_token t)
  end.

(** [str(n)] and ["{}".format(n)] for an integer. *)
Definition str_int (n : Z) : string := NilZero.string_of_int (Z.to_int n).

Definition is_digit (c : ascii) : bool :=
  let n := nat_of_ascii c in ((48 <=? n) && (n <=? 57))%nat.

(** The digits of an integer literal: single underscores are allowed
    between digits and dropped. [prev] tells that the character before
    was a digit. *)
Fixpoint literal_digits (prev : bool) (s : string) : option string :=
  match s with
  | EmptyString => if prev then Some EmptyString else None
  | String c r =>
      if is_digit c then option_map (String c) (literal_digits true r)
      else if Ascii.eqb c "_" then
        if prev then literal_digits false r else None
      else None
  end.

Definition int_unsigned (s : string) : option Z :=
  match literal_digits false s with
  | Some d => option_map Z.of_uint (NilZero.uint_of_string d)
  | None => None
  end.

(** [int(s)] for a token without white space (a token of [split], so the
    stripping that [int] does first has nothing to remove): an optional
    sign, then decimal digits. [None] stands for [ValueError]. *)
Definition int (s : string) : option Z :=
  match s with
  | String "+" r => int_unsigned r
  | String "-" r => option_map Z.opp (int_unsigned r)
  | _ => int_unsigned s
  end.

End PyStr.

(** ** Python dictionaries and sets *)

Module PyDict.

Section Dict.
Variables K V : Type.
Variable eqb : K -> K -> bool.

Fixpoint get (d : list (K * V)) (k : K) : option V :=
  match d with
  | [] => None
  | (k', v) :: d' => if eqb k' k then Some v else get d' k
  end.

Definition contains (d : list (K * V)) (k : K) : bool :=
  match get d k with Some _ => true | None => false end.

(** [d[k] = v]: the value of a key already present is replaced in place
    (the first key object stays), a new key goes to the end. *)
Fixpoint set (d : list (K * V)) (k : K) (v : V) : list (K * V) :=
  match d with
  | [] => [(k, v)]
  | (k', v') :: d' =>
      if eqb k' k then (k', v) :: d' else (k', v') :: set d' k v
  end.

(** [{k: v for ...}] *)
Definition of_items (items : list (K * V)) : list (K * V) :=
  fold_left (fun d kv => set d (fst kv) (snd kv)) items [].

Definition keys (d : list (K * V)) : list K := map fst d.
Definition values (d : list (K * V)) : list V := map snd d.

End Dict.

Section Set_.
Variable K : Type.
Variable eqb : K -> K -> bool.

Definition mem (s : list K) (k : K) : bool := existsb (fun k' => eqb k' k) s.

(** [s.add(k)] *)
Definition add (s : list K) (k : K) : list K :=
  if mem s k then s else s ++ [k].

End Set_.

End PyDict.

(** [sorted(l, key=key)]: a stable sort, as insertion into the sorted
    tail. [leb] is the order of the keys. *)
Section Sorted.
Variables A K : Type.
Variable leb : K -> K -> bool.
Variable key : A -> K.

Fixpoint insert_sorted (x : A) (l : list A) : list A :=
  match l with
  | [] => [x]
  | y :: l' => if leb (key x) (key y) then x :: l else y :: insert_sorted x l'
  end.

Definition sorted (l : list A) : list A := fold_right insert_sorted [] l.

(** [l.index(x)], [None] standing for [ValueError]. *)
Fixpoint index_of (eqb : A -> A -> bool) (x : A) (l : list A) : option Z :=
  match l with
  | [] => None
  | y :: l' =>
      if eqb y x then Some 0 else option_map Z.succ (index_of eqb x l')
  end.

End Sorted.

Fixpoint mapM {A B : Type} (f : A -> Result B) (l : list A) : Result (list B) :=
  match l with
  | [] => Ok []
  | a :: l' => b <- f a ;; bs <- mapM f l' ;; Ok (b :: bs)
  end.

(** ** discord.py: permissions *)

(** What [getattr(discord.Permissions, name)] gives: a flag (or an alias of
    one) with its bit mask [.flag], or another attribute of the class
    (a method, a slot), which has no [.flag]. *)
Inductive PermAttr : Type :=
| FlagAttr (flag : Z)
| OtherAttr.

(** The class [discord.Permissions], which is not part of this repository.
    [VALID_FLAGS] is what iterating over a permissions object visits (the
    names and masks of the flags, aliases left out, in the order of the
    class); [Permissions_getattr] is the attribute lookup on the class,
    [None] standing for [AttributeError]. *)
Class PermissionsClass : Type := {
  VALID_FLAGS : list (string * Z);
  Permissions_getattr : string -> option PermAttr
}.

(** [Permissions._has_flag] *)
Definition has_flag (value flag : Z) : bool := Z.land value flag =? flag.

(** The truth value of [value & flag]. *)
Definition truthy (n : Z) : bool := negb (n =? 0).

(** [PermissionOverwrite.pair()] is modelled by the record itself. *)
Record PermissionOverwrite : Type := {
  allow : Z;
  deny : Z
}.

Section Permissions.
Context {P : PermissionsClass}.

(** [iter(Permissions(value))] *)
Definition Permissions_iter (value : Z) : list (string * bool) :=
  map (fun nf => (fst nf, has_flag value (snd nf))) VALID_FLAGS.

(** The permissions value with exactly the flags that satisfy [p] set. *)
Definition flags_where (p : Z -> bool) : Z :=
  fold_left (fun m nf => if p (snd nf) then Z.lor m (snd nf) else m)
    VALID_FLAGS 0.

(** [PermissionOverwrite.from_pair(allow, deny)] of discord.py: every flag
    set in [allow] becomes [True], then every flag set in [deny] becomes
    [False]; a flag set in both ends up denied. *)
Definition from_pair (allow_value deny_value : Z) : PermissionOverwrite :=
  {| allow := flags_where (fun f => has_flag allow_value f
                                    && negb (has_flag deny_value f));
     deny := flags_where (has_flag deny_value) |}.

End Permissions.

(** ** discord.py: the state of a guild *)

Module Role.
Record t : Type := {
  id : Z;
  name : string;
  permissions : Z
}.
Definition eqb (a b : t) : bool := id a =? id b.
End Role.

Module Member.
Record t : Type := {
  id : Z;
  name : string
}.
Definition eqb (a b : t) : bool := id a =? id b.
End Member.

(** The key of an overwrite: a role or a member. *)
Module Target.
Inductive t : Type :=
| OfRole (role : Role.t)
| OfMember (member : Member.t).

Definition id (x : t) : Z :=
  match x with
  | OfRole r => Role.id r
  | OfMember m => Member.id m
  end.

Definition name (x : t) : string :=
  match x with
  | OfRole r => Role.name r
  | OfMember m => Member.name m
  end.

(** A role never equals a member. *)
Definition eqb (a b : t) : bool :=
  match a, b with
  | OfRole r, OfRole r' => Role.eqb r r'
  | OfMember m, OfMember m' => Member.eqb m m'
  | _, _ => false
  end.

Definition is_role (x : t) : bool :=
  match x with OfRole _ => true | OfMember _ => false end.
End Target.

Inductive ChannelKind : Type :=
| CategoryChannel
| TextChannel
| StoreChannel
| VoiceChannel
| StageChannel.

Module Channel.
Record t : Type := {
  id : Z;
  name : string;
  kind : ChannelKind;
  category_id : option Z;
  position : Z;
  permissions_synced : bool;
  overwrites : list (Target.t * PermissionOverwrite)
}.
Definition eqb (a b : t) : bool := id a =? id b.

Definition is_category (c : t) : bool :=
  match kind c with CategoryChannel => true | _ => false end.

Definition is_voice_or_stage (c : t) : bool :=
  match kind c with VoiceChannel | StageChannel => true | _ => false end.
End Channel.

Module Guild.
Record t : Type := {
  roles : list Role.t;
  channels : list Channel.t;
  members : list Member.t
}.

Definition get_channel (g : t) (channel_id : Z) : option Channel.t :=
  find (fun c => Channel.id c =? channel_id) (channels g).

Definition get_member (g : t) (user_id : Z) : option Member.t :=
  find (fun m => Member.id m =? user_id) (members g).
End Guild.

(** [channel.category] *)
Definition category (g : Guild.t) (channel : Channel.t) : option Channel.t :=
  match Channel.category_id channel with
  | Some i => Guild.get_channel g i
  | None => None
  end.

(** [a != b] on optional channels. *)
Definition category_neq (a b : option Channel.t) : bool :=
  match a, b with
  | Some x, Some y => negb (Channel.eqb x y)
  | None, None => false
  | _, _ => true
  end.

(** ** The exporter *)

(** The order of Python on the tuples [(int, bool, int)]. *)
Definition key3_leb (a b : Z * bool * Z) : bool :=
  let '(a1, a2, a3) := a in
  let '(b1, b2, b3) := b in
  if a1 <? b1 then true
  else if b1 <? a1 then false
  else match a2, b2 with
       | false, true => true
       | true, false => false
       | _, _ => a3 <=? b3
       end.

Definition channel_sort_key (g : Guild.t) (channel : Channel.t) : Z * bool * Z :=
  if Channel.is_category channel then (Channel.position channel, false, -1)
  else (match category g channel with
        | Some cat => Channel.position cat
        | None => -1
        end,
        Channel.is_voice_or_stage channel,
        Channel.position channel).

Definition overwrite_sort_key (g : Guild.t)
  (pair : Target.t * PermissionOverwrite) : Z :=
  match fst pair with
  | Target.OfRole r =>
      match index_of Role.eqb r (Guild.roles g) with
      | Some i => i
      | None => -1
      end
  | Target.OfMember _ => -1
  end.

Definition disambiguated_name (g : Guild.t) (channel : Channel.t)
  : Result string :=
  let chans :=
    filter (fun chan => String.eqb (Channel.name chan) (Channel.name channel))
      (Guild.channels g) in
  if (List.length chans <? 2)%nat then Ok (Channel.name channel)
  else
    let chans := sorted Z.leb Channel.id chans in
    match index_of Channel.eqb channel chans with
    | Some i =>
        Ok (Channel.name channel ++ " (" ++ PyStr.str_int (1 + i) ++ ")")%string
    | None => Raise ValueError
    end.

Section Exporter.
Context {P : PermissionsClass}.

Definition overwrite_symbols (overwrite : PermissionOverwrite) : list string :=
  map (fun ad : (string * bool) * (string * bool) =>
         if snd (fst ad) then "+" else if snd (snd ad) then "-" else "/")
    (combine (Permissions_iter (allow overwrite))
             (Permissions_iter (deny overwrite))).

Definition target_descriptor (target : Target.t) : string :=
  match target with
  | Target.OfRole r => ("Role " ++ Role.name r)%string
  | Target.OfMember m =>
      ("User " ++ PyStr.str_int (Member.id m) ++ " " ++ Member.name m)%string
  end.

Definition export_header : list string :=
  ["Category"; "Channel"; "Role/User"] ++ map fst VALID_FLAGS.

Definition export_role (role : Role.t) : list string :=
  [""; ""; ("Role " ++ Role.name role)%string]
  ++ map (fun nv : string * bool => if snd nv then "+" else "-")
       (Permissions_iter (Role.permissions role)).

(** The rows of one channel: its header row and, unless it is synced, one
    row per overwrite. *)
Definition export_channel (g : Guild.t) (channel : Channel.t)
  : Result (list (list string)) :=
  header <-
    (if Channel.is_category channel then
       n <- disambiguated_name g channel ;; Ok [n; ""]
     else
       c <- match category g channel with
            | Some cat => disambiguated_name g cat
            | None => Ok ""
            end ;;
       n <- disambiguated_name g channel ;;
       Ok [c; n]) ;;
  let first :=
    header ++ [if Channel.permissions_synced channel then "(synced)" else ""] in
  if Channel.permissions_synced channel then Ok [first]
  else
    Ok (first ::
        map (fun to : Target.t * PermissionOverwrite =>
               header ++ [target_descriptor (fst to)]
               ++ overwrite_symbols (snd to))
          (sorted Z.leb (overwrite_sort_key g) (Channel.overwrites channel))).

(** The rows written by [exportperms], in order. *)
Definition exportperms (g : Guild.t) : Result (list (list string)) :=
  chans <- mapM (export_channel g)
             (sorted key3_leb (channel_sort_key g) (Guild.channels g)) ;;
  Ok (export_header :: map export_role (Guild.roles g) ++ List.concat chans).

End Exporter.

(** ** The importer *)

(** [permissions.value & ~remove_mask | add_mask] *)
Definition tweak_permissions (permissions add_mask remove_mask : Z) : Z :=
  Z.lor (Z.land permissions (Z.lnot remove_mask)) add_mask.

Definition overwrites_for (channel : Channel.t) (target : Target.t)
  : PermissionOverwrite :=
  match find (fun to : Target.t * PermissionOverwrite =>
                Target.id (fst to) =? Target.id target)
          (Channel.overwrites channel) with
  | Some to => snd to
  | None => {| allow := 0; deny := 0 |}
  end.

(** The masks stored for one target: add, remove, reset. *)
Definition Masks : Type := (Z * Z * Z)%type.

(** One entry of a change list: the mark put before the flag name. *)
Inductive Change : Type :=
| Allowed (perm : string)
| Denied (perm : string)
| Inherited (perm : string).

(** The lines of the summary, one constructor per format string. *)
Inductive Note : Type :=
| RoleNote (role : Role.t) (changes : list Change)
| MoveNote (channel : Channel.t) (category : option Channel.t)
| OverwriteNote (channel : Channel.t) (target : Target.t) (changes : list Change)
| RemoveNote (channel : Channel.t) (target : Target.t)
| SyncNote (channel new_category : Channel.t).

(** The deferred calls, one constructor per lambda, holding what the
    lambda captures. The overwrite edit reads [new_overwrites] when it
    runs, that is after the whole file was read. *)
Inductive Action : Type :=
| EditRole (role : Role.t) (add_mask remove_mask : Z)
| EditCategory (channel : Channel.t) (category : option Channel.t)
| EditOverwrites (channel : Channel.t)
| SyncPermissions (channel : Channel.t).

(** The local variables of [importperms] that outlive a row. [channel] is
    the variable of that name: unbound at first, it keeps the channel of
    the last channel row and is read again by the loops after the rows. *)
Record ImportState : Type := {
  actions : list Action;
  output : list Note;
  new_overwrites : list (Channel.t * list (Target.t * Masks));
  overwrites_changed : list Channel.t;
  want_sync : list Channel.t;
  seen_moved : list (Channel.t * option Channel.t);
  channel : option Channel.t
}.

Definition initial_state : ImportState :=
  {| actions := []; output := []; new_overwrites := [];
     overwrites_changed := []; want_sync := []; seen_moved := [];
     channel := None |}.

Definition append_action (st : ImportState) (a : Action) : ImportState :=
  {| actions := actions st ++ [a]; output := output st;
     new_overwrites := new_overwrites st;
     overwrites_changed := overwrites_changed st;
     want_sync := want_sync st; seen_moved := seen_moved st;
     channel := channel st |}.

Definition append_output (st : ImportState) (n : Note) : ImportState :=
  {| actions := actions st; output := output st ++ [n];
     new_overwrites := new_overwrites st;
     overwrites_changed := overwrites_changed st;
     want_sync := want_sync st; seen_moved := seen_moved st;
     channel := channel st |}.

Definition set_new_overwrites (st : ImportState)
  (d : list (Channel.t * list (Target.t * Masks))) : ImportState :=
  {| actions := actions st; output := output st;
     new_overwrites := d;
     overwrites_changed := overwrites_changed st;
     want_sync := want_sync st; seen_moved := seen_moved st;
     channel := channel st |}.

Definition add_overwrites_changed (st : ImportState) (c : Channel.t)
  : ImportState :=
  {| actions := actions st; output := output st;
     new_overwrites := new_overwrites st;
     overwrites_changed := PyDict.add Channel.eqb (overwrites_changed st) c;
     want_sync := want_sync st; seen_moved := seen_moved st;
     channel := channel st |}.

Definition add_want_sync (st : ImportState) (c : Channel.t) : ImportState :=
  {| actions := actions st; output := output st;
     new_overwrites := new_overwrites st;
     overwrites_changed := overwrites_changed st;
     want_sync := PyDict.add Channel.eqb (want_sync st) c;
     seen_moved := seen_moved st;
     channel := channel st |}.

Definition set_seen_moved (st : ImportState) (c : Channel.t)
  (cat : option Channel.t) : ImportState :=
  {| actions := actions st; output := output st;
     new_overwrites := new_overwrites st;
     overwrites_changed := overwrites_changed st;
     want_sync := want_sync st;
     seen_moved := PyDict.set Channel.eqb (seen_moved st) c cat;
     channel := channel st |}.

Definition set_channel (st : ImportState) (c : Channel.t) : ImportState :=
  {| actions := actions st; output := output st;
     new_overwrites := new_overwrites st;
     overwrites_changed := overwrites_changed st;
     want_sync := want_sync st; seen_moved := seen_moved st;
     channel := Some c |}.

(** [new_overwrites[channel]] on the [defaultdict]: the entry, created
    empty when missing. *)
Definition touch (d : list (Channel.t * list (Target.t * Masks)))
  (c : Channel.t) : list (Channel.t * list (Target.t * Masks)) :=
  if PyDict.contains Channel.eqb d c then d else d ++ [(c, [])].

Definition entry (d : list (Channel.t * list (Target.t * Masks)))
  (c : Channel.t) : list (Target.t * Masks) :=
  match PyDict.get Channel.eqb d c with
  | Some e => e
  | None => []
  end.

(** [new_overwrites[channel][target] = masks] *)
Definition store_masks (d : list (Channel.t * list (Target.t * Masks)))
  (c : Channel.t) (target : Target.t) (m : Masks)
  : list (Channel.t * list (Target.t * Masks)) :=
  let d' := touch d c in
  PyDict.set Channel.eqb d' c (PyDict.set Target.eqb (entry d' c) target m).

(** [flag.flag] *)
Definition flag_of (a : PermAttr) : Result Z :=
  match a with
  | FlagAttr f => Ok f
  | OtherAttr => Raise AttributeError
  end.

(** The body of the loop over [zip(flags, row[3:])] of a role row. *)
Definition role_sign (value : Z) (acc : list Change * Z * Z)
  (fs : PermAttr * string * string) : Result (list Change * Z * Z) :=
  let '(flag, perm, sign) := fs in
  acc <- (if (sign =? "+")%string then
            f <- flag_of flag ;;
            if negb (truthy (Z.land value f)) then
              let '(changes, add_mask, remove_mask) := acc in
              Ok (changes ++ [Allowed perm], Z.lor add_mask f, remove_mask)
            else Ok acc
          else Ok acc) ;;
  if (sign =? "-")%string then
    f <- flag_of flag ;;
    if truthy (Z.land value f) then
      let '(changes, add_mask, remove_mask) := acc in
      Ok (changes ++ [Denied perm], add_mask, Z.lor remove_mask f)
    else Ok acc
  else Ok acc.

(** The body of the loop over [zip(flags, row[3:])] of an overwrite row. *)
Definition overwrite_sign (allow_value deny_value : Z)
  (acc : list Change * Z * Z * Z) (fs : PermAttr * string * string)
  : Result (list Change * Z * Z * Z) :=
  let '(flag, perm, sign) := fs in
  acc <- (if (sign =? "+")%string then
            f <- flag_of flag ;;
            if negb (truthy (Z.land allow_value f)) then
              let '(changes, add_mask, remove_mask, reset_mask) := acc in
              Ok (changes ++ [Allowed perm], Z.lor add_mask f, remove_mask,
                  reset_mask)
            else Ok acc
          else Ok acc) ;;
  acc <- (if (sign =? "-")%string then
            f <- flag_of flag ;;
            if negb (truthy (Z.land deny_value f)) then
              let '(changes, add_mask, remove_mask, reset_mask) := acc in
              Ok (changes ++ [Denied perm], add_mask, Z.lor remove_mask f,
                  reset_mask)
            else Ok acc
          else Ok acc) ;;
  if (sign =? "/")%string then
    f <- flag_of flag ;;
    if truthy (Z.land allow_value f) || truthy (Z.land deny_value f) then
      let '(changes, add_mask, remove_mask, reset_mask) := acc in
      Ok (changes ++ [Inherited perm], add_mask, remove_mask,
          Z.lor reset_mask f)
    else Ok acc
  else Ok acc.

(** The loop of a role row over [zip(flags, signs)], from empty changes
    and masks; [signs] is [row[3:]]. *)
Definition role_changes (value : Z) (flags : list (PermAttr * string))
  (signs : list string) : Result (list Change * Z * Z) :=
  foldM (role_sign value) (combine flags signs) ([], 0, 0).

(** The loop of an overwrite row over [zip(flags, signs)]. *)
Definition overwrite_changes (allow_value deny_value : Z)
  (flags : list (PermAttr * string)) (signs : list string)
  : Result (list Change * Z * Z * Z) :=
  foldM (overwrite_sign allow_value deny_value) (combine flags signs)
    ([], 0, 0, 0).

(** The three leading columns of a row; [None] when the row is shorter. *)
Definition row_columns (row : list string)
  : option (string * string * string) :=
  match row with
  | r0 :: r1 :: r2 :: _ => Some (r0, r1, r2)
  | _ => None
  end.

Definition check_header (header : list string) : Result unit :=
  match row_columns header with
  | Some (h0, h1, h2) =>
      if negb (h0 =? "Category")%string || negb (h1 =? "Channel")%string
         || negb (h2 =? "Role/User")%string
      then Raise (UserError InvalidHeader)
      else Ok tt
  | None => Raise (UserError InvalidHeader)
  end.

Section Importer.
Context {P : PermissionsClass}.

(** [PermissionOverwrite.from_pair] of the two tweaked permission values. *)
Definition tweak_overwrite (overwrite : PermissionOverwrite)
  (add_mask remove_mask reset_mask : Z) : PermissionOverwrite :=
  from_pair (tweak_permissions (allow overwrite) add_mask reset_mask)
            (tweak_permissions (deny overwrite) remove_mask reset_mask).

(** What the overwrite edit of [channel] sends when it runs: the dictionary
    comprehension over the final [new_overwrites[channel]]. *)
Definition edit_overwrites_payload (st : ImportState) (channel : Channel.t)
  : list (Target.t * PermissionOverwrite) :=
  PyDict.of_items Target.eqb
    (map (fun tm : Target.t * Masks =>
            let '(add_mask, remove_mask, reset_mask) := snd tm in
            (fst tm,
             tweak_overwrite (overwrites_for channel (fst tm))
               add_mask remove_mask reset_mask))
       (entry (new_overwrites st) channel)).

(** The loop over [header[3:]]. *)
Definition parse_flags (perms : list string)
  : Result (list (PermAttr * string)) :=
  foldM (fun flags perm =>
           match Permissions_getattr perm with
           | Some a => Ok (flags ++ [(a, perm)])
           | None => Raise (UserError (UnknownPermission perm))
           end)
    perms [].

(** [channels = {disambiguated_name(channel): channel for ...}] *)
Definition channels_by_name (g : Guild.t)
  : Result (list (string * Channel.t)) :=
  items <- mapM (fun c => n <- disambiguated_name g c ;; Ok (n, c))
             (Guild.channels g) ;;
  Ok (PyDict.of_items String.eqb items).

(** [roles = {role.name: role for role in ctx.guild.roles}] *)
Definition roles_by_name (g : Guild.t) : list (string * Role.t) :=
  PyDict.of_items String.eqb (map (fun r => (Role.name r, r)) (Guild.roles g)).

Section Rows.
Variable g : Guild.t.
Variable channels : list (string * Channel.t).
Variable roles : list (string * Role.t).
Variable flags : list (PermAttr * string).

(** A row with empty category and channel columns. *)
Definition import_role_row (st : ImportState) (line : nat)
  (row : list string) (target : string) : Result ImportState :=
  if negb (PyStr.startswith target "Role ") then
    Raise (UserError (ExpectedRole line))
  else
    let role_name := PyStr.removeprefix target "Role " in
    match PyDict.get String.eqb roles role_name with
    | None => Raise (UserError (UnknownRole line role_name))
    | Some role =>
        '(changes, add_mask, remove_mask) <-
          role_changes (Role.permissions role) flags (skipn 3 row) ;;
        let st := match changes with
                  | [] => st
                  | _ => append_output st (RoleNote role changes)
                  end in
        Ok (if negb (add_mask =? 0) || negb (remove_mask =? 0)
            then append_action st (EditRole role add_mask remove_mask)
            else st)
    end.

(** The category and the channel a channel row names. *)
Definition resolve_channel (line : nat) (r0 r1 : string)
  : Result (option Channel.t * Channel.t) :=
  if (r1 =? "")%string then
    match PyDict.get String.eqb channels r0 with
    | None => Raise (UserError (UnknownChannel line r0))
    | Some channel =>
        if negb (Channel.is_category channel)
        then Raise (UserError (NotACategory line r0))
        else Ok (None, channel)
    end
  else
    category <-
      (if (r0 =? "")%string then Ok None
       else match PyDict.get String.eqb channels r0 with
            | None => Raise (UserError (UnknownChannel line r0))
            | Some cat =>
                if negb (Channel.is_category cat)
                then Raise (UserError (NotACategory line r0))
                else Ok (Some cat)
            end) ;;
    match PyDict.get String.eqb channels r1 with
    | None => Raise (UserError (UnknownChannel line r1))
    | Some channel =>
        if Channel.is_category channel
        then Raise (UserError (IsACategory line r1))
        else Ok (category, channel)
    end.

(** The target named by the third column of an overwrite row. *)
Definition resolve_target (line : nat) (r2 : string) : Result Target.t :=
  if PyStr.startswith r2 "Role " then
    let role_name := PyStr.removeprefix r2 "Role " in
    match PyDict.get String.eqb roles role_name with
    | None => Raise (UserError (UnknownRole line role_name))
    | Some role => Ok (Target.OfRole role)
    end
  else if PyStr.startswith r2 "User " then
    token <- PyStr.split_first (PyStr.removeprefix r2 "User ") ;;
    match PyStr.int token with
    | None => Raise (UserError (ExpectedUserID line))
    | Some user_id =>
        match Guild.get_member g user_id with
        | None => Raise (UserError (NoSuchMember line user_id))
        | Some member => Ok (Target.OfMember member)
        end
    end
  else Raise (UserError (ExpectedRoleOrUser line)).

(** A row that names a category or a channel. *)
Definition import_channel_row (st : ImportState) (line : nat)
  (row : list string) (r0 r1 r2 : string) : Result ImportState :=
  '(category_, channel_) <- resolve_channel line r0 r1 ;;
  let st := set_channel st channel_ in
  let st :=
    if negb (Channel.is_category channel_)
       && category_neq (category g channel_) category_
    then
      if negb (PyDict.contains Channel.eqb (seen_moved st) channel_) then
        append_action
          (append_output (set_seen_moved st channel_ category_)
             (MoveNote channel_ category_))
          (EditCategory channel_ category_)
      else st
    else st in
  if (r2 =? "(synced)")%string && negb (Channel.is_category channel_) then
    Ok (add_want_sync st channel_)
  else if negb (r2 =? "")%string then
    target <- resolve_target line r2 ;;
    let overwrite := overwrites_for channel_ target in
    '(changes, add_mask, remove_mask, reset_mask) <-
      overwrite_changes (allow overwrite) (deny overwrite) flags
        (skipn 3 row) ;;
    let st := match changes with
              | [] => st
              | _ => append_output st (OverwriteNote channel_ target changes)
              end in
    Ok (set_new_overwrites st
          (store_masks (new_overwrites st) channel_ target
             (add_mask, remove_mask, reset_mask)))
  else
    Ok (set_new_overwrites st (touch (new_overwrites st) channel_)).

(** The body of [for row in reader]; [line] is [reader.line_num]. *)
Definition import_row (st : ImportState) (lr : nat * list string)
  : Result ImportState :=
  let '(line, row) := lr in
  match row_columns row with
  | None => Raise (UserError (InvalidRow line))
  | Some (r0, r1, r2) =>
      if (r0 =? "")%string && (r1 =? "")%string
      then import_role_row st line row r2
      else import_channel_row st line row r0 r1 r2
  end.

(** The rows after the header, numbered from line 2. *)
Definition first_pass (data : list (list string)) : Result ImportState :=
  foldM import_row (combine (seq 2 (List.length data)) data) initial_state.

End Rows.

Definition masks_nonzero (m : Masks) : bool :=
  let '(add_mask, remove_mask, reset_mask) := m in
  negb (add_mask =? 0) || negb (remove_mask =? 0) || negb (reset_mask =? 0).

(** The body of [for target in channel.overwrites] of the second loop. *)
Definition removal_step (chan : Channel.t) (st : ImportState)
  (target : Target.t) : ImportState :=
  if negb (PyDict.contains Target.eqb (entry (new_overwrites st) chan) target)
  then add_overwrites_changed (append_output st (RemoveNote chan target)) chan
  else st.

(** The body of [for chan in new_overwrites]. The test reads the variable
    [channel], which holds the channel of the last channel row or of the
    last iteration that was not skipped; every channel of a guild is of
    one of the five kinds, so the test on the kind never skips. *)
Definition overwrite_step (st : ImportState) (chan : Channel.t)
  : Result ImportState :=
  match channel st with
  | None => Raise UnboundLocalError
  | Some c =>
      if PyDict.mem Channel.eqb (want_sync st) c then Ok st
      else
        let st := set_channel st chan in
        let st :=
          if existsb masks_nonzero
               (PyDict.values (entry (new_overwrites st) chan))
          then add_overwrites_changed st chan
          else st in
        let st :=
          fold_left (removal_step chan)
            (PyDict.keys (Channel.overwrites chan)) st in
        Ok (append_action st (EditOverwrites chan))
  end.

Definition second_pass (st : ImportState) : Result ImportState :=
  foldM overwrite_step (PyDict.keys (new_overwrites st)) st.

(** [seen_moved.get(channel, channel.category)] *)
Definition new_category (g : Guild.t) (st : ImportState) (chan : Channel.t)
  : option Channel.t :=
  match PyDict.get Channel.eqb (seen_moved st) chan with
  | Some moved_to => moved_to
  | None => category g chan
  end.

(** The body of [for chan in want_sync]; the set is visited in the order
    in which its elements were added. *)
Definition sync_step (g : Guild.t) (st : ImportState) (chan : Channel.t)
  : Result ImportState :=
  if Channel.is_category chan then Ok st
  else
    let st := set_channel st chan in
    match new_category g st chan with
    | None => Raise (UserError (CannotSyncNoCategory (Channel.id chan)))
    | Some cat =>
        if negb (Channel.permissions_synced chan)
           || PyDict.contains Channel.eqb (seen_moved st) chan
           || PyDict.mem Channel.eqb (overwrites_changed st) cat
        then Ok (append_action (append_output st (SyncNote chan cat))
                   (SyncPermissions chan))
        else Ok st
    end.

Definition third_pass (g : Guild.t) (st : ImportState) : Result ImportState :=
  foldM (sync_step g) (want_sync st) st.

(** [importperms] up to the point where the summary is sent: the state
    with the notes in [output] and the deferred calls in [actions]. The
    first row of [rows] is the header. *)
Definition importperms (g : Guild.t) (rows : list (list string))
  : Result ImportState :=
  channels <- channels_by_name g ;;
  let roles := roles_by_name g in
  match rows with
  | [] => Raise StopIteration
  | header :: data =>
      _ <- check_header header ;;
      flags <- parse_flags (skipn 3 header) ;;
      st <- first_pass g channels roles flags data ;;
      st <- second_pass st ;;
      third_pass g st
  end.

(** The actions that run: none when there is no note ("No changes."),
    none when the prompt is declined, all of them in order otherwise. *)
Definition executed_actions (st : ImportState) (confirmed : bool)
  : list Action :=
  match output st with
  | [] => []
  | _ => if confirmed then actions st else []
  end.

End Importer.

(** The loop that sends the notes: the texts passed to [ctx.send], in
    order, the last one being the message that carries the prompt. *)
Fixpoint send_loop (text : string) (output : list string) : list string :=
  match output with
  | [] => [text]
  | out :: rest =>
      if (2000 <? String.length text + 1 + String.length out)%nat
      then text :: send_loop out rest
      else send_loop (text ++ String (ascii_of_nat 10) out)%string rest
  end.

Definition send_notes (output : list string) : list string :=
  send_loop "" output.

(** ** Statements of the specification *)

(** The masks the specification gives for the tweak of an overwrite. *)
Definition spec_tweak (old_allow old_deny add_mask remove_mask reset_mask : Z)
  : Z * Z :=
  (Z.lor (Z.land (Z.land old_allow (Z.lnot reset_mask)) (Z.lnot remove_mask))
     add_mask,
   Z.lor (Z.land (Z.land old_deny (Z.lnot reset_mask)) (Z.lnot add_mask))
     remove_mask).

(** [text] followed by the notes, each on a line of its own: what the
    sending loop has in [text] after it added [notes] to it. *)
Definition append_lines (text : string) (notes : list string) : string :=
  fold_left (fun t o => (t ++ String (ascii_of_nat 10) o)%string) notes text.

(** A message that starts with the note [fst p] and goes on with the notes
    [snd p]. *)
Definition message_of (p : string * list string) : string :=
  append_lines (fst p) (snd p).

Definition notes_of (p : string * list string) : list string :=
  fst p :: snd p.

(** Some mask stored for [chan] is not zero. *)
Definition has_nonzero_mask (st : ImportState) (chan : Channel.t) : bool :=
  existsb masks_nonzero (PyDict.values (entry (new_overwrites st) chan)).

(** Some live overwrite target of [chan] has no entry in the input. *)
Definition has_removal (st : ImportState) (chan : Channel.t) : bool :=
  existsb (fun t => negb (PyDict.contains Target.eqb
                            (entry (new_overwrites st) chan) t))
    (PyDict.keys (Channel.overwrites chan)).

Definition is_edit_overwrites_of (chan : Channel.t) (a : Action) : bool :=
  match a with
  | EditOverwrites c => Channel.eqb c chan
  | _ => false
  end.

Definition is_sync_of (chan : Channel.t) (a : Action) : bool :=
  match a with
  | SyncPermissions c => Channel.eqb c chan
  | _ => false
  end.

Definition count_actions (p : Action -> bool) (l : list Action) : nat :=
  List.length (filter p l).

(** No white space in a string. *)
Definition no_space (s : string) : Prop :=
  Forall (fun c => PyStr.isspace c = false) (list_ascii_of_string s).

(** The attribute has a [.flag]. *)
Definition has_flag_attr (fp : PermAttr * string) : Prop :=
  exists f, fst fp = FlagAttr f.

(** The order on elements that [sorted] establishes. *)
Definition key_le {A K : Type} (leb : K -> K -> bool) (key : A -> K)
  (a b : A) : Prop :=
  leb (key a) (key b) = true.

(** The channels of the guild that have the name of [channel]. *)
Definition namesakes (g : Guild.t) (channel : Channel.t) : list Channel.t :=
  filter (fun chan => String.eqb (Channel.name chan) (Channel.name channel))
    (Guild.channels g).

(** The 1-based rank of [channel] among its namesakes in the order of the
    identifiers. *)
Definition occurrence (g : Guild.t) (channel : Channel.t) : Z :=
  1 + Z.of_nat (List.length
                  (filter (fun chan => Channel.id chan <? Channel.id channel)
                     (namesakes g channel))).

(** The label the specification gives a channel: its bare name when no
    other channel has it, the name followed by the occurrence index in
    brackets otherwise. *)
Definition label (g : Guild.t) (channel : Channel.t) : string :=
  if (List.length (namesakes g channel) <? 2)%nat then Channel.name channel
  else (Channel.name channel ++ " (" ++ PyStr.str_int (occurrence g channel)
        ++ ")")%string.

(** The equality of the keys of a dictionary is an equivalence. *)
Record KeyEquivalence {K : Type} (eqb : K -> K -> bool) : Prop := {
  key_refl : forall a, eqb a a = true;
  key_sym : forall a b, eqb a b = eqb b a;
  key_trans : forall a b c, eqb a b = true -> eqb b c = true -> eqb a c = true
}.

(** The target is a role found in the role list of the guild. *)
Definition listed (g : Guild.t) (pair : Target.t * PermissionOverwrite) : bool :=
  match fst pair with
  | Target.OfRole r =>
      match index_of Role.eqb r (Guild.roles g) with
      | Some _ => true
      | None => false
      end
  | Target.OfMember _ => false
  end.

(** What the specification says of the order of the overwrite rows: no
    role comes after a member. *)
Definition members_last (targets : list (Target.t * PermissionOverwrite)) : Prop :=
  forall before x after,
    targets = before ++ x :: after ->
    Target.is_role (fst x) = false ->
    Forall (fun y => Target.is_role (fst y) = false) after.

(** The row of one overwrite under the two leading columns [header]. *)
Definition overwrite_row `{PermissionsClass} (header : list string)
  (pair : Target.t * PermissionOverwrite) : list string :=
  header ++ [target_descriptor (fst pair)] ++ overwrite_symbols (snd pair).

(** No two elements of the list are equal as keys. *)
Fixpoint distinct {K : Type} (eqb : K -> K -> bool) (l : list K) : Prop :=
  match l with
  | [] => True
  | x :: l' => existsb (eqb x) l' = false /\ distinct eqb l'
  end.

(** The actions that the loop over the rows appends. *)
Definition row_action (a : Action) : Prop :=
  match a with
  | EditRole _ _ _ | EditCategory _ _ => True
  | EditOverwrites _ | SyncPermissions _ => False
  end.

Definition not_sync (a : Action) : Prop :=
  match a with
  | SyncPermissions _ => False
  | _ => True
  end.

(** What holds of the state after any number of rows. *)
Record rows_invariant (st : ImportState) : Prop := {
  inv_keys : distinct Channel.eqb (PyDict.keys (new_overwrites st));
  inv_want_sync : distinct Channel.eqb (want_sync st);
  inv_not_category :
    Forall (fun c => Channel.is_category c = false) (want_sync st);
  inv_actions : Forall row_action (actions st);
  inv_unchanged : overwrites_changed st = [];
  inv_channel : new_overwrites st <> [] -> channel st <> None
}.

(** The test of the third loop: the channel was not synced, or was moved
    by this import, or the overwrites of its new category changed. *)
Definition sync_due (g : Guild.t) (st : ImportState) (chan : Channel.t) : bool :=
  negb (Channel.permissions_synced chan)
  || PyDict.contains Channel.eqb (seen_moved st) chan
  || match new_category g st chan with
     | Some cat => PyDict.mem Channel.eqb (overwrites_changed st) cat
     | None => false
     end.

(** The overwrites of [chan] count as changed by the import. *)
Definition changed (st : ImportState) (chan : Channel.t) : bool :=
  has_nonzero_mask st chan || has_removal st chan.

(** The live targets of [chan] that the input does not name. *)
Definition removed_targets (st : ImportState) (chan : Channel.t)
  : list Target.t :=
  filter (fun t => negb (PyDict.contains Target.eqb
                           (entry (new_overwrites st) chan) t))
    (PyDict.keys (Channel.overwrites chan)).

(** A flag is one bit. *)
Definition single_bit (f : Z) : Prop := 0 <= Z.log2 f /\ f = 2 ^ Z.log2 f.

(** What the export and the import rely on in the permissions class: the
    name of every flag is an attribute that carries the mask of the flag,
    and the mask is one bit. *)
Record table_ok (P : PermissionsClass) : Prop := {
  flags_are_attributes :
    Forall (fun nf => Permissions_getattr (fst nf) = Some (FlagAttr (snd nf)))
      VALID_FLAGS;
  flags_are_bits : Forall (fun nf => single_bit (snd nf)) VALID_FLAGS
}.

(** A guild as discord.py presents it, with names that identify: channels
    have distinct identifiers and non-empty names, the parent of a channel
    is a category, a synced channel is no category and has one, the
    targets of the overwrites are roles and members of the guild with
    distinct identifiers; no two roles have the same name and no two
    channels the same label. *)
Record guild_ok (g : Guild.t) : Prop := {
  channel_ids : NoDup (map Channel.id (Guild.channels g));
  channel_labels : NoDup (map (label g) (Guild.channels g));
  channel_names :
    Forall (fun c => Channel.name c <> ""%string) (Guild.channels g);
  role_names : NoDup (map Role.name (Guild.roles g));
  parents :
    Forall (fun c => match category g c with
                     | Some cat => Channel.is_category cat = true
                     | None => True
                     end) (Guild.channels g);
  synced_channels :
    Forall (fun c => if Channel.permissions_synced c
                     then Channel.is_category c = false
                          /\ category g c <> None
                     else True) (Guild.channels g);
  targets :
    Forall (fun c =>
              Forall (fun to : Target.t * PermissionOverwrite =>
                        match fst to with
                        | Target.OfRole r => In r (Guild.roles g)
                        | Target.OfMember m => In m (Guild.members g)
                        end) (Channel.overwrites c)) (Guild.channels g);
  target_ids :
    Forall (fun c =>
              NoDup (map (fun to : Target.t * PermissionOverwrite =>
                            Target.id (fst to)) (Channel.overwrites c)))
      (Guild.channels g)
}.

(** All masks of an entry are zero. *)
Definition zero_masks (e : list (Target.t * Masks)) : Prop :=
  Forall (fun tm => snd tm = (0, 0, 0)) e.

(** The state while the export of the guild is read back: no note, no
    action, no move; the channels marked synced are synced channels of the
    guild; every touched channel is a channel of the guild, its masks are
    zero and its live targets are named, apart from those that [pending]
    lets out. *)
Record round_trip_state (g : Guild.t)
  (pending : Channel.t -> Target.t -> Prop) (st : ImportState) : Prop := {
  rt_output : output st = [];
  rt_actions : actions st = [];
  rt_seen_moved : seen_moved st = [];
  rt_want_sync :
    forall c, In c (want_sync st) ->
              In c (Guild.channels g) /\ Channel.permissions_synced c = true;
  rt_touched :
    forall c, In c (PyDict.keys (new_overwrites st)) ->
              In c (Guild.channels g)
              /\ zero_masks (entry (new_overwrites st) c)
              /\ forall t, In t (PyDict.keys (Channel.overwrites c)) ->
                   PyDict.contains Target.eqb (entry (new_overwrites st) c) t
                   = true
                   \/ pending c t
}.

Definition none_pending (c : Channel.t) (t : Target.t) : Prop := False.

(** The targets of [pairs] are pending for the channel [chan]. *)
Definition pending_of (chan : Channel.t)
  (pairs : list (Target.t * PermissionOverwrite))
  (c : Channel.t) (t : Target.t) : Prop :=
  c = chan /\ In t (map fst pairs).

(** The two leading columns of the rows of a channel. *)
Definition row_header (g : Guild.t) (c : Channel.t) : list string :=
  if Channel.is_category c then [label g c; ""%string]
  else [match category g c with
        | Some cat => label g cat
        | None => ""%string
        end; label g c].

(** The rows of a channel, with the labels of the specification. *)
Definition channel_rows `{PermissionsClass} (g : Guild.t) (c : Channel.t)
  : list (list string) :=
  (row_header g c
   ++ [if Channel.permissions_synced c then "(synced)" else ""]%string)
  :: (if Channel.permissions_synced c then []
      else map (overwrite_row (row_header g c))
             (sorted Z.leb (overwrite_sort_key g) (Channel.overwrites c))).

(** Rows with their line numbers, from line [start]. *)
Definition numbered (start : nat) (rows : list (list string))
  : list (nat * list string) :=
  combine (seq start (List.length rows)) rows.

(** The flags of the header that the export writes. *)
Definition flag_columns `{PermissionsClass} : list (PermAttr * string) :=
  map (fun nf => (FlagAttr (snd nf), fst nf)) VALID_FLAGS.

(** The sign the export writes for a flag of a role and of an overwrite. *)
Definition role_symbol (value : Z) (nf : string * Z) : string :=
  if has_flag value (snd nf) then "+" else "-".

Definition overwrite_symbol (overwrite : PermissionOverwrite)
  (nf : string * Z) : string :=
  if has_flag (allow overwrite) (snd nf) then "+"
  else if has_flag (deny overwrite) (snd nf) then "-" else "/".


(** Every flag of the header that is a flag at all is one bit. *)
Definition bit_flags (flags : list (PermAttr * string)) : Prop :=
  Forall (fun fp => match fst fp with
                    | FlagAttr f => single_bit f
                    | OtherAttr => True
                    end) flags.

(** The shape of a row of the export: the three leading columns alone, or
    followed by one sign for every flag. *)
Definition row_shape `{PermissionsClass} (row : list string) : Prop :=
  List.length row = 3%nat
  \/ List.length row = (3 + List.length VALID_FLAGS)%nat.

(** What holds of the changes and the masks of a role row at every step
    of the loop over its signs. *)
Definition role_masks_ok (value : Z) (acc : list Change * Z * Z) : Prop :=
  let '(changes, add_mask, remove_mask) := acc in
  Z.land add_mask value = 0
  /\ Z.land remove_mask (Z.lnot value) = 0
  /\ (changes = [] -> add_mask = 0 /\ remove_mask = 0)
  /\ (changes <> [] -> add_mask <> 0 \/ remove_mask <> 0).

(** What holds of the changes and the masks of an overwrite row at every
    step of the loop over its signs. *)
Definition overwrite_masks_ok (allow_value deny_value : Z)
  (acc : list Change * Z * Z * Z) : Prop :=
  let '(changes, add_mask, remove_mask, reset_mask) := acc in
  Z.land add_mask allow_value = 0
  /\ Z.land remove_mask deny_value = 0
  /\ Z.land reset_mask (Z.lnot (Z.lor allow_value deny_value)) = 0
  /\ (changes = [] -> add_mask = 0 /\ remove_mask = 0 /\ reset_mask = 0)
  /\ (changes <> [] -> add_mask <> 0 \/ remove_mask <> 0 \/ reset_mask <> 0).

(** No flag of the row has both a [+] and a [-]. *)
Definition one_sign_per_flag (zipped : list (PermAttr * string * string))
  : Prop :=
  forall f perm perm',
    In (FlagAttr f, perm, "+"%string) zipped ->
    In (FlagAttr f, perm', "-"%string) zipped -> False.



(** ** Sample data *)

(** An instance of the permissions class for the examples: the first
    twelve flags of [discord.Permissions] with their bits, the alias
    [view_channel] of [read_messages], and three of the other attributes
    of the class (two class methods and the slot of the value). *)
Module Sample.

Definition flags : list (string * Z) :=
  [("create_instant_invite", Z.shiftl 1 0);
   ("kick_members", Z.shiftl 1 1);
   ("ban_members", Z.shiftl 1 2);
   ("administrator", Z.shiftl 1 3);
   ("manage_channels", Z.shiftl 1 4);
   ("manage_guild", Z.shiftl 1 5);
   ("add_reactions", Z.shiftl 1 6);
   ("view_audit_log", Z.shiftl 1 7);
   ("priority_speaker", Z.shiftl 1 8);
   ("stream", Z.shiftl 1 9);
   ("read_messages", Z.shiftl 1 10);
   ("send_messages", Z.shiftl 1 11)].

Definition aliases : list (string * Z) :=
  [("view_channel", Z.shiftl 1 10)].

Definition other_attributes : list string := ["all"; "none"; "value"].

Definition getattr (name : string) : option PermAttr :=
  match PyDict.get String.eqb (flags ++ aliases) name with
  | Some f => Some (FlagAttr f)
  | None =>
      if existsb (String.eqb name) other_attributes then Some OtherAttr
      else None
  end.

Definition permissions : PermissionsClass :=
  {| VALID_FLAGS := flags; Permissions_getattr := getattr |}.

Definition VIEW : Z := Z.shiftl 1 10.
Definition SEND : Z := Z.shiftl 1 11.

Definition everyone : Role.t :=
  {| Role.id := 1; Role.name := "@everyone"; Role.permissions := VIEW |}.
Definition admin : Role.t :=
  {| Role.id := 2; Role.name := "Admin"; Role.permissions := 8 |}.
Definition alice : Member.t :=
  {| Member.id := 42; Member.name := "alice" |}.

Definition lobby : Channel.t :=
  {| Channel.id := 10; Channel.name := "Lobby"; Channel.kind := CategoryChannel;
     Channel.category_id := None; Channel.position := 0;
     Channel.permissions_synced := false;
     Channel.overwrites :=
       [(Target.OfRole everyone, {| allow := VIEW; deny := 0 |})] |}.

Definition general (id : Z) (synced : bool) : Channel.t :=
  {| Channel.id := id; Channel.name := "general"; Channel.kind := TextChannel;
     Channel.category_id := Some 10; Channel.position := id;
     Channel.permissions_synced := synced;
     Channel.overwrites :=
       if synced
       then [(Target.OfRole everyone, {| allow := VIEW; deny := 0 |})]
       else [(Target.OfRole admin, {| allow := SEND; deny := 0 |});
             (Target.OfMember alice, {| allow := 0; deny := SEND |})] |}.

(** A category with two channels of the same name, one of them synced. *)
Definition guild : Guild.t :=
  {| Guild.roles := [everyone; admin];
     Guild.channels := [general 200 false; lobby; general 100 true];
     Guild.members := [alice] |}.

(** Three text channels outside any category: two named [general] and one
    whose own name is the label of the first. *)
Definition plain (id : Z) (name : string) : Channel.t :=
  {| Channel.id := id; Channel.name := name; Channel.kind := TextChannel;
     Channel.category_id := None; Channel.position := id;
     Channel.permissions_synced := false; Channel.overwrites := [] |}.

Definition clash : Guild.t :=
  {| Guild.roles := [everyone];
     Guild.channels :=
       [plain 100 "general"; plain 200 "general"; plain 300 "general (1)"];
     Guild.members := [] |}.

(** Two roles of one name and different permissions, no channel. *)
Definition twins : Guild.t :=
  {| Guild.roles :=
       [{| Role.id := 1; Role.name := "Mod"; Role.permissions := 0 |};
        {| Role.id := 2; Role.name := "Mod"; Role.permissions := 8 |}];
     Guild.channels := [];
     Guild.members := [] |}.

(** The dictionaries of the importer for the sample guild. *)
Definition channels : list (string * Channel.t) :=
  Eval vm_compute in
    match channels_by_name guild with
    | Ok d => d
    | Raise _ => []
    end.

Definition roles : list (string * Role.t) :=
  Eval vm_compute in roles_by_name guild.

(** The state after the rows of an input with a header of three columns
    that names the category and its one overwrite. *)
Definition lobby_rows : list (list string) :=
  [["Lobby"; ""; ""]; ["Lobby"; ""; "Role @everyone"]].

Definition lobby_state : ImportState :=
  Eval vm_compute in
    match first_pass guild channels roles [] lobby_rows with
    | Ok st => st
    | Raise _ => initial_state
    end.

(** The state after the rows of an input that marks [general (1)] synced. *)
Definition synced_rows : list (list string) :=
  [["Lobby"; "general (1)"; "(synced)"]; ["Lobby"; ""; ""];
   ["Lobby"; ""; "Role @everyone"]].

Definition synced_first : ImportState :=
  Eval vm_compute in
    match first_pass guild channels roles [] synced_rows with
    | Ok st => st
    | Raise _ => initial_state
    end.

Definition synced_state : ImportState :=
  Eval vm_compute in
    match second_pass synced_first with
    | Ok st => st
    | Raise _ => initial_state
    end.

(** The state after the rows of an input whose last row marks
    [general (1)] synced, after [general (2)] was touched. *)
Definition skipped_rows : list (list string) :=
  [["Lobby"; "general (2)"; ""]; ["Lobby"; "general (1)"; "(synced)"]].

Definition skipped_state : ImportState :=
  Eval vm_compute in
    match first_pass guild channels roles [] skipped_rows with
    | Ok st => st
    | Raise _ => initial_state
    end.



End Sample.

(** * Proofs *)

(** ** The tweak of an overwrite *)

(** The two permission values [tweak_overwrite] hands to [from_pair]: the
    reset mask clears both sides, the add mask goes to the allow side only
    and the remove mask to the deny side only. *)
Lemma tweak_overwrite_values `{PermissionsClass} overwrite add_mask remove_mask reset_mask :
  tweak_overwrite overwrite add_mask remove_mask reset_mask =
  from_pair (Z.lor (Z.land (allow overwrite) (Z.lnot reset_mask)) add_mask)
            (Z.lor (Z.land (deny overwrite) (Z.lnot reset_mask)) remove_mask).
Proof. reflexivity. Qed.

(** The two examples of the specification: on allow={VIEW}, deny={}, a
    reset of VIEW leaves nothing set, and an added SEND gives
    allow={VIEW,SEND}. *)
Example tweak_reset_view :
  tweak_overwrite (P := Sample.permissions)
    {| allow := Sample.VIEW; deny := 0 |} 0 0 Sample.VIEW
  = {| allow := 0; deny := 0 |}.
Proof. reflexivity. Qed.

Example tweak_add_send :
  tweak_overwrite (P := Sample.permissions)
    {| allow := Sample.VIEW; deny := 0 |} Sample.SEND 0 0
  = {| allow := Z.lor Sample.VIEW Sample.SEND; deny := 0 |}.
Proof. reflexivity. Qed.

(** C2. The tweak does not follow the formula of the specification when a
    flag that is denied is added: on allow={}, deny={VIEW} with add mask
    VIEW, the deny value keeps VIEW (the add mask is not taken out of it),
    both values handed to [from_pair] hold VIEW, and the overwrite comes
    out with VIEW still denied, where the formula gives allow={VIEW},
    deny={}. *)
Theorem tweak_overwrite_add_over_deny :
  let old := {| allow := 0; deny := Sample.VIEW |} in
  tweak_permissions (allow old) Sample.VIEW 0 = Sample.VIEW
  /\ tweak_permissions (deny old) 0 0 = Sample.VIEW
  /\ tweak_overwrite (P := Sample.permissions) old Sample.VIEW 0 0
     = {| allow := 0; deny := Sample.VIEW |}
  /\ spec_tweak (allow old) (deny old) Sample.VIEW 0 0 = (Sample.VIEW, 0).
Proof. repeat split. Qed.

(** ** The messages of the summary *)

Lemma string_length_app (s1 s2 : string) :
  String.length (s1 ++ s2) = (String.length s1 + String.length s2)%nat.
Proof. induction s1 as [|c s1 IH]; simpl; [reflexivity | now rewrite IH]. Qed.

(** The loop cuts the list of notes into runs of whole notes: the first
    message continues [text] with the first run, every later message is
    one run. *)
Lemma send_loop_groups (output : list string) :
  forall text, exists first groups,
    output = first ++ List.concat (map notes_of groups)
    /\ send_loop text output = append_lines text first :: map message_of groups.
Proof.
  induction output as [|out rest IH]; intros text.
  - exists [], []. split; reflexivity.
  - simpl. destruct (2000 <? _)%nat.
    + destruct (IH out) as (first & groups & Hout & Hsend).
      exists [], ((out, first) :: groups). simpl. split.
      * unfold notes_of at 1. simpl. now rewrite Hout.
      * now rewrite Hsend.
    + destruct (IH (text ++ String (ascii_of_nat 10) out)%string)
        as (first & groups & Hout & Hsend).
      exists (out :: first), groups. simpl. split.
      * now rewrite Hout.
      * exact Hsend.
Qed.

Lemma send_loop_bounded (output : list string) :
  forall text,
    (String.length text <= 2000)%nat ->
    Forall (fun note => (String.length note <= 2000)%nat) output ->
    Forall (fun m => (String.length m <= 2000)%nat) (send_loop text output).
Proof.
  induction output as [|out rest IH]; intros text Htext Hall; simpl.
  - constructor; [exact Htext | constructor].
  - inversion Hall as [|? ? Hout Hrest]; subst.
    destruct (2000 <? _)%nat eqn:Hcut.
    + constructor; [exact Htext | now apply IH].
    + apply IH; [|exact Hrest].
      apply Nat.ltb_ge in Hcut.
      rewrite string_length_app. simpl. lia.
Qed.

(** C8, as the code has it. When every note fits in a message (2000
    characters at most), the notes of a non-empty list are sent in one or
    more messages of at most 2000 characters each, and the messages cut
    the list into runs of whole notes: every note is in exactly one
    message, in order, on a line of its own. *)
Theorem send_notes_whole_notes (output : list string) :
  output <> [] ->
  Forall (fun note => (String.length note <= 2000)%nat) output ->
  Forall (fun m => (String.length m <= 2000)%nat) (send_notes output)
  /\ exists first groups,
       output = first ++ List.concat (map notes_of groups)
       /\ send_notes output = append_lines "" first :: map message_of groups.
Proof.
  intros _ Hall. split.
  - apply send_loop_bounded; [simpl; lia | exact Hall].
  - apply send_loop_groups.
Qed.

Lemma send_notes_whole_notes_witness :
  Forall (fun m => (String.length m <= 2000)%nat)
    (send_notes ["Move <#200> to <#10>"; "Sync <#100> with <#10>"])
  /\ exists first groups,
       ["Move <#200> to <#10>"; "Sync <#100> with <#10>"]
       = first ++ List.concat (map notes_of groups)
       /\ send_notes ["Move <#200> to <#10>"; "Sync <#100> with <#10>"]
          = append_lines "" first :: map message_of groups.
Proof.
  apply send_notes_whole_notes.
  - discriminate.
  - repeat constructor; apply Nat.leb_le; reflexivity.
Defined.

(** A note longer than a message is sent as it is: a list of one note of
    2001 characters gives a message of 2001 characters (after an empty
    first message). *)
Lemma send_notes_long_note :
  ~ Forall (fun m => (String.length m <= 2000)%nat)
      (send_notes [string_of_list_ascii (repeat "a"%char 2001)]).
Proof.
  intros H.
  assert (Hin : In (string_of_list_ascii (repeat "a"%char 2001))
                  (send_notes [string_of_list_ascii (repeat "a"%char 2001)])).
  { vm_compute. right. left. reflexivity. }
  rewrite Forall_forall in H. apply H in Hin.
  apply Nat.leb_le in Hin. vm_compute in Hin. discriminate.
Qed.

(** ** Sign columns *)

Lemma foldM_app {A S : Type} (body : S -> A -> Result S) (l1 l2 : list A) (s : S) :
  foldM body (l1 ++ l2) s = bind (foldM body l1 s) (foldM body l2).
Proof.
  revert s. induction l1 as [|a l1 IH]; intros s; simpl; [reflexivity|].
  destruct (body s a); simpl; [apply IH | reflexivity].
Qed.

Lemma combine_min {A B : Type} (l : list A) (l' : list B) :
  combine l l'
  = combine (firstn (Nat.min (List.length l) (List.length l')) l)
            (firstn (Nat.min (List.length l) (List.length l')) l').
Proof.
  revert l'. induction l as [|a l IH]; intros [|b l']; simpl; try reflexivity.
  now rewrite <- IH.
Qed.

Lemma combine_app_r {A B : Type} (l : list A) (l1 l2 : list B) :
  combine l (l1 ++ l2)
  = combine l l1 ++ combine (skipn (List.length l1) l) l2.
Proof.
  revert l. induction l1 as [|b l1 IH]; intros [|a l]; simpl; try reflexivity.
  now rewrite IH.
Qed.

Lemma bind_ignored {A : Type} (m : Result A) (k : A -> Result A) :
  (forall a, k a = Ok a) -> bind m k = m.
Proof. intros Hk. destruct m; simpl; [apply Hk | reflexivity]. Qed.

Lemma role_sign_ignored value acc flag perm sign :
  sign <> "+"%string -> sign <> "-"%string ->
  role_sign value acc (flag, perm, sign) = Ok acc.
Proof.
  intros Hp Hm. unfold role_sign.
  apply String.eqb_neq in Hp, Hm. now rewrite Hp, Hm.
Qed.

Lemma overwrite_sign_ignored allow_value deny_value acc flag perm sign :
  sign <> "+"%string -> sign <> "-"%string -> sign <> "/"%string ->
  overwrite_sign allow_value deny_value acc (flag, perm, sign) = Ok acc.
Proof.
  intros Hp Hm Hs. unfold overwrite_sign.
  apply String.eqb_neq in Hp, Hm, Hs. now rewrite Hp, Hm, Hs.
Qed.

Lemma foldM_ignored {A S : Type} (body : S -> A -> Result S) (l : list A) :
  (forall s a, In a l -> body s a = Ok s) ->
  forall s, foldM body l s = Ok s.
Proof.
  induction l as [|a l IH]; intros Hbody s; simpl; [reflexivity|].
  rewrite Hbody by now left. simpl. apply IH.
  intros s' a' Hin. apply Hbody. now right.
Qed.

(** A flag that has a [.flag] never makes the body of the loops raise. *)
Lemma role_sign_ok value acc f perm sign :
  exists acc', role_sign value acc (FlagAttr f, perm, sign) = Ok acc'.
Proof.
  unfold role_sign. destruct acc as [[changes add_mask] remove_mask].
  destruct (sign =? "+")%string; simpl;
    [destruct (negb (truthy (Z.land value f))); simpl|];
    (destruct (sign =? "-")%string; simpl;
     [destruct (truthy (Z.land value f))|]); eexists; reflexivity.
Qed.

Lemma overwrite_sign_ok allow_value deny_value acc f perm sign :
  exists acc',
    overwrite_sign allow_value deny_value acc (FlagAttr f, perm, sign) = Ok acc'.
Proof.
  unfold overwrite_sign.
  destruct acc as [[[changes add_mask] remove_mask] reset_mask].
  destruct (sign =? "+")%string; simpl;
    [destruct (negb (truthy (Z.land allow_value f))); simpl|];
    (destruct (sign =? "-")%string; simpl;
     [destruct (negb (truthy (Z.land deny_value f))); simpl|]);
    (destruct (sign =? "/")%string; simpl;
     [destruct (truthy (Z.land allow_value f) || truthy (Z.land deny_value f))|]);
    eexists; reflexivity.
Qed.

Lemma foldM_flags_ok {S : Type}
  (body : S -> PermAttr * string * string -> Result S)
  (flags : list (PermAttr * string)) :
  (forall s f perm sign, exists s', body s (FlagAttr f, perm, sign) = Ok s') ->
  Forall has_flag_attr flags ->
  forall signs s, exists s', foldM body (combine flags signs) s = Ok s'.
Proof.
  intros Hbody Hflags. induction Hflags as [|[a perm] flags [f Hf] _ IH];
    intros signs s.
  - exists s. reflexivity.
  - destruct signs as [|sign signs]; [exists s; reflexivity|].
    simpl in Hf. subst a. simpl.
    destruct (Hbody s f perm sign) as [s' ->]. simpl. apply IH.
Qed.

(** C9. The symbols of a row are matched to the flags of the header by
    position, up to the shorter of the two lists; a row with fewer symbols
    than flags raises nothing and gives what the row padded with ignored
    symbols gives (the surplus flags do not change); a symbol other than
    [+], [-] (and [/] on an overwrite row) changes nothing. *)
Theorem sign_columns_positional
  (flags : list (PermAttr * string)) (signs : list string) :
  let n := Nat.min (List.length flags) (List.length signs) in
  (forall value,
      role_changes value flags signs
      = role_changes value (firstn n flags) (firstn n signs))
  /\ (forall allow_value deny_value,
      overwrite_changes allow_value deny_value flags signs
      = overwrite_changes allow_value deny_value
          (firstn n flags) (firstn n signs))
  /\ (Forall has_flag_attr flags ->
      (forall value, exists r, role_changes value flags signs = Ok r)
      /\ (forall allow_value deny_value,
            exists r,
              overwrite_changes allow_value deny_value flags signs = Ok r))
  /\ (forall pad value,
      Forall (fun s => s <> "+"%string /\ s <> "-"%string) pad ->
      role_changes value flags (signs ++ pad) = role_changes value flags signs)
  /\ (forall pad allow_value deny_value,
      Forall (fun s => s <> "+"%string /\ s <> "-"%string /\ s <> "/"%string)
        pad ->
      overwrite_changes allow_value deny_value flags (signs ++ pad)
      = overwrite_changes allow_value deny_value flags signs)
  /\ (forall value acc flag perm sign,
      sign <> "+"%string -> sign <> "-"%string ->
      role_sign value acc (flag, perm, sign) = Ok acc)
  /\ (forall allow_value deny_value acc flag perm sign,
      sign <> "+"%string -> sign <> "-"%string -> sign <> "/"%string ->
      overwrite_sign allow_value deny_value acc (flag, perm, sign) = Ok acc).
Proof.
  intros n. repeat split.
  - intros value. unfold role_changes. now rewrite (combine_min flags signs).
  - intros allow_value deny_value. unfold overwrite_changes.
    now rewrite (combine_min flags signs).
  - intros value. apply foldM_flags_ok; [|assumption].
    intros. apply role_sign_ok.
  - intros allow_value deny_value. apply foldM_flags_ok; [|assumption].
    intros. apply overwrite_sign_ok.
  - intros pad value Hpad. unfold role_changes.
    rewrite combine_app_r, foldM_app. apply bind_ignored.
    intros acc. apply foldM_ignored. intros s [[flag perm] sign] Hin.
    apply in_combine_r in Hin. rewrite Forall_forall in Hpad.
    destruct (Hpad _ Hin). now apply role_sign_ignored.
  - intros pad allow_value deny_value Hpad. unfold overwrite_changes.
    rewrite combine_app_r, foldM_app. apply bind_ignored.
    intros acc. apply foldM_ignored. intros s [[flag perm] sign] Hin.
    apply in_combine_r in Hin. rewrite Forall_forall in Hpad.
    destruct (Hpad _ Hin) as (? & ? & ?). now apply overwrite_sign_ignored.
  - intros. now apply role_sign_ignored.
  - intros. now apply overwrite_sign_ignored.
Qed.

Lemma sign_columns_positional_witness :
  role_sign 8 ([], 0, 0) (OtherAttr, "all", "x") = Ok ([], 0, 0)
  /\ overwrite_sign 0 8 ([], 0, 0, 0) (FlagAttr 8, "administrator", "")
     = Ok ([], 0, 0, 0)
  /\ role_changes 8 [(FlagAttr 1, "create_instant_invite");
                     (FlagAttr 2, "kick_members")] (["+"] ++ ["?"])
     = role_changes 8 [(FlagAttr 1, "create_instant_invite");
                       (FlagAttr 2, "kick_members")] ["+"].
Proof.
  pose proof (sign_columns_positional
                [(FlagAttr 1, "create_instant_invite");
                 (FlagAttr 2, "kick_members")] ["+"%string])
    as (_ & _ & _ & Hpad & _ & Hrole & Hoverwrite).
  split; [|split].
  - apply Hrole; discriminate.
  - apply Hoverwrite; discriminate.
  - apply Hpad. constructor; [split; discriminate | constructor].
Defined.

(** ** The target of an overwrite row *)

Lemma take_token_app (token rest : string) :
  no_space token ->
  (rest = ""%string
   \/ exists c r, rest = String c r /\ PyStr.isspace c = true) ->
  PyStr.take_token (token ++ rest) = token.
Proof.
  intros Htoken Hrest. induction token as [|c token IH]; simpl.
  - destruct Hrest as [-> | (c & r & -> & Hc)]; simpl; [reflexivity|].
    now rewrite Hc.
  - unfold no_space in Htoken. simpl in Htoken.
    inversion Htoken as [|? ? Hc Htail]; subst.
    rewrite Hc. f_equal. now apply IH.
Qed.

Lemma split_first_token (token rest : string) :
  token <> ""%string -> no_space token ->
  (rest = ""%string
   \/ exists c r, rest = String c r /\ PyStr.isspace c = true) ->
  PyStr.split_first (token ++ rest) = Ok token.
Proof.
  intros Hne Htoken Hrest. unfold PyStr.split_first.
  destruct token as [|c token]; [congruence|].
  pose proof Htoken as Hc. unfold no_space in Hc. simpl in Hc.
  inversion Hc as [|? ? Hc' _]; subst.
  change (PyStr.lstrip (String c token ++ rest))
    with (if PyStr.isspace c then PyStr.lstrip (token ++ rest)
          else String c (token ++ rest)).
  rewrite Hc'.
  change (String c (token ++ rest)) with (String c token ++ rest)%string.
  now rewrite take_token_app.
Qed.

Lemma get_member_id (g : Guild.t) (user_id : Z) (member : Member.t) :
  Guild.get_member g user_id = Some member ->
  In member (Guild.members g) /\ Member.id member = user_id.
Proof.
  unfold Guild.get_member. intros H. apply find_some in H.
  destruct H as [Hin Hid]. split; [exact Hin | now apply Z.eqb_eq].
Qed.

(** C10. Of a target ["User <token><rest>"], where [rest] is empty or
    starts with white space, only [token] is used: it is read as an
    integer ([ExpectedUserID] when it is none) and looked up among the
    members ([NoSuchMember] when there is none); the text after it plays
    no part, and a target that resolves is the member with that
    identifier, whatever name the row gives. *)
Theorem user_target_first_token (g : Guild.t) (roles : list (string * Role.t))
  (line : nat) (token rest : string) :
  token <> ""%string -> no_space token ->
  (rest = ""%string
   \/ exists c r, rest = String c r /\ PyStr.isspace c = true) ->
  resolve_target g roles line ("User " ++ token ++ rest)
  = match PyStr.int token with
    | None => Raise (UserError (ExpectedUserID line))
    | Some user_id =>
        match Guild.get_member g user_id with
        | None => Raise (UserError (NoSuchMember line user_id))
        | Some member => Ok (Target.OfMember member)
        end
    end
  /\ forall target,
       resolve_target g roles line ("User " ++ token ++ rest) = Ok target ->
       exists member user_id,
         target = Target.OfMember member
         /\ PyStr.int token = Some user_id
         /\ In member (Guild.members g)
         /\ Member.id member = user_id.
Proof.
  intros Hne Htoken Hrest.
  assert (Heq : resolve_target g roles line ("User " ++ token ++ rest)
                = match PyStr.int token with
                  | None => Raise (UserError (ExpectedUserID line))
                  | Some user_id =>
                      match Guild.get_member g user_id with
                      | None => Raise (UserError (NoSuchMember line user_id))
                      | Some member => Ok (Target.OfMember member)
                      end
                  end).
  { unfold resolve_target.
    change (PyStr.startswith ("User " ++ token ++ rest) "Role ") with false.
    change (PyStr.startswith ("User " ++ token ++ rest) "User ") with true.
    change (PyStr.removeprefix ("User " ++ token ++ rest) "User ")
      with (token ++ rest)%string.
    cbv iota. rewrite split_first_token by assumption. reflexivity. }
  split; [exact Heq|].
  intros target Hok. rewrite Heq in Hok.
  destruct (PyStr.int token) as [user_id|]; [|discriminate].
  destruct (Guild.get_member g user_id) as [member|] eqn:Hm; [|discriminate].
  injection Hok as <-. apply get_member_id in Hm. destruct Hm.
  exists member, user_id. auto.
Qed.

(** A row that gives member 42 another name than the guild does. *)
Lemma user_target_first_token_witness :
  resolve_target Sample.guild (roles_by_name Sample.guild) 5
    ("User " ++ "42" ++ " bob")
  = Ok (Target.OfMember Sample.alice).
Proof.
  refine (eq_trans
            (proj1 (user_target_first_token Sample.guild
                      (roles_by_name Sample.guild) 5 (token := "42")
                      (rest := " bob") _ _ _)) _).
  - discriminate.
  - repeat constructor.
  - right. exists " "%char, "bob"%string. split; reflexivity.
  - reflexivity.
Defined.

(** ** Sorting *)

Section SortedFacts.
Variables A K : Type.
Variable leb : K -> K -> bool.
Variable key : A -> K.

Lemma insert_sorted_perm (x : A) (l : list A) :
  Permutation (insert_sorted leb key x l) (x :: l).
Proof.
  induction l as [|y l IH]; simpl; [reflexivity|].
  destruct (leb (key x) (key y)); [reflexivity|].
  rewrite IH. apply perm_swap.
Qed.

Lemma sorted_perm (l : list A) : Permutation (sorted leb key l) l.
Proof.
  induction l as [|x l IH]; simpl; [constructor|].
  rewrite insert_sorted_perm. now constructor.
Qed.

Lemma sorted_in (l : list A) (x : A) : In x (sorted leb key l) <-> In x l.
Proof.
  split; apply Permutation_in; [|symmetry]; apply sorted_perm.
Qed.

Hypothesis leb_total : forall a b, leb a b = true \/ leb b a = true.
Hypothesis leb_trans :
  forall a b c, leb a b = true -> leb b c = true -> leb a c = true.

Lemma insert_sorted_sorted (x : A) (l : list A) :
  StronglySorted (key_le leb key) l ->
  StronglySorted (key_le leb key) (insert_sorted leb key x l).
Proof.
  induction 1 as [|y l Hs IH Hy]; simpl.
  - repeat constructor.
  - destruct (leb (key x) (key y)) eqn:Hxy.
    + constructor; [now constructor|].
      constructor; [exact Hxy|].
      rewrite Forall_forall in Hy |- *. intros z Hz.
      unfold key_le. eapply leb_trans; [exact Hxy | now apply Hy].
    + constructor; [exact IH|].
      rewrite Forall_forall in Hy |- *. intros z Hz.
      apply (Permutation_in _ (insert_sorted_perm x l)) in Hz.
      destruct Hz as [<- | Hz]; [|now apply Hy].
      unfold key_le. destruct (leb_total (key x) (key y)); congruence.
Qed.

Lemma sorted_sorted (l : list A) :
  StronglySorted (key_le leb key) (sorted leb key l).
Proof.
  induction l as [|x l IH]; simpl; [constructor|].
  now apply insert_sorted_sorted.
Qed.

End SortedFacts.

Lemma Zleb_total (a b : Z) : (a <=? b) = true \/ (b <=? a) = true.
Proof. destruct (Z.leb_spec a b); [now left | right; apply Z.leb_le; lia]. Qed.

Lemma Zleb_trans (a b c : Z) :
  (a <=? b) = true -> (b <=? c) = true -> (a <=? c) = true.
Proof. rewrite !Z.leb_le. lia. Qed.

Lemma filter_length_perm {A : Type} (p : A -> bool) (l l' : list A) :
  Permutation l l' ->
  List.length (filter p l) = List.length (filter p l').
Proof.
  induction 1 as [|x l l' _ IH|x y l|l l' l'' _ IH1 _ IH2]; simpl.
  - reflexivity.
  - destruct (p x); simpl; congruence.
  - destruct (p x), (p y); reflexivity.
  - congruence.
Qed.

Lemma filter_none {A : Type} (p : A -> bool) (l : list A) :
  (forall x, In x l -> p x = false) -> filter p l = [].
Proof.
  induction l as [|y l IH]; intros Hp; simpl; [reflexivity|].
  rewrite (Hp y) by now left. apply IH. intros x Hx. apply Hp. now right.
Qed.

Lemma index_of_found {A : Type} (eqb : A -> A -> bool) (x : A) (l : list A) :
  (forall a, eqb a a = true) -> In x l ->
  exists i, index_of eqb x l = Some i.
Proof.
  intros Hrefl. induction l as [|y l IH]; intros Hin; [destruct Hin|].
  simpl. destruct (eqb y x) eqn:Hyx; [now exists 0|].
  destruct Hin as [-> | Hin]; [rewrite Hrefl in Hyx; discriminate|].
  destruct (IH Hin) as [i ->]. now exists (Z.succ i).
Qed.

(** In a list sorted by identifier, without two equal identifiers, the
    index of a channel is the number of channels with a smaller one. *)
Lemma index_of_sorted_channels (s : list Channel.t) (x : Channel.t) :
  StronglySorted (key_le Z.leb Channel.id) s ->
  NoDup (map Channel.id s) -> In x s ->
  index_of Channel.eqb x s
  = Some (Z.of_nat (List.length
                      (filter (fun y => Channel.id y <? Channel.id x) s))).
Proof.
  induction 1 as [|y s Hs IH Hy]; intros Hnd Hin; [destruct Hin|].
  simpl in Hnd. inversion Hnd as [|? ? Hnotin Hnd']; subst.
  rewrite Forall_forall in Hy. simpl index_of. unfold Channel.eqb at 1.
  destruct (Channel.id y =? Channel.id x) eqn:Hyx.
  - apply Z.eqb_eq in Hyx. simpl. rewrite Hyx, Z.ltb_irrefl.
    replace (filter _ s) with (@nil Channel.t); [reflexivity|].
    symmetry. apply filter_none. intros z Hz. apply Z.ltb_ge.
    specialize (Hy z Hz). unfold key_le in Hy. apply Z.leb_le in Hy. lia.
  - apply Z.eqb_neq in Hyx.
    destruct Hin as [-> | Hin]; [congruence|].
    rewrite (IH Hnd' Hin). simpl.
    specialize (Hy x Hin). unfold key_le in Hy. apply Z.leb_le in Hy.
    replace (Channel.id y <? Channel.id x) with true
      by (symmetry; apply Z.ltb_lt; lia).
    simpl. f_equal. lia.
Qed.

(** ** Dictionaries *)

Lemma string_keys : KeyEquivalence String.eqb.
Proof.
  split.
  - apply String.eqb_refl.
  - apply String.eqb_sym.
  - intros a b c Hab Hbc. apply String.eqb_eq in Hab, Hbc.
    subst. apply String.eqb_refl.
Qed.

Lemma channel_keys : KeyEquivalence Channel.eqb.
Proof.
  unfold Channel.eqb. split.
  - intros a. apply Z.eqb_refl.
  - intros a b. apply Z.eqb_sym.
  - intros a b c Hab Hbc. apply Z.eqb_eq in Hab, Hbc.
    apply Z.eqb_eq. congruence.
Qed.

Lemma target_keys : KeyEquivalence Target.eqb.
Proof.
  split.
  - intros [r|m]; apply Z.eqb_refl.
  - intros [r|m] [r'|m']; simpl; try reflexivity; apply Z.eqb_sym.
  - intros [r|m] [r'|m'] [r''|m'']; simpl; try discriminate;
      unfold Role.eqb, Member.eqb; rewrite !Z.eqb_eq; congruence.
Qed.

Section DictFacts.
Variables K V : Type.
Variable eqb : K -> K -> bool.
Hypothesis keys_ok : KeyEquivalence eqb.

Lemma eqb_false_r (a b c : K) :
  eqb b c = true -> eqb a b = false -> eqb a c = false.
Proof.
  intros Hbc Hab. destruct (eqb a c) eqn:Hac; [|reflexivity].
  rewrite (key_sym keys_ok) in Hbc.
  rewrite (key_trans keys_ok _ _ _ Hac Hbc) in Hab. discriminate.
Qed.

Lemma eqb_false_l (a b c : K) :
  eqb a b = true -> eqb b c = false -> eqb a c = false.
Proof.
  intros Hab Hbc. destruct (eqb a c) eqn:Hac; [|reflexivity].
  rewrite (key_sym keys_ok) in Hab.
  rewrite (key_trans keys_ok _ _ _ Hab Hac) in Hbc. discriminate.
Qed.

Lemma get_set_eq (d : list (K * V)) (k k' : K) (v : V) :
  eqb k k' = true -> PyDict.get eqb (PyDict.set eqb d k v) k' = Some v.
Proof.
  intros Hk. induction d as [|[k0 v0] d IH]; simpl.
  - now rewrite Hk.
  - destruct (eqb k0 k) eqn:H0; simpl.
    + now rewrite (key_trans keys_ok _ _ _ H0 Hk).
    + rewrite (eqb_false_r Hk H0). exact IH.
Qed.

Lemma get_set_neq (d : list (K * V)) (k k' : K) (v : V) :
  eqb k k' = false ->
  PyDict.get eqb (PyDict.set eqb d k v) k' = PyDict.get eqb d k'.
Proof.
  intros Hk. induction d as [|[k0 v0] d IH]; simpl.
  - now rewrite Hk.
  - destruct (eqb k0 k) eqn:H0; simpl.
    + now rewrite (eqb_false_l H0 Hk).
    + destruct (eqb k0 k'); [reflexivity | exact IH].
Qed.

Lemma get_app (d d' : list (K * V)) (k : K) :
  PyDict.get eqb (d ++ d') k
  = match PyDict.get eqb d k with
    | Some v => Some v
    | None => PyDict.get eqb d' k
    end.
Proof.
  induction d as [|[k0 v0] d IH]; simpl; [reflexivity|].
  destruct (eqb k0 k); [reflexivity | exact IH].
Qed.

Lemma get_in (d : list (K * V)) (k : K) (v : V) :
  PyDict.get eqb d k = Some v -> exists k0, In (k0, v) d /\ eqb k0 k = true.
Proof.
  induction d as [|[k0 v0] d IH]; simpl; [discriminate|].
  destruct (eqb k0 k) eqn:H0.
  - intros [= ->]. exists k0. auto.
  - intros H. destruct (IH H) as (k1 & Hin & Hk1). exists k1. auto.
Qed.

Lemma keys_set (d : list (K * V)) (k : K) (v : V) :
  PyDict.keys (PyDict.set eqb d k v)
  = if PyDict.contains eqb d k then PyDict.keys d else PyDict.keys d ++ [k].
Proof.
  unfold PyDict.contains, PyDict.keys.
  induction d as [|[k0 v0] d IH]; simpl; [reflexivity|].
  destruct (eqb k0 k); simpl; [reflexivity|].
  rewrite IH. now destruct (PyDict.get eqb d k).
Qed.

(** A later item does not touch the value of another key. *)
Lemma fold_set_other (items : list (K * V)) (k : K) :
  (forall kv, In kv items -> eqb (fst kv) k = false) ->
  forall d,
    PyDict.get eqb
      (fold_left (fun d kv => PyDict.set eqb d (fst kv) (snd kv)) items d) k
    = PyDict.get eqb d k.
Proof.
  induction items as [|[k0 v0] items IH]; intros Hother d; simpl;
    [reflexivity|].
  rewrite IH by (intros kv Hin; apply Hother; now right).
  apply get_set_neq. apply (Hother (k0, v0)). now left.
Qed.

(** The value of a key in a comprehension is the value of its last item. *)
Lemma of_items_last (before after : list (K * V)) (k : K) (v : V) :
  (forall kv, In kv after -> eqb (fst kv) k = false) ->
  PyDict.get eqb (PyDict.of_items eqb (before ++ (k, v) :: after)) k = Some v.
Proof.
  intros Hafter. unfold PyDict.of_items.
  rewrite fold_left_app. simpl.
  rewrite fold_set_other by exact Hafter.
  apply get_set_eq. apply (key_refl keys_ok).
Qed.

End DictFacts.

(** ** Labels of channels *)

Lemma mapM_ok {A B : Type} (f : A -> Result B) (h : A -> B) (l : list A) :
  (forall a, In a l -> f a = Ok (h a)) -> mapM f l = Ok (map h l).
Proof.
  induction l as [|a l IH]; intros Hf; simpl; [reflexivity|].
  rewrite (Hf a) by now left. simpl.
  rewrite IH by (intros b Hb; apply Hf; now right). reflexivity.
Qed.

Lemma NoDup_map_filter {B A : Type} (keep : A -> bool) (key : A -> B) :
  forall l : list A,
    NoDup (map key l) -> NoDup (map key (filter keep l)).
Proof.
  intros l. induction l as [|a l IH]; simpl; intros Hnd; [constructor|].
  inversion Hnd as [|? ? Hnotin Hnd']; subst.
  destruct (keep a); simpl; [|now apply IH].
  constructor; [|now apply IH].
  intros Hin. apply Hnotin. apply in_map_iff in Hin.
  destruct Hin as (b & Hb & Hin). apply filter_In in Hin.
  apply in_map_iff. exists b. tauto.
Qed.

Lemma in_namesakes (g : Guild.t) (c : Channel.t) :
  In c (Guild.channels g) -> In c (namesakes g c).
Proof.
  intros Hin. apply filter_In. split; [exact Hin | apply String.eqb_refl].
Qed.

(** [disambiguated_name] never raises on a channel of the guild. *)
Lemma disambiguated_name_total (g : Guild.t) (c : Channel.t) :
  In c (Guild.channels g) -> exists n, disambiguated_name g c = Ok n.
Proof.
  intros Hin. unfold disambiguated_name. fold (namesakes g c).
  destruct (List.length (namesakes g c) <? 2)%nat; [eexists; reflexivity|].
  destruct (index_of_found Channel.eqb c
              (sorted Z.leb Channel.id (namesakes g c))) as [i ->].
  - intros a. apply Z.eqb_refl.
  - apply sorted_in. now apply in_namesakes.
  - eexists; reflexivity.
Qed.

(** With distinct identifiers, [disambiguated_name] is the label of the
    specification. *)
Lemma disambiguated_name_label (g : Guild.t) (c : Channel.t) :
  NoDup (map Channel.id (Guild.channels g)) ->
  In c (Guild.channels g) ->
  disambiguated_name g c = Ok (label g c).
Proof.
  intros Hnd Hin. unfold disambiguated_name, label. fold (namesakes g c).
  destruct (List.length (namesakes g c) <? 2)%nat; [reflexivity|].
  rewrite index_of_sorted_channels.
  - unfold occurrence.
    rewrite (filter_length_perm _ (sorted_perm Z.leb Channel.id (namesakes g c))).
    reflexivity.
  - apply sorted_sorted; [apply Zleb_total | apply Zleb_trans].
  - apply (Permutation_NoDup
             (Permutation_map Channel.id
                (Permutation_sym (sorted_perm Z.leb Channel.id (namesakes g c))))).
    now apply NoDup_map_filter.
  - apply sorted_in. now apply in_namesakes.
Qed.

Lemma channels_by_name_labels (g : Guild.t) :
  NoDup (map Channel.id (Guild.channels g)) ->
  channels_by_name g
  = Ok (PyDict.of_items String.eqb
          (map (fun c => (label g c, c)) (Guild.channels g))).
Proof.
  intros Hnd. unfold channels_by_name.
  rewrite (mapM_ok _ (fun c => (label g c, c))); [reflexivity|].
  intros c Hin. now rewrite disambiguated_name_label.
Qed.

Lemma lookup_label (g : Guild.t) (c : Channel.t) :
  NoDup (map (label g) (Guild.channels g)) ->
  In c (Guild.channels g) ->
  PyDict.get String.eqb
    (PyDict.of_items String.eqb
       (map (fun c => (label g c, c)) (Guild.channels g)))
    (label g c)
  = Some c.
Proof.
  intros Hnd Hin. apply in_split in Hin. destruct Hin as (l1 & l2 & Hl).
  rewrite Hl in Hnd |- *. rewrite map_app in Hnd |- *. simpl in Hnd |- *.
  apply of_items_last; [apply string_keys|].
  intros [n c'] Hin. simpl. apply String.eqb_neq. intros ->.
  apply NoDup_remove_2 in Hnd. apply Hnd. apply in_or_app. right.
  apply in_map_iff in Hin. destruct Hin as (c'' & [= Hn _] & Hin).
  rewrite <- Hn. now apply in_map.
Qed.

(** C6, as the code has it. In a guild whose channels have distinct
    identifiers, the name under which a channel is exported and looked up
    is its label: the bare name when no other channel has that name, the
    name with the 1-based occurrence index by identifier otherwise. When
    the labels of the guild are pairwise distinct, the dictionary of the
    importer sends every label back to its channel. *)
Theorem disambiguation_round_trip (g : Guild.t) :
  NoDup (map Channel.id (Guild.channels g)) ->
  (forall c, In c (Guild.channels g) ->
     disambiguated_name g c = Ok (label g c))
  /\ (NoDup (map (label g) (Guild.channels g)) ->
      exists channels,
        channels_by_name g = Ok channels
        /\ forall c, In c (Guild.channels g) ->
             PyDict.get String.eqb channels (label g c) = Some c).
Proof.
  intros Hnd. split.
  - intros c Hin. now apply disambiguated_name_label.
  - intros Hlabels. eexists. split; [now apply channels_by_name_labels|].
    intros c Hin. now apply lookup_label.
Qed.

Ltac nodup_concrete :=
  repeat (constructor; [simpl; intuition discriminate|]); constructor.

Lemma disambiguation_round_trip_witness :
  (forall c, In c (Guild.channels Sample.guild) ->
     disambiguated_name Sample.guild c = Ok (label Sample.guild c))
  /\ exists channels,
       channels_by_name Sample.guild = Ok channels
       /\ forall c, In c (Guild.channels Sample.guild) ->
            PyDict.get String.eqb channels (label Sample.guild c) = Some c.
Proof.
  destruct (disambiguation_round_trip Sample.guild)
    as [Hlabel Hlookup].
  - vm_compute. nodup_concrete.
  - split; [exact Hlabel|]. apply Hlookup. vm_compute. nodup_concrete.
Defined.

(** The example of the specification: of two channels named [general]
    with identifiers 100 and 200, the first is labelled [general (1)] and
    the second [general (2)], and each label resolves to its channel. *)
Example general_labels :
  disambiguated_name Sample.guild (Sample.general 100 true) = Ok "general (1)"%string
  /\ disambiguated_name Sample.guild (Sample.general 200 false) = Ok "general (2)"%string
  /\ disambiguated_name Sample.guild Sample.lobby = Ok "Lobby"%string
  /\ exists channels,
       channels_by_name Sample.guild = Ok channels
       /\ PyDict.get String.eqb channels "general (1)" = Some (Sample.general 100 true)
       /\ PyDict.get String.eqb channels "general (2)" = Some (Sample.general 200 false).
Proof.
  repeat split. eexists. repeat split.
Qed.

(** A channel whose own name is the label of another: the first [general]
    is exported as [general (1)], and the importer resolves that name to
    the channel with identifier 300. *)
Lemma label_clash :
  disambiguated_name Sample.clash (Sample.plain 100 "general")
  = Ok "general (1)"%string
  /\ exists channels,
       channels_by_name Sample.clash = Ok channels
       /\ PyDict.get String.eqb channels "general (1)"
          = Some (Sample.plain 300 "general (1)").
Proof.
  split; [reflexivity|]. eexists. split; reflexivity.
Qed.

(** ** The order of the overwrite rows *)

Lemma index_of_nonneg {A : Type} (eqb : A -> A -> bool) (x : A) (l : list A) :
  forall i, index_of eqb x l = Some i -> 0 <= i.
Proof.
  induction l as [|y l IH]; simpl; intros i; [discriminate|].
  destruct (eqb y x); [intros [= <-]; lia|].
  destruct (index_of eqb x l) as [j|]; [|discriminate].
  intros [= <-]. specialize (IH j eq_refl). lia.
Qed.

Lemma overwrite_sort_key_listed (g : Guild.t) (pair : Target.t * PermissionOverwrite) :
  (listed g pair = true -> 0 <= overwrite_sort_key g pair)
  /\ (listed g pair = false -> overwrite_sort_key g pair = -1).
Proof.
  unfold listed, overwrite_sort_key. destruct (fst pair) as [r|m].
  - destruct (index_of Role.eqb r (Guild.roles g)) as [i|] eqn:Hi.
    + split; [intros _; now apply (index_of_nonneg _ _ _ Hi) | discriminate].
    + split; [discriminate | reflexivity].
  - split; [discriminate | reflexivity].
Qed.

Lemma strongly_sorted_before {A : Type} (R : A -> A -> Prop)
  (before : list A) (x : A) (after : list A) :
  StronglySorted R (before ++ x :: after) -> Forall (fun y => R y x) before.
Proof.
  induction before as [|y before IH]; simpl; intros Hs; [constructor|].
  apply StronglySorted_inv in Hs. destruct Hs as [Hs Hy].
  constructor; [|now apply IH].
  rewrite Forall_forall in Hy. apply Hy. apply in_or_app. right. now left.
Qed.

Lemma strongly_sorted_weaken {A : Type} (R R' : A -> A -> Prop) (l : list A) :
  (forall a b, R a b -> R' a b) -> StronglySorted R l -> StronglySorted R' l.
Proof.
  intros Himpl. induction 1 as [|x l Hs IH Hx]; constructor; [exact IH|].
  eapply Forall_impl; [|exact Hx]. intros b. apply Himpl.
Qed.

(** C4, as the code has it. The overwrite rows of a channel that is not
    synced follow the header row of the channel in ascending order of
    their sort key; the key of a role is its index in the role list of the
    guild, the key of a member and of a role that is not in the list is
    -1, so that these come first: nothing that is in the role list comes
    before a member or a role that is not. *)
Theorem overwrite_rows_order `{PermissionsClass} (g : Guild.t)
  (channel : Channel.t) (rows : list (list string)) :
  export_channel g channel = Ok rows ->
  Channel.permissions_synced channel = false ->
  exists header targets,
    rows = (header ++ [""%string]) :: map (overwrite_row header) targets
    /\ Permutation targets (Channel.overwrites channel)
    /\ StronglySorted
         (fun a b => overwrite_sort_key g a <= overwrite_sort_key g b) targets
    /\ (forall pair r, fst pair = Target.OfRole r ->
          overwrite_sort_key g pair
          = match index_of Role.eqb r (Guild.roles g) with
            | Some i => i
            | None => -1
            end)
    /\ (forall pair m, fst pair = Target.OfMember m ->
          overwrite_sort_key g pair = -1)
    /\ (forall before x after,
          targets = before ++ x :: after ->
          listed g x = false ->
          Forall (fun y => listed g y = false) before).
Proof.
  intros Hexport Hsynced. unfold export_channel in Hexport.
  destruct (if Channel.is_category channel then _ else _) as [header|e];
    [|discriminate].
  simpl in Hexport. rewrite Hsynced in Hexport. injection Hexport as <-.
  exists header, (sorted Z.leb (overwrite_sort_key g) (Channel.overwrites channel)).
  assert (Hsorted :
            StronglySorted
              (fun a b => overwrite_sort_key g a <= overwrite_sort_key g b)
              (sorted Z.leb (overwrite_sort_key g) (Channel.overwrites channel))).
  { eapply strongly_sorted_weaken;
      [|apply sorted_sorted; [apply Zleb_total | apply Zleb_trans]].
    intros a b. unfold key_le. apply Z.leb_le. }
  repeat split.
  - apply sorted_perm.
  - exact Hsorted.
  - intros pair r Hr. unfold overwrite_sort_key. now rewrite Hr.
  - intros pair m Hm. unfold overwrite_sort_key. now rewrite Hm.
  - intros before x after Htargets Hx. rewrite Htargets in Hsorted.
    apply strongly_sorted_before in Hsorted.
    apply (proj2 (overwrite_sort_key_listed g x)) in Hx.
    eapply Forall_impl; [|exact Hsorted]. intros y Hy. simpl in Hy.
    destruct (listed g y) eqn:Hl; [|reflexivity].
    apply (proj1 (overwrite_sort_key_listed g y)) in Hl. lia.
Qed.

Lemma overwrite_rows_order_witness :
  exists header targets,
    [["Lobby"; "general (2)"; ""];
     ["Lobby"; "general (2)"; "User 42 alice";
      "/"; "/"; "/"; "/"; "/"; "/"; "/"; "/"; "/"; "/"; "/"; "-"];
     ["Lobby"; "general (2)"; "Role Admin";
      "/"; "/"; "/"; "/"; "/"; "/"; "/"; "/"; "/"; "/"; "/"; "+"]]%string
    = (header ++ [""%string])
      :: map (overwrite_row (H := Sample.permissions) header) targets
    /\ Permutation targets (Channel.overwrites (Sample.general 200 false))
    /\ StronglySorted
         (fun a b => overwrite_sort_key Sample.guild a
                     <= overwrite_sort_key Sample.guild b) targets
    /\ (forall pair r, fst pair = Target.OfRole r ->
          overwrite_sort_key Sample.guild pair
          = match index_of Role.eqb r (Guild.roles Sample.guild) with
            | Some i => i
            | None => -1
            end)
    /\ (forall pair m, fst pair = Target.OfMember m ->
          overwrite_sort_key Sample.guild pair = -1)
    /\ (forall before x after,
          targets = before ++ x :: after ->
          listed Sample.guild x = false ->
          Forall (fun y => listed Sample.guild y = false) before).
Proof.
  apply (overwrite_rows_order (H := Sample.permissions) Sample.guild
           (Sample.general 200 false)); reflexivity.
Defined.

(** In the channel [general (2)] of the sample guild the row of the member
    comes before the row of the role: a role comes after a member. *)
Lemma member_sorts_first :
  sorted Z.leb (overwrite_sort_key Sample.guild)
    (Channel.overwrites (Sample.general 200 false))
  = [(Target.OfMember Sample.alice, {| allow := 0; deny := Sample.SEND |});
     (Target.OfRole Sample.admin, {| allow := Sample.SEND; deny := 0 |})]
  /\ ~ members_last
         (sorted Z.leb (overwrite_sort_key Sample.guild)
            (Channel.overwrites (Sample.general 200 false))).
Proof.
  split; [reflexivity|].
  intros Hlast.
  specialize (Hlast []
                (Target.OfMember Sample.alice, {| allow := 0; deny := Sample.SEND |})
                [(Target.OfRole Sample.admin, {| allow := Sample.SEND; deny := 0 |})]
                eq_refl eq_refl).
  inversion Hlast as [|? ? Hrole _]. discriminate.
Qed.

(** ** The header *)

Lemma mapM_total {A B : Type} (f : A -> Result B) (l : list A) :
  (forall a, In a l -> exists b, f a = Ok b) -> exists bs, mapM f l = Ok bs.
Proof.
  induction l as [|a l IH]; intros Hf; simpl; [eexists; reflexivity|].
  destruct (Hf a) as [b ->]; [now left|]. simpl.
  destruct IH as [bs ->]; [intros x Hx; apply Hf; now right|].
  eexists; reflexivity.
Qed.

(** Building the dictionary of the channels never raises. *)
Lemma channels_by_name_total (g : Guild.t) :
  exists channels, channels_by_name g = Ok channels.
Proof.
  unfold channels_by_name.
  destruct (mapM_total (fun c => n <- disambiguated_name g c ;; Ok (n, c))
              (Guild.channels g)) as [items ->].
  - intros c Hin. destruct (disambiguated_name_total g c Hin) as [n ->].
    eexists; reflexivity.
  - eexists; reflexivity.
Qed.

(** A header whose three leading columns are not the expected ones stops
    the import with [InvalidHeader], whatever rows follow. *)
Lemma invalid_header_raises `{PermissionsClass} (g : Guild.t)
  (header : list string) (data : list (list string)) :
  check_header header = Raise (UserError InvalidHeader) ->
  importperms g (header :: data) = Raise (UserError InvalidHeader).
Proof.
  intros Hheader. unfold importperms.
  destruct (channels_by_name_total g) as [channels ->]. simpl.
  now rewrite Hheader.
Qed.

Lemma check_header_cases (header : list string) :
  (exists perms,
      header = "Category"%string :: "Channel"%string :: "Role/User"%string :: perms
      /\ check_header header = Ok tt)
  \/ check_header header = Raise (UserError InvalidHeader).
Proof.
  unfold check_header, row_columns.
  destruct header as [|h0 [|h1 [|h2 perms]]]; try (now right).
  destruct (String.eqb_spec h0 "Category"); [|now right].
  destruct (String.eqb_spec h1 "Channel"); [|now right].
  destruct (String.eqb_spec h2 "Role/User"); [|now right].
  left. subst. exists perms. split; reflexivity.
Qed.

Lemma parse_flags_from `{PermissionsClass} (perms : list string) :
  forall flags,
    (forall perm, In perm perms -> Permissions_getattr perm <> None) ->
    exists flags', foldM (fun flags perm =>
                            match Permissions_getattr perm with
                            | Some a => Ok (flags ++ [(a, perm)])
                            | None => Raise (UserError (UnknownPermission perm))
                            end) perms flags = Ok flags'.
Proof.
  induction perms as [|perm perms IH]; intros flags Hall; simpl.
  - eexists; reflexivity.
  - destruct (Permissions_getattr perm) eqn:Hp.
    + simpl. apply IH. intros perm' Hin. apply Hall. now right.
    + exfalso. apply (Hall perm); [now left | exact Hp].
Qed.

(** A column that names no attribute of the permissions class stops the
    import with [UnknownPermission] of the first such column, whatever
    rows follow. *)
Lemma unknown_permission_raises `{PermissionsClass} (g : Guild.t)
  (before : list string) (perm : string) (after : list string)
  (data : list (list string)) :
  (forall p, In p before -> Permissions_getattr p <> None) ->
  Permissions_getattr perm = None ->
  importperms g
    (("Category"%string :: "Channel"%string :: "Role/User"%string
      :: before ++ perm :: after) :: data)
  = Raise (UserError (UnknownPermission perm)).
Proof.
  intros Hbefore Hperm. unfold importperms.
  destruct (channels_by_name_total g) as [channels ->]. simpl.
  unfold parse_flags. rewrite foldM_app.
  destruct (parse_flags_from before [] Hbefore) as [flags ->]. simpl.
  now rewrite Hperm.
Qed.

(** C7. A header column that names an attribute of the permissions class
    which is no flag is let through: with the columns [all] and
    [kick_members] after the three leading ones, [all] being a class
    method, the import does not fail at the header; it reads the row of
    the role, notes the change of [kick_members] and schedules the edit of
    the role. Only a [+] or [-] under [all] makes the row fail, and then
    with an [AttributeError], which is no [UserError]. *)
Theorem header_attribute_accepted :
  ~ In "all"%string (map fst (@VALID_FLAGS Sample.permissions))
  /\ @Permissions_getattr Sample.permissions "all" = Some OtherAttr
  /\ importperms (P := Sample.permissions) Sample.guild
       [["Category"; "Channel"; "Role/User"; "all"; "kick_members"];
        [""; ""; "Role Admin"; ""; "+"]]%string
     = Ok {| actions := [EditRole Sample.admin 2 0];
             output := [RoleNote Sample.admin [Allowed "kick_members"]];
             new_overwrites := [];
             overwrites_changed := [];
             want_sync := [];
             seen_moved := [];
             channel := None |}
  /\ importperms (P := Sample.permissions) Sample.guild
       [["Category"; "Channel"; "Role/User"; "all"; "kick_members"];
        [""; ""; "Role Admin"; "+"; "+"]]%string
     = Raise AttributeError.
Proof.
  split; [|repeat split].
  simpl. intuition discriminate.
Qed.

(** The example of the specification: a column [FLY] stops the import
    with an error that names it. *)
Example unknown_permission_fly :
  forall data,
    importperms (P := Sample.permissions) Sample.guild
      (["Category"; "Channel"; "Role/User"; "kick_members"; "FLY"]%string :: data)
    = Raise (UserError (UnknownPermission "FLY")).
Proof.
  intros data.
  apply (unknown_permission_raises (H := Sample.permissions) Sample.guild
           ["kick_members"%string] "FLY" [] data).
  - intros p [<- | []]. discriminate.
  - reflexivity.
Qed.

(** ** The state after the rows *)

Lemma foldM_invariant {A S : Type} (body : S -> A -> Result S) (Inv : S -> Prop) :
  (forall s a s', Inv s -> body s a = Ok s' -> Inv s') ->
  forall l s s', Inv s -> foldM body l s = Ok s' -> Inv s'.
Proof.
  intros Hbody. induction l as [|a l IH]; simpl; intros s s' Hs Hfold.
  - injection Hfold as <-. exact Hs.
  - destruct (body s a) as [s1|e] eqn:Hb; [|discriminate].
    simpl in Hfold. eapply IH; [|exact Hfold]. eapply Hbody; eassumption.
Qed.

Section DistinctFacts.
Variable K : Type.
Variable eqb : K -> K -> bool.
Hypothesis keys_ok : KeyEquivalence eqb.

Lemma distinct_snoc (l : list K) (k : K) :
  distinct eqb l -> PyDict.mem eqb l k = false -> distinct eqb (l ++ [k]).
Proof.
  induction l as [|x l IH]; simpl; intros Hd Hm; [auto|].
  destruct Hd as [Hx Hd]. apply orb_false_iff in Hm. destruct Hm as [Hxk Hm].
  split; [|now apply IH].
  rewrite existsb_app, Hx. simpl. now rewrite Hxk.
Qed.

Lemma distinct_add (s : list K) (k : K) :
  distinct eqb s -> distinct eqb (PyDict.add eqb s k).
Proof.
  intros Hd. unfold PyDict.add.
  destruct (PyDict.mem eqb s k) eqn:Hm; [exact Hd | now apply distinct_snoc].
Qed.

Lemma mem_add (s : list K) (k k' : K) :
  PyDict.mem eqb (PyDict.add eqb s k) k' = PyDict.mem eqb s k' || eqb k k'.
Proof.
  unfold PyDict.add. destruct (PyDict.mem eqb s k) eqn:Hm.
  - destruct (eqb k k') eqn:Hk; [|now rewrite orb_false_r].
    rewrite orb_true_r. unfold PyDict.mem in *.
    apply existsb_exists in Hm. destruct Hm as (x & Hin & Hx).
    apply existsb_exists. exists x. split; [exact Hin|].
    exact (key_trans keys_ok _ _ _ Hx Hk).
  - unfold PyDict.mem. rewrite existsb_app. simpl. now rewrite orb_false_r.
Qed.

Lemma mem_in (s : list K) (k : K) : In k s -> PyDict.mem eqb s k = true.
Proof.
  intros Hin. apply existsb_exists. exists k. split; [exact Hin|].
  apply (key_refl keys_ok).
Qed.

Section Values.
Variable V : Type.

Lemma contains_mem_keys (d : list (K * V)) (k : K) :
  PyDict.contains eqb d k = PyDict.mem eqb (PyDict.keys d) k.
Proof.
  unfold PyDict.contains, PyDict.mem, PyDict.keys.
  induction d as [|[k0 v0] d IH]; simpl; [reflexivity|].
  destruct (eqb k0 k); [reflexivity | exact IH].
Qed.

Lemma contains_set (d : list (K * V)) (k k' : K) (v : V) :
  PyDict.contains eqb (PyDict.set eqb d k v) k'
  = PyDict.contains eqb d k' || eqb k k'.
Proof.
  unfold PyDict.contains. destruct (eqb k k') eqn:Hk.
  - rewrite (get_set_eq keys_ok _ _ _ _ Hk). now rewrite orb_true_r.
  - rewrite (get_set_neq keys_ok _ _ _ _ Hk). now rewrite orb_false_r.
Qed.

Lemma distinct_keys_set (d : list (K * V)) (k : K) (v : V) :
  distinct eqb (PyDict.keys d) -> distinct eqb (PyDict.keys (PyDict.set eqb d k v)).
Proof.
  intros Hd. rewrite keys_set. rewrite contains_mem_keys.
  destruct (PyDict.mem eqb (PyDict.keys d) k) eqn:Hm;
    [exact Hd | now apply distinct_snoc].
Qed.

End Values.

(** A key occurs once among distinct keys. *)
Lemma distinct_count (l : list K) (k : K) :
  distinct eqb l -> In k l ->
  List.length (filter (fun x => eqb x k) l) = 1%nat.
Proof.
  induction l as [|x l IH]; simpl; intros Hd Hin; [destruct Hin|].
  destruct Hd as [Hx Hd]. destruct Hin as [-> | Hin].
  - rewrite (key_refl keys_ok). simpl. f_equal.
    rewrite filter_none; [reflexivity|].
    intros y Hy. rewrite (key_sym keys_ok).
    destruct (eqb k y) eqn:Hky; [|reflexivity].
    assert (existsb (eqb k) l = true)
      by (apply existsb_exists; exists y; auto).
    congruence.
  - destruct (eqb x k) eqn:Hxk; [|now apply IH].
    assert (existsb (eqb x) l = true)
      by (apply existsb_exists; exists k; auto).
    congruence.
Qed.

Lemma absent_count (l : list K) (k : K) :
  PyDict.mem eqb l k = false ->
  List.length (filter (fun x => eqb x k) l) = 0%nat.
Proof.
  intros Hm. rewrite filter_none; [reflexivity|].
  intros x Hx. destruct (eqb x k) eqn:Hxk; [|reflexivity].
  assert (PyDict.mem eqb l k = true)
    by (apply existsb_exists; exists x; auto).
  congruence.
Qed.

End DistinctFacts.

Lemma keys_touch (d : list (Channel.t * list (Target.t * Masks))) (c : Channel.t) :
  distinct Channel.eqb (PyDict.keys d) ->
  distinct Channel.eqb (PyDict.keys (touch d c)).
Proof.
  intros Hd. unfold touch. rewrite contains_mem_keys.
  destruct (PyDict.mem Channel.eqb (PyDict.keys d) c) eqn:Hm; [exact Hd|].
  unfold PyDict.keys. rewrite map_app. simpl.
  now apply distinct_snoc.
Qed.

Lemma keys_store_masks (d : list (Channel.t * list (Target.t * Masks)))
  (c : Channel.t) (t : Target.t) (m : Masks) :
  distinct Channel.eqb (PyDict.keys d) ->
  distinct Channel.eqb (PyDict.keys (store_masks d c t m)).
Proof.
  intros Hd. unfold store_masks.
  apply distinct_keys_set. now apply keys_touch.
Qed.

Lemma touch_nonempty (d : list (Channel.t * list (Target.t * Masks))) (c : Channel.t) :
  touch d c <> [].
Proof.
  unfold touch. destruct (PyDict.contains Channel.eqb d c) eqn:Hc.
  - intros ->. discriminate.
  - destruct d; discriminate.
Qed.

Lemma inv_initial : rows_invariant initial_state.
Proof. split; simpl; auto. Qed.

Lemma inv_append_output (st : ImportState) (n : Note) :
  rows_invariant st -> rows_invariant (append_output st n).
Proof. intros []. split; simpl; auto. Qed.

Lemma inv_append_action (st : ImportState) (a : Action) :
  row_action a -> rows_invariant st -> rows_invariant (append_action st a).
Proof.
  intros Ha []. split; simpl; auto.
  apply Forall_app. split; [assumption | now constructor].
Qed.

Lemma inv_set_channel (st : ImportState) (c : Channel.t) :
  rows_invariant st -> rows_invariant (set_channel st c).
Proof. intros []. split; simpl; auto. discriminate. Qed.

Lemma inv_set_seen_moved (st : ImportState) (c : Channel.t)
  (cat : option Channel.t) :
  rows_invariant st -> rows_invariant (set_seen_moved st c cat).
Proof. intros []. split; simpl; auto. Qed.

Lemma inv_add_want_sync (st : ImportState) (c : Channel.t) :
  Channel.is_category c = false ->
  rows_invariant st -> rows_invariant (add_want_sync st c).
Proof.
  intros Hc []. split; simpl; auto.
  - now apply distinct_add.
  - unfold PyDict.add. destruct (PyDict.mem Channel.eqb (want_sync st) c);
      [assumption|].
    apply Forall_app. split; [assumption | now constructor].
Qed.

Lemma inv_touch (st : ImportState) (c : Channel.t) :
  channel st <> None ->
  rows_invariant st ->
  rows_invariant (set_new_overwrites st (touch (new_overwrites st) c)).
Proof. intros Hc []. split; simpl; auto. now apply keys_touch. Qed.

Lemma inv_store_masks (st : ImportState) (c : Channel.t) (t : Target.t)
  (m : Masks) :
  channel st <> None ->
  rows_invariant st ->
  rows_invariant
    (set_new_overwrites st (store_masks (new_overwrites st) c t m)).
Proof. intros Hc []. split; simpl; auto. now apply keys_store_masks. Qed.

Section RowsInvariant.
Variable g : Guild.t.
Variable channels : list (string * Channel.t).
Variable roles : list (string * Role.t).
Variable flags : list (PermAttr * string).

Lemma import_role_row_invariant st line row target st' :
  rows_invariant st ->
  import_role_row roles flags st line row target = Ok st' ->
  rows_invariant st'.
Proof.
  intros Hinv. unfold import_role_row.
  destruct (negb (PyStr.startswith target "Role ")); [discriminate|].
  destruct (PyDict.get String.eqb roles _) as [role|]; [|discriminate].
  destruct (role_changes _ _ _) as [[[changes add_mask] remove_mask]|];
    [|discriminate].
  simpl. intros [= <-].
  assert (Hout : rows_invariant
                   match changes with
                   | [] => st
                   | _ :: _ => append_output st (RoleNote role changes)
                   end)
    by (destruct changes; [assumption | now apply inv_append_output]).
  destruct (negb (add_mask =? 0) || negb (remove_mask =? 0)); [|assumption].
  apply inv_append_action; [exact I | assumption].
Qed.

Lemma import_channel_row_invariant st line row r0 r1 r2 st' :
  rows_invariant st ->
  import_channel_row g channels roles flags st line row r0 r1 r2 = Ok st' ->
  rows_invariant st'.
Proof.
  intros Hinv. unfold import_channel_row.
  destruct (resolve_channel channels line r0 r1) as [[cat ch]|]; [|discriminate].
  simpl.
  set (st1 := if negb (Channel.is_category ch) && _ then _ else _).
  assert (Hinv1 : rows_invariant st1 /\ channel st1 <> None).
  { subst st1.
    destruct (negb (Channel.is_category ch) && _);
      [destruct (negb (PyDict.contains _ _ _))|];
      (split; [|simpl; discriminate]);
      repeat first [ apply inv_append_action; [exact I|]
                   | apply inv_append_output
                   | apply inv_set_seen_moved
                   | apply inv_set_channel ];
      assumption. }
  destruct Hinv1 as [Hinv1 Hch].
  destruct ((r2 =? "(synced)")%string && negb (Channel.is_category ch)) eqn:Hs.
  - intros [= <-]. apply andb_true_iff in Hs. destruct Hs as [_ Hs].
    apply negb_true_iff in Hs. now apply inv_add_want_sync.
  - destruct (negb (r2 =? "")%string).
    + destruct (resolve_target g roles line r2) as [target|]; [|discriminate].
      simpl.
      destruct (overwrite_changes _ _ _ _)
        as [[[[changes add_mask] remove_mask] reset_mask]|]; [|discriminate].
      simpl. intros [= <-].
      destruct changes.
      * now apply inv_store_masks.
      * apply inv_store_masks; [exact Hch | now apply inv_append_output].
    + intros [= <-]. now apply inv_touch.
Qed.

Lemma import_row_invariant st lr st' :
  rows_invariant st ->
  import_row g channels roles flags st lr = Ok st' ->
  rows_invariant st'.
Proof.
  intros Hinv. unfold import_row. destruct lr as [line row].
  destruct (row_columns row) as [[[r0 r1] r2]|]; [|discriminate].
  destruct ((r0 =? "")%string && (r1 =? "")%string).
  - now apply import_role_row_invariant.
  - now apply import_channel_row_invariant.
Qed.

Lemma first_pass_invariant data st :
  first_pass g channels roles flags data = Ok st -> rows_invariant st.
Proof.
  unfold first_pass. apply foldM_invariant with (Inv := rows_invariant).
  - intros s a s'. apply import_row_invariant.
  - apply inv_initial.
Qed.

End RowsInvariant.

(** ** The loop over the touched channels *)

Lemma removal_fold (chan : Channel.t) (targets : list Target.t) :
  forall st,
    let st' := fold_left (removal_step chan) targets st in
    actions st' = actions st
    /\ new_overwrites st' = new_overwrites st
    /\ want_sync st' = want_sync st
    /\ seen_moved st' = seen_moved st
    /\ channel st' = channel st
    /\ output st'
       = output st
         ++ map (RemoveNote chan)
              (filter (fun t => negb (PyDict.contains Target.eqb
                                        (entry (new_overwrites st) chan) t))
                 targets)
    /\ forall c,
         PyDict.mem Channel.eqb (overwrites_changed st') c
         = PyDict.mem Channel.eqb (overwrites_changed st) c
           || Channel.eqb chan c
              && existsb (fun t => negb (PyDict.contains Target.eqb
                                           (entry (new_overwrites st) chan) t))
                   targets.
Proof.
  induction targets as [|t targets IH]; intros st; simpl.
  - repeat split; try reflexivity.
    + now rewrite List.app_nil_r.
    + intros c. now rewrite andb_false_r, orb_false_r.
  - destruct (IH (removal_step chan st t))
      as (Ha & Hn & Hw & Hm & Hc & Ho & Hch).
    unfold removal_step in *.
    destruct (negb (PyDict.contains Target.eqb
                      (entry (new_overwrites st) chan) t)) eqn:Ht;
      simpl in *.
    + repeat split; try assumption.
      * rewrite Ho. now rewrite <- List.app_assoc.
      * intros c. rewrite Hch, (mem_add channel_keys).
        destruct (Channel.eqb chan c); simpl;
          [now rewrite !orb_true_r | now rewrite !orb_false_r].
    + repeat split; assumption.
Qed.

(** An iteration that is not skipped. *)
Lemma overwrite_step_run (st : ImportState) (chan c0 : Channel.t) :
  channel st = Some c0 ->
  PyDict.mem Channel.eqb (want_sync st) c0 = false ->
  exists st',
    overwrite_step st chan = Ok st'
    /\ actions st' = actions st ++ [EditOverwrites chan]
    /\ new_overwrites st' = new_overwrites st
    /\ want_sync st' = want_sync st
    /\ seen_moved st' = seen_moved st
    /\ channel st' = Some chan
    /\ output st' = output st ++ map (RemoveNote chan) (removed_targets st chan)
    /\ forall c,
         PyDict.mem Channel.eqb (overwrites_changed st') c
         = PyDict.mem Channel.eqb (overwrites_changed st) c
           || Channel.eqb chan c && changed st chan.
Proof.
  intros Hc Hw. unfold overwrite_step. rewrite Hc, Hw.
  eexists. split; [reflexivity|].
  set (st1 := if existsb masks_nonzero _ then _ else _).
  destruct (removal_fold chan (PyDict.keys (Channel.overwrites chan)) st1)
    as (Ha & Hn & Hws & Hm & Hch & Ho & Hoc).
  assert (Hst1 : actions st1 = actions st
                 /\ new_overwrites st1 = new_overwrites st
                 /\ want_sync st1 = want_sync st
                 /\ seen_moved st1 = seen_moved st
                 /\ channel st1 = Some chan
                 /\ output st1 = output st
                 /\ forall c,
                      PyDict.mem Channel.eqb (overwrites_changed st1) c
                      = PyDict.mem Channel.eqb (overwrites_changed st) c
                        || Channel.eqb chan c && has_nonzero_mask st chan).
  { subst st1. unfold has_nonzero_mask. simpl.
    destruct (existsb masks_nonzero _); simpl; repeat split; intros c.
    - rewrite (mem_add channel_keys). now rewrite andb_true_r.
    - now rewrite andb_false_r, orb_false_r. }
  destruct Hst1 as (Ha1 & Hn1 & Hw1 & Hm1 & Hc1 & Ho1 & Hoc1).
  simpl. repeat split; try congruence.
  - rewrite Ho, Ho1, Hn1. reflexivity.
  - intros c. rewrite Hoc, Hoc1, Hn1. unfold changed, has_removal.
    destruct (Channel.eqb chan c); simpl;
      [now rewrite orb_assoc | now rewrite !orb_false_r].
Qed.

(** An iteration changes neither the sets of the first loop nor the
    dictionary, and appends no other action than an overwrite edit. *)
Lemma overwrite_step_fields (st : ImportState) (chan : Channel.t)
  (st' : ImportState) :
  overwrite_step st chan = Ok st' ->
  new_overwrites st' = new_overwrites st
  /\ want_sync st' = want_sync st
  /\ seen_moved st' = seen_moved st
  /\ (actions st' = actions st
      \/ actions st' = actions st ++ [EditOverwrites chan]).
Proof.
  intros Hstep. destruct (channel st) as [c0|] eqn:Hc.
  - destruct (PyDict.mem Channel.eqb (want_sync st) c0) eqn:Hw.
    + unfold overwrite_step in Hstep. rewrite Hc, Hw in Hstep.
      injection Hstep as <-. auto.
    + destruct (overwrite_step_run st chan Hc Hw)
        as (st'' & Hrun & Ha & Hn & Hws & Hm & _).
      rewrite Hrun in Hstep. injection Hstep as <-. auto.
  - unfold overwrite_step in Hstep. rewrite Hc in Hstep. discriminate.
Qed.

Lemma second_pass_fields (st st' : ImportState) :
  second_pass st = Ok st' ->
  new_overwrites st' = new_overwrites st
  /\ want_sync st' = want_sync st
  /\ seen_moved st' = seen_moved st
  /\ (Forall not_sync (actions st) -> Forall not_sync (actions st')).
Proof.
  unfold second_pass.
  apply (foldM_invariant overwrite_step
           (fun s => new_overwrites s = new_overwrites st
                     /\ want_sync s = want_sync st
                     /\ seen_moved s = seen_moved st
                     /\ (Forall not_sync (actions st) ->
                         Forall not_sync (actions s)))).
  - intros s chan s' (Hn & Hw & Hm & Ha) Hstep.
    apply overwrite_step_fields in Hstep.
    destruct Hstep as (Hn' & Hw' & Hm' & Ha').
    repeat split; try congruence.
    intros Hns. specialize (Ha Hns).
    destruct Ha' as [-> | ->]; [assumption|].
    apply Forall_app. split; [assumption | repeat constructor].
  - auto.
Qed.

Lemma changed_same (st st1 : ImportState) (chan : Channel.t) :
  new_overwrites st1 = new_overwrites st ->
  changed st1 chan = changed st chan
  /\ removed_targets st1 chan = removed_targets st chan.
Proof.
  intros Hn. unfold changed, has_nonzero_mask, has_removal, removed_targets.
  now rewrite Hn.
Qed.

Lemma existsb_same {A : Type} (p q : A -> bool) (l : list A) :
  (forall a, p a = q a) -> existsb p l = existsb q l.
Proof.
  intros Hpq. induction l as [|a l IH]; simpl; [reflexivity|].
  now rewrite Hpq, IH.
Qed.

(** When neither the channel of the last row nor a touched channel is
    marked synced, no iteration is skipped. *)
Lemma overwrite_loop (l : list Channel.t) :
  forall st c0,
    channel st = Some c0 ->
    PyDict.mem Channel.eqb (want_sync st) c0 = false ->
    (forall c, In c l -> PyDict.mem Channel.eqb (want_sync st) c = false) ->
    exists st',
      foldM overwrite_step l st = Ok st'
      /\ actions st' = actions st ++ map EditOverwrites l
      /\ new_overwrites st' = new_overwrites st
      /\ want_sync st' = want_sync st
      /\ seen_moved st' = seen_moved st
      /\ output st'
         = output st
           ++ flat_map (fun chan =>
                          map (RemoveNote chan) (removed_targets st chan)) l
      /\ forall c,
           PyDict.mem Channel.eqb (overwrites_changed st') c
           = PyDict.mem Channel.eqb (overwrites_changed st) c
             || existsb (fun chan => Channel.eqb chan c && changed st chan) l.
Proof.
  induction l as [|chan l IH]; intros st c0 Hc Hw Hl; simpl.
  - exists st. repeat split; try reflexivity; try (now rewrite List.app_nil_r).
    intros c. now rewrite orb_false_r.
  - destruct (overwrite_step_run st chan Hc Hw)
      as (st1 & Hrun & Ha & Hn & Hws & Hm & Hch & Ho & Hoc).
    rewrite Hrun. simpl.
    destruct (IH st1 chan Hch) as (st' & Hfold & Ha' & Hn' & Hw' & Hm' & Ho' & Hoc').
    + rewrite Hws. apply Hl. now left.
    + intros c Hin. rewrite Hws. apply Hl. now right.
    + exists st'. split; [exact Hfold|].
      repeat split; try congruence.
      * rewrite Ha', Ha. now rewrite <- List.app_assoc.
      * rewrite Ho', Ho. rewrite <- List.app_assoc. f_equal. f_equal.
        apply flat_map_ext. intros a.
        now rewrite (proj2 (changed_same st st1 a Hn)).
      * intros c. rewrite Hoc', Hoc. rewrite <- orb_assoc. f_equal. f_equal.
        apply existsb_same. intros a.
        now rewrite (proj1 (changed_same st st1 a Hn)).
Qed.

Lemma distinct_same {K : Type} (eqb : K -> K -> bool) (l : list K) (x c : K) :
  KeyEquivalence eqb ->
  distinct eqb l -> In c l -> In x l -> eqb x c = true -> x = c.
Proof.
  intros Hk. induction l as [|y l IH]; simpl; intros Hd Hc Hx Hxc;
    [destruct Hc|].
  destruct Hd as [Hy Hd].
  assert (Hno : forall z, In z l -> eqb y z = false).
  { intros z Hz. destruct (eqb y z) eqn:Hyz; [|reflexivity].
    assert (existsb (eqb y) l = true)
      by (apply existsb_exists; exists z; auto).
    congruence. }
  destruct Hc as [-> | Hc], Hx as [-> | Hx].
  - reflexivity.
  - rewrite (key_sym Hk), (Hno x Hx) in Hxc. discriminate.
  - rewrite (Hno c Hc) in Hxc. discriminate.
  - now apply IH.
Qed.

Lemma count_row_actions (p : Action -> bool) (l : list Action) :
  (forall a, row_action a -> p a = false) ->
  Forall row_action l -> count_actions p l = 0%nat.
Proof.
  intros Hp Hl. unfold count_actions. rewrite filter_none; [reflexivity|].
  rewrite Forall_forall in Hl. intros a Ha. apply Hp. now apply Hl.
Qed.

Lemma count_overwrite_edits (c : Channel.t) (l : list Channel.t) :
  count_actions (is_edit_overwrites_of c) (map EditOverwrites l)
  = List.length (filter (fun k => Channel.eqb k c) l).
Proof.
  unfold count_actions. induction l as [|k l IH]; simpl; [reflexivity|].
  destruct (Channel.eqb k c); simpl; now rewrite IH.
Qed.

Lemma count_actions_app (p : Action -> bool) (l l' : list Action) :
  count_actions p (l ++ l') = (count_actions p l + count_actions p l')%nat.
Proof. unfold count_actions. now rewrite filter_app, length_app. Qed.

(** C3, as the code has it. After the rows, when neither the channel of
    the last channel row nor any touched channel is marked synced, the
    second loop schedules one overwrite edit for every touched channel, in
    the order in which the channels were first touched, whether or not a
    mask is set or a target is removed; it notes the removal of every live
    target that the input does not name, and a touched channel ends up in
    the set of changed channels exactly when one of its masks is not zero
    or one of its live targets is removed. *)
Theorem overwrite_edits_unconditional (g : Guild.t)
  (channels : list (string * Channel.t)) (roles : list (string * Role.t))
  (flags : list (PermAttr * string)) (data : list (list string))
  (st : ImportState) :
  first_pass g channels roles flags data = Ok st ->
  (forall c, channel st = Some c ->
             PyDict.mem Channel.eqb (want_sync st) c = false) ->
  (forall c, In c (PyDict.keys (new_overwrites st)) ->
             PyDict.mem Channel.eqb (want_sync st) c = false) ->
  exists st',
    second_pass st = Ok st'
    /\ actions st'
       = actions st ++ map EditOverwrites (PyDict.keys (new_overwrites st))
    /\ (forall c, In c (PyDict.keys (new_overwrites st)) ->
          count_actions (is_edit_overwrites_of c) (actions st') = 1%nat)
    /\ (forall c,
          PyDict.mem Channel.eqb (PyDict.keys (new_overwrites st)) c = false ->
          count_actions (is_edit_overwrites_of c) (actions st') = 0%nat)
    /\ (forall c, In c (PyDict.keys (new_overwrites st)) ->
          PyDict.mem Channel.eqb (overwrites_changed st') c = changed st c)
    /\ output st'
       = output st
         ++ flat_map (fun chan =>
                        map (RemoveNote chan) (removed_targets st chan))
              (PyDict.keys (new_overwrites st)).
Proof.
  intros Hfirst Hlast Htouched.
  apply first_pass_invariant in Hfirst.
  destruct Hfirst as [Hkeys _ _ Hactions Hunchanged Hchannel].
  assert (Hloop : exists st',
             second_pass st = Ok st'
             /\ actions st'
                = actions st ++ map EditOverwrites (PyDict.keys (new_overwrites st))
             /\ output st'
                = output st
                  ++ flat_map (fun chan =>
                                 map (RemoveNote chan) (removed_targets st chan))
                       (PyDict.keys (new_overwrites st))
             /\ forall c,
                  PyDict.mem Channel.eqb (overwrites_changed st') c
                  = existsb (fun chan => Channel.eqb chan c && changed st chan)
                      (PyDict.keys (new_overwrites st))).
  { unfold second_pass. destruct (channel st) as [c0|] eqn:Hc.
    - destruct (overwrite_loop (PyDict.keys (new_overwrites st)) st Hc
                  (Hlast c0 eq_refl) Htouched)
        as (st' & Hfold & Ha & _ & _ & _ & Ho & Hoc).
      exists st'. repeat split; try assumption.
      intros c. rewrite Hoc, Hunchanged. reflexivity.
    - destruct (new_overwrites st) as [|kv d] eqn:Hd;
        [|exfalso; now apply Hchannel].
      exists st. simpl. rewrite !List.app_nil_r. repeat split.
      intros c. now rewrite Hunchanged. }
  destruct Hloop as (st' & Hsecond & Ha & Ho & Hoc).
  exists st'. split; [exact Hsecond|]. split; [exact Ha|].
  repeat split.
  - intros c Hin. rewrite Ha, count_actions_app, count_overwrite_edits.
    rewrite (count_row_actions (is_edit_overwrites_of c)); [|now intros []|assumption].
    simpl. now apply (distinct_count channel_keys).
  - intros c Hm. rewrite Ha, count_actions_app, count_overwrite_edits.
    rewrite (count_row_actions (is_edit_overwrites_of c)); [|now intros []|assumption].
    simpl. now apply absent_count.
  - intros c Hin. rewrite Hoc.
    destruct (changed st c) eqn:Hch.
    + apply existsb_exists. exists c. split; [exact Hin|].
      unfold Channel.eqb. now rewrite Z.eqb_refl.
    + destruct (existsb _ _) eqn:He; [|reflexivity].
      apply existsb_exists in He. destruct He as (x & Hx & Hxc).
      apply andb_true_iff in Hxc. destruct Hxc as [Hxc Hcx].
      assert (x = c)
        by (eapply distinct_same;
            [apply channel_keys | exact Hkeys | exact Hin | exact Hx | exact Hxc]).
      subst x. congruence.
  - exact Ho.
Qed.

Lemma overwrite_edits_unconditional_witness :
  exists st',
    second_pass Sample.lobby_state = Ok st'
    /\ actions st'
       = actions Sample.lobby_state
         ++ map EditOverwrites (PyDict.keys (new_overwrites Sample.lobby_state))
    /\ (forall c, In c (PyDict.keys (new_overwrites Sample.lobby_state)) ->
          count_actions (is_edit_overwrites_of c) (actions st') = 1%nat)
    /\ (forall c,
          PyDict.mem Channel.eqb
            (PyDict.keys (new_overwrites Sample.lobby_state)) c = false ->
          count_actions (is_edit_overwrites_of c) (actions st') = 0%nat)
    /\ (forall c, In c (PyDict.keys (new_overwrites Sample.lobby_state)) ->
          PyDict.mem Channel.eqb (overwrites_changed st') c
          = changed Sample.lobby_state c)
    /\ output st'
       = output Sample.lobby_state
         ++ flat_map (fun chan =>
                        map (RemoveNote chan)
                          (removed_targets Sample.lobby_state chan))
              (PyDict.keys (new_overwrites Sample.lobby_state)).
Proof.
  apply (overwrite_edits_unconditional Sample.guild Sample.channels
           Sample.roles [] Sample.lobby_rows).
  - reflexivity.
  - intros c _. reflexivity.
  - intros c _. reflexivity.
Defined.

(** An input that names the category and its one overwrite with no sign:
    no mask is set and no target is removed, and the overwrite edit of the
    category is scheduled all the same. *)
Lemma overwrite_edit_without_change :
  exists st,
    importperms (P := Sample.permissions) Sample.guild
      (["Category"; "Channel"; "Role/User"]%string :: Sample.lobby_rows)
    = Ok st
    /\ In Sample.lobby (PyDict.keys (new_overwrites st))
    /\ PyDict.mem Channel.eqb (want_sync st) Sample.lobby = false
    /\ has_nonzero_mask st Sample.lobby = false
    /\ has_removal st Sample.lobby = false
    /\ count_actions (is_edit_overwrites_of Sample.lobby) (actions st) = 1%nat.
Proof.
  eexists. split; [reflexivity|]. repeat split. now left.
Qed.

(** The test of the second loop reads the variable [channel] and not the
    channel of the iteration. A channel marked synced and touched gets its
    overwrite edit when the last row names another channel, and that edit
    is the last one: the category after it is skipped. *)
Lemma synced_channel_edited :
  exists st,
    importperms (P := Sample.permissions) Sample.guild
      [["Category"; "Channel"; "Role/User"];
       ["Lobby"; "general (2)"; "(synced)"];
       ["Lobby"; "general (2)"; ""];
       ["Lobby"; ""; ""]]%string
    = Ok st
    /\ PyDict.mem Channel.eqb (want_sync st) (Sample.general 200 false) = true
    /\ count_actions (is_edit_overwrites_of (Sample.general 200 false))
         (actions st) = 1%nat
    /\ In Sample.lobby (PyDict.keys (new_overwrites st))
    /\ has_removal st Sample.lobby = true
    /\ count_actions (is_edit_overwrites_of Sample.lobby) (actions st) = 0%nat.
Proof.
  eexists. split; [vm_compute; reflexivity|].
  split; [vm_compute; reflexivity|]. split; [vm_compute; reflexivity|].
  split; [right; now left|]. split; vm_compute; reflexivity.
Qed.

(** When the last row names a channel marked synced, every iteration is
    skipped: the overwrites that the input removes from [general (2)] are
    neither noted nor edited. *)
Lemma last_row_synced_skips_all :
  exists st,
    importperms (P := Sample.permissions) Sample.guild
      [["Category"; "Channel"; "Role/User"];
       ["Lobby"; "general (2)"; ""];
       ["Lobby"; "general (1)"; "(synced)"]]%string
    = Ok st
    /\ In (Sample.general 200 false) (PyDict.keys (new_overwrites st))
    /\ has_removal st (Sample.general 200 false) = true
    /\ output st = []
    /\ actions st = [].
Proof.
  eexists. split; [reflexivity|]. repeat split. now left.
Qed.

(** ** The loop over the channels marked synced *)

Lemma sync_due_same (g : Guild.t) (st st' : ImportState) (c : Channel.t) :
  seen_moved st' = seen_moved st ->
  overwrites_changed st' = overwrites_changed st ->
  new_category g st' c = new_category g st c
  /\ sync_due g st' c = sync_due g st c.
Proof.
  intros Hm Hc. unfold sync_due, new_category. now rewrite Hm, Hc.
Qed.

Lemma sync_step_run (g : Guild.t) (st : ImportState) (chan cat : Channel.t) :
  Channel.is_category chan = false ->
  new_category g st chan = Some cat ->
  exists st',
    sync_step g st chan = Ok st'
    /\ actions st'
       = actions st ++ (if sync_due g st chan then [SyncPermissions chan] else [])
    /\ output st'
       = output st ++ (if sync_due g st chan then [SyncNote chan cat] else [])
    /\ seen_moved st' = seen_moved st
    /\ overwrites_changed st' = overwrites_changed st
    /\ want_sync st' = want_sync st
    /\ new_overwrites st' = new_overwrites st.
Proof.
  intros Hkind Hcat. unfold sync_step. rewrite Hkind.
  assert (Hnew : new_category g (set_channel st chan) chan = Some cat)
    by exact Hcat.
  rewrite Hnew. unfold sync_due. rewrite Hcat. simpl.
  destruct (negb (Channel.permissions_synced chan)
            || PyDict.contains Channel.eqb (seen_moved st) chan
            || PyDict.mem Channel.eqb (overwrites_changed st) cat);
    eexists; (split; [reflexivity|]); simpl;
    rewrite ?List.app_nil_r; repeat split.
Qed.

Lemma sync_loop (g : Guild.t) (l : list Channel.t) :
  forall st,
    (forall c, In c l -> Channel.is_category c = false) ->
    (forall c, In c l -> new_category g st c <> None) ->
    exists st',
      foldM (sync_step g) l st = Ok st'
      /\ actions st'
         = actions st ++ map SyncPermissions (filter (sync_due g st) l)
      /\ seen_moved st' = seen_moved st
      /\ overwrites_changed st' = overwrites_changed st
      /\ want_sync st' = want_sync st
      /\ new_overwrites st' = new_overwrites st.
Proof.
  induction l as [|chan l IH]; intros st Hkind Hcat; simpl.
  - exists st. rewrite List.app_nil_r. repeat split.
  - destruct (new_category g st chan) as [cat|] eqn:Hc;
      [|exfalso; apply (Hcat chan); [now left | exact Hc]].
    destruct (sync_step_run g st chan (Hkind chan (or_introl eq_refl)) Hc)
      as (st1 & Hstep & Ha & _ & Hm & Hoc & Hw & Hn).
    rewrite Hstep. simpl.
    destruct (IH st1) as (st' & Hfold & Ha' & Hm' & Hoc' & Hw' & Hn').
    + intros c Hin. apply Hkind. now right.
    + intros c Hin. rewrite (proj1 (sync_due_same g st st1 c Hm Hoc)).
      apply Hcat. now right.
    + exists st'. split; [exact Hfold|]. repeat split; try congruence.
      rewrite Ha', Ha, <- List.app_assoc. f_equal.
      rewrite (filter_ext (sync_due g st1) (sync_due g st))
        by (intros c; apply (sync_due_same g st st1 c Hm Hoc)).
      now destruct (sync_due g st chan).
Qed.

Lemma sync_loop_raises (g : Guild.t) (l : list Channel.t) :
  forall st,
    (forall c, In c l -> Channel.is_category c = false) ->
    (exists c, In c l /\ new_category g st c = None) ->
    exists c,
      In c l /\ new_category g st c = None
      /\ foldM (sync_step g) l st
         = Raise (UserError (CannotSyncNoCategory (Channel.id c))).
Proof.
  induction l as [|chan l IH]; intros st Hkind (c & Hin & Hnone);
    [destruct Hin|].
  simpl. destruct (new_category g st chan) as [cat|] eqn:Hc.
  - destruct (sync_step_run g st chan (Hkind chan (or_introl eq_refl)) Hc)
      as (st1 & Hstep & _ & _ & Hm & Hoc & _ & _).
    rewrite Hstep. simpl.
    destruct Hin as [-> | Hin]; [congruence|].
    destruct (IH st1) as (c' & Hin' & Hnone' & Hfold).
    + intros x Hx. apply Hkind. now right.
    + exists c. split; [exact Hin|].
      now rewrite (proj1 (sync_due_same g st st1 c Hm Hoc)).
    + exists c'. split; [now right|]. split; [|exact Hfold].
      now rewrite <- (proj1 (sync_due_same g st st1 c' Hm Hoc)).
  - exists chan. split; [now left|]. split; [exact Hc|].
    unfold sync_step. rewrite (Hkind chan (or_introl eq_refl)).
    assert (Hnew : new_category g (set_channel st chan) chan = None)
      by exact Hc.
    now rewrite Hnew.
Qed.

Lemma count_sync_actions (c : Channel.t) (l : list Channel.t) :
  count_actions (is_sync_of c) (map SyncPermissions l)
  = List.length (filter (fun k => Channel.eqb k c) l).
Proof.
  unfold count_actions. induction l as [|k l IH]; simpl; [reflexivity|].
  destruct (Channel.eqb k c); simpl; now rewrite IH.
Qed.

Lemma count_not_sync (c : Channel.t) (l : list Action) :
  Forall not_sync l -> count_actions (is_sync_of c) l = 0%nat.
Proof.
  intros Hl. unfold count_actions. rewrite filter_none; [reflexivity|].
  rewrite Forall_forall in Hl. intros a Ha. specialize (Hl a Ha).
  now destruct a.
Qed.

Lemma distinct_head_absent {K : Type} (eqb : K -> K -> bool) (x : K)
  (l : list K) (p : K -> bool) :
  KeyEquivalence eqb -> existsb (eqb x) l = false ->
  filter (fun y => eqb y x) (filter p l) = [].
Proof.
  intros Hk Hx. apply filter_none. intros y Hy. apply filter_In in Hy.
  destruct Hy as [Hy _]. rewrite (key_sym Hk).
  destruct (eqb x y) eqn:Hxy; [|reflexivity].
  assert (existsb (eqb x) l = true) by (apply existsb_exists; exists y; auto).
  congruence.
Qed.

(** Among distinct keys, a key is counted once in the keys that satisfy a
    test when it satisfies it, and not at all otherwise. *)
Lemma count_filter_distinct {K : Type} (eqb : K -> K -> bool) (p : K -> bool)
  (l : list K) (c : K) :
  KeyEquivalence eqb -> distinct eqb l -> In c l ->
  List.length (filter (fun x => eqb x c) (filter p l))
  = if p c then 1%nat else 0%nat.
Proof.
  intros Hk. induction l as [|x l IH]; simpl; intros Hd Hin; [destruct Hin|].
  destruct Hd as [Hx Hd]. destruct Hin as [-> | Hin].
  - destruct (p c); simpl.
    + rewrite (key_refl Hk). simpl.
      now rewrite (@distinct_head_absent _ eqb c l p Hk Hx).
    + now rewrite (@distinct_head_absent _ eqb c l p Hk Hx).
  - assert (Hxc : eqb x c = false).
    { destruct (eqb x c) eqn:Hxc; [|reflexivity].
      assert (existsb (eqb x) l = true)
        by (apply existsb_exists; exists c; auto).
      congruence. }
    destruct (p x); simpl; [rewrite Hxc|]; now apply IH.
Qed.

Lemma row_action_not_sync (l : list Action) :
  Forall row_action l -> Forall not_sync l.
Proof.
  intros Hl. eapply Forall_impl; [|exact Hl]. now intros [].
Qed.

(** C5. For the channels that the input marks synced: the new category of
    a channel is the one it was moved to when this import moved it, and
    its current category otherwise; when some marked channel has no new
    category the import stops with [CannotSyncNoCategory]; otherwise the
    third loop ends, and it schedules the sync of a marked channel once
    when the channel was not synced, or was moved by this import, or its
    new category is in the set of changed channels, and not at all
    otherwise; no sync is scheduled for a channel that is not marked. *)
Theorem sync_scheduling (g : Guild.t)
  (channels : list (string * Channel.t)) (roles : list (string * Role.t))
  (flags : list (PermAttr * string)) (data : list (list string))
  (st1 st2 : ImportState) :
  first_pass g channels roles flags data = Ok st1 ->
  second_pass st1 = Ok st2 ->
  want_sync st2 = want_sync st1
  /\ seen_moved st2 = seen_moved st1
  /\ (forall c,
        new_category g st2 c
        = match PyDict.get Channel.eqb (seen_moved st2) c with
          | Some moved_to => moved_to
          | None => category g c
          end)
  /\ ((exists c, In c (want_sync st2) /\ new_category g st2 c = None) ->
      exists c,
        In c (want_sync st2) /\ new_category g st2 c = None
        /\ third_pass g st2
           = Raise (UserError (CannotSyncNoCategory (Channel.id c))))
  /\ ((forall c, In c (want_sync st2) -> new_category g st2 c <> None) ->
      exists st3,
        third_pass g st2 = Ok st3
        /\ (forall c, In c (want_sync st2) ->
              count_actions (is_sync_of c) (actions st3)
              = if sync_due g st2 c then 1%nat else 0%nat)
        /\ (forall c, PyDict.mem Channel.eqb (want_sync st2) c = false ->
              count_actions (is_sync_of c) (actions st3) = 0%nat)).
Proof.
  intros Hfirst Hsecond.
  apply first_pass_invariant in Hfirst.
  destruct Hfirst as [_ Hdistinct Hkind Hactions _ _].
  apply second_pass_fields in Hsecond.
  destruct Hsecond as (_ & Hw & Hm & Hns).
  specialize (Hns (row_action_not_sync Hactions)).
  rewrite <- Hw in Hdistinct, Hkind. rewrite Forall_forall in Hkind.
  split; [exact Hw|]. split; [exact Hm|]. split; [reflexivity|]. split.
  - intros Hnone. now apply sync_loop_raises.
  - intros Hsome.
    destruct (sync_loop g (want_sync st2) st2 Hkind Hsome)
      as (st3 & Hfold & Ha & _).
    exists st3. split; [exact Hfold|]. split.
    + intros c Hin.
      rewrite Ha, count_actions_app, count_sync_actions, (count_not_sync c Hns).
      simpl. now apply (@count_filter_distinct _ Channel.eqb (sync_due g st2) _ c channel_keys).
    + intros c Hmem.
      rewrite Ha, count_actions_app, count_sync_actions, (count_not_sync c Hns).
      simpl. rewrite filter_none; [reflexivity|].
      intros x Hx. apply filter_In in Hx. destruct Hx as [Hx _].
      destruct (Channel.eqb x c) eqn:Hxc; [|reflexivity].
      assert (PyDict.mem Channel.eqb (want_sync st2) c = true)
        by (apply existsb_exists; exists x; auto).
      congruence.
Qed.

Lemma sync_scheduling_witness :
  want_sync Sample.synced_state = want_sync Sample.synced_first
  /\ seen_moved Sample.synced_state = seen_moved Sample.synced_first
  /\ (forall c,
        new_category Sample.guild Sample.synced_state c
        = match PyDict.get Channel.eqb (seen_moved Sample.synced_state) c with
          | Some moved_to => moved_to
          | None => category Sample.guild c
          end)
  /\ ((exists c, In c (want_sync Sample.synced_state)
                 /\ new_category Sample.guild Sample.synced_state c = None) ->
      exists c,
        In c (want_sync Sample.synced_state)
        /\ new_category Sample.guild Sample.synced_state c = None
        /\ third_pass Sample.guild Sample.synced_state
           = Raise (UserError (CannotSyncNoCategory (Channel.id c))))
  /\ ((forall c, In c (want_sync Sample.synced_state) ->
                 new_category Sample.guild Sample.synced_state c <> None) ->
      exists st3,
        third_pass Sample.guild Sample.synced_state = Ok st3
        /\ (forall c, In c (want_sync Sample.synced_state) ->
              count_actions (is_sync_of c) (actions st3)
              = if sync_due Sample.guild Sample.synced_state c
                then 1%nat else 0%nat)
        /\ (forall c,
              PyDict.mem Channel.eqb (want_sync Sample.synced_state) c = false ->
              count_actions (is_sync_of c) (actions st3) = 0%nat)).
Proof.
  apply (sync_scheduling Sample.guild Sample.channels Sample.roles []
           Sample.synced_rows (st1 := Sample.synced_first)); reflexivity.
Defined.

(** The two cases of the specification on the sample guild, whose channel
    [general (1)] is synced with the category [Lobby]: marked synced and
    left where it is, it gets no sync while the overwrites of the category
    stay as they are, and it gets one when a row changes them. *)
Example sync_not_rescheduled :
  exists st,
    importperms (P := Sample.permissions) Sample.guild
      (["Category"; "Channel"; "Role/User"]%string :: Sample.synced_rows)
    = Ok st
    /\ count_actions (is_sync_of (Sample.general 100 true)) (actions st) = 0%nat.
Proof. eexists. split; reflexivity. Qed.

Example sync_rescheduled :
  exists st,
    importperms (P := Sample.permissions) Sample.guild
      [["Category"; "Channel"; "Role/User"; "send_messages"];
       ["Lobby"; "general (1)"; "(synced)"];
       ["Lobby"; ""; "Role @everyone"; "+"]]%string
    = Ok st
    /\ PyDict.mem Channel.eqb (overwrites_changed st) Sample.lobby = true
    /\ count_actions (is_sync_of (Sample.general 100 true)) (actions st) = 1%nat.
Proof. eexists. split; [reflexivity|]. split; reflexivity. Qed.

(** ** Reading the export back: bits and numbers *)

Lemma single_bit_land (value f : Z) :
  single_bit f -> Z.land value f = 0 \/ Z.land value f = f.
Proof.
  intros [Hk Hf]. set (k := Z.log2 f) in *.
  destruct (Z.testbit value k) eqn:Hbit; [right | left];
    apply Z.bits_inj'; intros n Hn; rewrite Z.land_spec, Hf,
      Z.pow2_bits_eqb by exact Hk.
  - destruct (Z.eqb_spec k n) as [<- | _];
      [now rewrite Hbit | apply andb_false_r].
  - rewrite Z.bits_0. destruct (Z.eqb_spec k n) as [<- | _];
      [now rewrite Hbit | apply andb_false_r].
Qed.

Lemma single_bit_nonzero (f : Z) : single_bit f -> f <> 0.
Proof.
  intros [Hk Hf]. rewrite Hf.
  apply Z.pow_nonzero; [discriminate | exact Hk].
Qed.

(** For a flag of one bit, [_has_flag] and the truth of [value & flag]
    agree. *)
Lemma has_flag_truthy (value f : Z) :
  single_bit f -> truthy (Z.land value f) = has_flag value f.
Proof.
  intros Hf. unfold truthy, has_flag.
  pose proof (single_bit_nonzero Hf) as Hnz.
  destruct (single_bit_land value Hf) as [-> | ->].
  - rewrite Z.eqb_refl. cbn [negb]. symmetry. apply Z.eqb_neq. congruence.
  - rewrite Z.eqb_refl. apply negb_true_iff. now apply Z.eqb_neq.
Qed.

Lemma digits_are_digits (d : Decimal.uint) :
  Forall (fun c => PyStr.is_digit c = true)
    (list_ascii_of_string (NilEmpty.string_of_uint d)).
Proof. induction d; simpl; constructor; auto. Qed.

Lemma literal_digits_plain (s : string) :
  Forall (fun c => PyStr.is_digit c = true) (list_ascii_of_string s) ->
  forall prev,
    PyStr.literal_digits prev s
    = if prev then Some s
      else match s with EmptyString => None | _ => Some s end.
Proof.
  induction s as [|c s IH]; simpl; intros Hs prev; [now destruct prev|].
  inversion Hs as [|? ? Hc Hs']; subst. rewrite Hc.
  rewrite (IH Hs' true). simpl. now destruct prev.
Qed.

Lemma int_unsigned_digits (d : Decimal.uint) :
  d <> Decimal.Nil ->
  PyStr.int_unsigned (NilEmpty.string_of_uint d) = Some (Z.of_uint d).
Proof.
  intros Hd. unfold PyStr.int_unsigned.
  rewrite (literal_digits_plain _ (digits_are_digits d) false).
  assert (Hne : NilEmpty.string_of_uint d <> EmptyString)
    by (destruct d; simpl; congruence).
  destruct (NilEmpty.string_of_uint d) as [|c s] eqn:Hs; [congruence|].
  rewrite <- Hs.
  replace (NilZero.uint_of_string (NilEmpty.string_of_uint d))
    with (NilZero.uint_of_string (NilZero.string_of_uint d))
    by (destruct d; try reflexivity; congruence).
  now rewrite NilZero.usu.
Qed.

Lemma int_digits (d : Decimal.uint) :
  d <> Decimal.Nil ->
  PyStr.int (NilEmpty.string_of_uint d) = Some (Z.of_uint d).
Proof.
  intros Hd. rewrite <- (int_unsigned_digits Hd).
  destruct d; reflexivity.
Qed.

(** [int(str(n))] is [n]. *)
Lemma int_str_int (n : Z) : PyStr.int (PyStr.str_int n) = Some n.
Proof.
  unfold PyStr.str_int. destruct n as [|p|p]; [reflexivity| |].
  - simpl Z.to_int. unfold NilZero.string_of_int, NilZero.string_of_uint.
    pose proof (DecimalPos.Unsigned.to_uint_nonnil p) as Hp.
    destruct (Pos.to_uint p) eqn:Hd; try congruence;
      rewrite <- Hd, int_digits by (rewrite Hd; discriminate);
      unfold Z.of_uint; now rewrite DecimalPos.Unsigned.of_to.
  - simpl Z.to_int. unfold NilZero.string_of_int, NilZero.string_of_uint.
    pose proof (DecimalPos.Unsigned.to_uint_nonnil p) as Hp.
    assert (Hs : forall d, d <> Decimal.Nil ->
                   PyStr.int (String "-" (NilEmpty.string_of_uint d))
                   = option_map Z.opp (Some (Z.of_uint d))).
    { intros d Hd. rewrite <- (int_unsigned_digits Hd). reflexivity. }
    destruct (Pos.to_uint p) eqn:Hd; try congruence;
      rewrite <- Hd, Hs by (rewrite Hd; discriminate);
      unfold Z.of_uint; now rewrite DecimalPos.Unsigned.of_to.
Qed.

Lemma digit_no_space (c : ascii) :
  PyStr.is_digit c = true -> PyStr.isspace c = false.
Proof.
  unfold PyStr.is_digit, PyStr.isspace. intros H.
  apply andb_true_iff in H. destruct H as [H1 H2].
  apply Nat.leb_le in H1, H2.
  repeat rewrite orb_false_iff. repeat split;
    try (apply andb_false_iff; (left; apply Nat.leb_gt; lia)
                               || (right; apply Nat.leb_gt; lia));
    apply Nat.eqb_neq; lia.
Qed.

Lemma str_int_token (n : Z) :
  PyStr.str_int n <> ""%string /\ no_space (PyStr.str_int n).
Proof.
  assert (Hd : forall d, d <> Decimal.Nil ->
                 NilEmpty.string_of_uint d <> ""%string
                 /\ no_space (NilEmpty.string_of_uint d)).
  { intros d Hne. split; [destruct d; simpl; congruence|].
    unfold no_space. eapply Forall_impl; [|apply digits_are_digits].
    intros c. apply digit_no_space. }
  unfold PyStr.str_int. destruct n as [|p|p].
  - split; [discriminate | repeat constructor].
  - simpl. pose proof (DecimalPos.Unsigned.to_uint_nonnil p) as Hp.
    unfold NilZero.string_of_uint.
    destruct (Pos.to_uint p) eqn:Hu; try congruence;
      rewrite <- Hu; apply Hd; congruence.
  - simpl. pose proof (DecimalPos.Unsigned.to_uint_nonnil p) as Hp.
    split; [discriminate|].
    unfold no_space. simpl. constructor; [reflexivity|].
    unfold NilZero.string_of_uint.
    destruct (Pos.to_uint p) eqn:Hu; try congruence;
      rewrite <- Hu; apply Hd; congruence.
Qed.

(** ** Reading the export back: one row *)

Section SignsOfExport.
Context {P : PermissionsClass}.

Lemma role_sign_of_export (value : Z) (acc : list Change * Z * Z)
  (n : string) (f : Z) :
  single_bit f ->
  role_sign value acc (FlagAttr f, n, role_symbol value (n, f)) = Ok acc.
Proof.
  intros Hf. unfold role_sign, role_symbol. cbn [snd flag_of bind].
  rewrite (has_flag_truthy value Hf).
  destruct (has_flag value f); reflexivity.
Qed.

Lemma overwrite_sign_of_export (overwrite : PermissionOverwrite)
  (acc : list Change * Z * Z * Z) (n : string) (f : Z) :
  single_bit f ->
  overwrite_sign (allow overwrite) (deny overwrite) acc
    (FlagAttr f, n, overwrite_symbol overwrite (n, f))
  = Ok acc.
Proof.
  intros Hf. unfold overwrite_sign, overwrite_symbol. cbn [snd flag_of bind].
  rewrite !(has_flag_truthy _ Hf).
  destruct (has_flag (allow overwrite) f); [reflexivity|].
  destruct (has_flag (deny overwrite) f); reflexivity.
Qed.

(** The signs the export writes for a role change nothing. *)
Lemma role_signs_unchanged (value : Z) (l : list (string * Z)) :
  Forall (fun nf => single_bit (snd nf)) l ->
  forall acc,
    foldM (role_sign value)
      (combine (map (fun nf => (FlagAttr (snd nf), fst nf)) l)
               (map (role_symbol value) l)) acc
    = Ok acc.
Proof.
  induction 1 as [|[n f] l Hf _ IH]; intros acc; [reflexivity|].
  simpl in Hf. cbn [map combine foldM fst snd].
  rewrite (role_sign_of_export value acc n Hf). apply IH.
Qed.

(** The signs the export writes for an overwrite change nothing. *)
Lemma overwrite_signs_unchanged (overwrite : PermissionOverwrite)
  (l : list (string * Z)) :
  Forall (fun nf => single_bit (snd nf)) l ->
  forall acc,
    foldM (overwrite_sign (allow overwrite) (deny overwrite))
      (combine (map (fun nf => (FlagAttr (snd nf), fst nf)) l)
               (map (overwrite_symbol overwrite) l)) acc
    = Ok acc.
Proof.
  induction 1 as [|[n f] l Hf _ IH]; intros acc; [reflexivity|].
  simpl in Hf. cbn [map combine foldM fst snd].
  rewrite (overwrite_sign_of_export overwrite acc n Hf). apply IH.
Qed.

Lemma export_role_symbols (role : Role.t) :
  export_role role
  = [""; ""; ("Role " ++ Role.name role)]%string
    ++ map (role_symbol (Role.permissions role)) VALID_FLAGS.
Proof.
  unfold export_role, Permissions_iter. now rewrite map_map.
Qed.

Lemma overwrite_symbols_map (overwrite : PermissionOverwrite) :
  overwrite_symbols overwrite = map (overwrite_symbol overwrite) VALID_FLAGS.
Proof.
  unfold overwrite_symbols, Permissions_iter.
  induction VALID_FLAGS as [|nf l IH]; simpl; [reflexivity|].
  now rewrite IH.
Qed.

Lemma role_changes_of_export (role : Role.t) :
  table_ok P ->
  role_changes (Role.permissions role) flag_columns
    (map (role_symbol (Role.permissions role)) VALID_FLAGS)
  = Ok ([], 0, 0).
Proof.
  intros [_ Hbits]. unfold role_changes, flag_columns.
  now apply role_signs_unchanged.
Qed.

Lemma overwrite_changes_of_export (overwrite : PermissionOverwrite) :
  table_ok P ->
  overwrite_changes (allow overwrite) (deny overwrite) flag_columns
    (overwrite_symbols overwrite)
  = Ok ([], 0, 0, 0).
Proof.
  intros [_ Hbits]. unfold overwrite_changes, flag_columns.
  rewrite overwrite_symbols_map. now apply overwrite_signs_unchanged.
Qed.

Lemma parse_flags_from_table (l : list (string * Z)) :
  Forall (fun nf => Permissions_getattr (fst nf) = Some (FlagAttr (snd nf))) l ->
  forall acc,
    foldM (fun flags perm =>
             match Permissions_getattr perm with
             | Some a => Ok (flags ++ [(a, perm)])
             | None => Raise (UserError (UnknownPermission perm))
             end) (map fst l) acc
    = Ok (acc ++ map (fun nf => (FlagAttr (snd nf), fst nf)) l).
Proof.
  induction 1 as [|[n f] l Hf _ IH]; intros acc; simpl.
  - now rewrite List.app_nil_r.
  - simpl in Hf. rewrite Hf. simpl. rewrite IH, <- List.app_assoc.
    reflexivity.
Qed.

(** The header of the export gives the flags of the table, in order. *)
Lemma parse_flags_of_export :
  table_ok P -> parse_flags (map fst VALID_FLAGS) = Ok flag_columns.
Proof.
  intros [Hattr _]. unfold parse_flags.
  now rewrite (parse_flags_from_table Hattr []).
Qed.

End SignsOfExport.

(** The lookup in a comprehension keyed by names that identify. *)
Lemma lookup_by_name {A : Type} (name : A -> string) (l : list A) (x : A) :
  NoDup (map name l) -> In x l ->
  PyDict.get String.eqb
    (PyDict.of_items String.eqb (map (fun a => (name a, a)) l)) (name x)
  = Some x.
Proof.
  intros Hnd Hin. apply in_split in Hin. destruct Hin as (l1 & l2 & Hl).
  rewrite Hl in Hnd |- *. rewrite map_app in Hnd |- *. simpl in Hnd |- *.
  apply of_items_last; [apply string_keys|].
  intros [n a] Hin. simpl. apply String.eqb_neq. intros ->.
  apply NoDup_remove_2 in Hnd. apply Hnd. apply in_or_app. right.
  apply in_map_iff in Hin. destruct Hin as (a' & [= Hn _] & Hin).
  rewrite <- Hn. now apply in_map.
Qed.

Lemma lookup_role (g : Guild.t) (r : Role.t) :
  guild_ok g -> In r (Guild.roles g) ->
  PyDict.get String.eqb (roles_by_name g) (Role.name r) = Some r.
Proof.
  intros Hg Hin. unfold roles_by_name.
  apply (lookup_by_name Role.name); [apply (role_names Hg) | exact Hin].
Qed.

Lemma lookup_member (g : Guild.t) (m : Member.t) :
  In m (Guild.members g) ->
  exists m', Guild.get_member g (Member.id m) = Some m'
             /\ Member.id m' = Member.id m.
Proof.
  intros Hin. destruct (Guild.get_member g (Member.id m)) as [m'|] eqn:Hget.
  - exists m'. split; [reflexivity|]. now apply get_member_id in Hget.
  - unfold Guild.get_member in Hget.
    apply (find_none _ _ Hget) in Hin. rewrite Z.eqb_refl in Hin. discriminate.
Qed.

Lemma label_nonempty (g : Guild.t) (c : Channel.t) :
  Channel.name c <> ""%string -> (label g c =? "")%string = false.
Proof.
  intros Hname. unfold label.
  destruct (Channel.name c) as [|a s]; [congruence|].
  now destruct (_ <? _)%nat.
Qed.

Lemma category_in_guild (g : Guild.t) (c cat : Channel.t) :
  category g c = Some cat -> In cat (Guild.channels g).
Proof.
  unfold category, Guild.get_channel.
  destruct (Channel.category_id c); [|discriminate].
  intros H. now apply find_some in H.
Qed.

Lemma channel_eqb_eq (g : Guild.t) (c c' : Channel.t) :
  NoDup (map Channel.id (Guild.channels g)) ->
  In c (Guild.channels g) -> In c' (Guild.channels g) ->
  Channel.eqb c c' = true -> c = c'.
Proof.
  intros Hnd Hc Hc' Heq. apply Z.eqb_eq in Heq.
  induction (Guild.channels g) as [|x l IH]; [destruct Hc|].
  simpl in Hnd. inversion Hnd as [|? ? Hnotin Hnd']; subst.
  destruct Hc as [-> | Hc], Hc' as [-> | Hc'].
  - reflexivity.
  - exfalso. apply Hnotin. rewrite Heq. now apply in_map.
  - exfalso. apply Hnotin. rewrite <- Heq. now apply in_map.
  - now apply IH.
Qed.

(** The export of a channel of a guild with distinct identifiers. *)
Lemma export_channel_rows `{PermissionsClass} (g : Guild.t) (c : Channel.t) :
  guild_ok g -> In c (Guild.channels g) ->
  export_channel g c = Ok (channel_rows g c).
Proof.
  intros Hg Hin. unfold export_channel, channel_rows, row_header.
  pose proof (channel_ids Hg) as Hids.
  rewrite (disambiguated_name_label g c Hids Hin).
  destruct (Channel.is_category c); simpl.
  - now destruct (Channel.permissions_synced c).
  - destruct (category g c) as [cat|] eqn:Hcat.
    + rewrite (disambiguated_name_label g cat Hids (category_in_guild _ _ Hcat)).
      simpl. now destruct (Channel.permissions_synced c).
    + simpl. now destruct (Channel.permissions_synced c).
Qed.

Lemma exportperms_rows `{PermissionsClass} (g : Guild.t) :
  guild_ok g ->
  exportperms g
  = Ok (export_header
        :: map export_role (Guild.roles g)
           ++ List.concat
                (map (channel_rows g)
                   (sorted key3_leb (channel_sort_key g) (Guild.channels g)))).
Proof.
  intros Hg. unfold exportperms.
  rewrite (mapM_ok _ (channel_rows g)); [reflexivity|].
  intros c Hin. apply export_channel_rows; [exact Hg|].
  now apply sorted_in in Hin.
Qed.

(** ** Reading the export back: the dictionary of the touched channels *)

Lemma get_eqb {K V : Type} (eqb : K -> K -> bool) (d : list (K * V)) (k k' : K) :
  KeyEquivalence eqb -> eqb k k' = true ->
  PyDict.get eqb d k = PyDict.get eqb d k'.
Proof.
  intros Hk Hkk. induction d as [|[k0 v0] d IH]; simpl; [reflexivity|].
  destruct (eqb k0 k) eqn:H0.
  - now rewrite (key_trans Hk _ _ _ H0 Hkk).
  - rewrite (key_sym Hk) in Hkk.
    assert (H0' : eqb k0 k' = false).
    { destruct (eqb k0 k') eqn:H1; [|reflexivity].
      rewrite (key_trans Hk _ _ _ H1 Hkk) in H0. discriminate. }
    now rewrite H0'.
Qed.

Lemma get_key {K V : Type} (eqb : K -> K -> bool) (d : list (K * V)) (k : K) :
  PyDict.contains eqb d k = true ->
  exists k0, In k0 (PyDict.keys d) /\ eqb k0 k = true.
Proof.
  unfold PyDict.contains. destruct (PyDict.get eqb d k) as [v|] eqn:Hget;
    [|discriminate].
  intros _. induction d as [|[k0 v0] d IH]; simpl in *; [discriminate|].
  destruct (eqb k0 k) eqn:H0.
  - exists k0. auto.
  - destruct (IH Hget) as (k1 & Hin & Hk1). exists k1. auto.
Qed.

Lemma in_set_value {K V : Type} (eqb : K -> K -> bool) (d : list (K * V))
  (k : K) (v : V) (x : K * V) :
  In x (PyDict.set eqb d k v) -> In x d \/ snd x = v.
Proof.
  induction d as [|[k0 v0] d IH]; simpl.
  - intros [<- | []]. now right.
  - destruct (eqb k0 k); simpl.
    + intros [<- | Hin]; [now right | left; now right].
    + intros [<- | Hin]; [left; now left|].
      destruct (IH Hin); [left; now right | now right].
Qed.

Section Touched.
Variable d : list (Channel.t * list (Target.t * Masks)).
Variable c : Channel.t.

Lemma entry_eqb (c' : Channel.t) :
  Channel.eqb c c' = true -> entry d c = entry d c'.
Proof.
  intros Heq. unfold entry. now rewrite (@get_eqb _ _ Channel.eqb d c c' channel_keys Heq).
Qed.

Lemma in_keys_touch (c' : Channel.t) :
  In c' (PyDict.keys (touch d c)) -> In c' (PyDict.keys d) \/ c' = c.
Proof.
  unfold touch. destruct (PyDict.contains Channel.eqb d c); [now left|].
  unfold PyDict.keys. rewrite map_app. intros Hin.
  apply in_app_or in Hin. destruct Hin as [Hin | [<- | []]]; auto.
Qed.

Lemma keys_touch_incl (c' : Channel.t) :
  In c' (PyDict.keys d) -> In c' (PyDict.keys (touch d c)).
Proof.
  unfold touch. destruct (PyDict.contains Channel.eqb d c); [auto|].
  unfold PyDict.keys. rewrite map_app. intros Hin.
  apply in_or_app. now left.
Qed.

Lemma contains_touch : PyDict.contains Channel.eqb (touch d c) c = true.
Proof.
  unfold touch. destruct (PyDict.contains Channel.eqb d c) eqn:Hc; [exact Hc|].
  unfold PyDict.contains in *. rewrite get_app.
  destruct (PyDict.get Channel.eqb d c); [discriminate|].
  simpl. unfold Channel.eqb. now rewrite Z.eqb_refl.
Qed.

Lemma entry_touch (c' : Channel.t) : entry (touch d c) c' = entry d c'.
Proof.
  unfold touch, entry. destruct (PyDict.contains Channel.eqb d c) eqn:Hc;
    [reflexivity|].
  rewrite get_app. destruct (PyDict.get Channel.eqb d c') eqn:Hget;
    [reflexivity|].
  simpl. now destruct (Channel.eqb c c').
Qed.

Lemma keys_store (t : Target.t) (m : Masks) :
  PyDict.keys (store_masks d c t m) = PyDict.keys (touch d c).
Proof.
  unfold store_masks. rewrite keys_set. now rewrite contains_touch.
Qed.

Lemma entry_store (t : Target.t) (m : Masks) (c' : Channel.t) :
  entry (store_masks d c t m) c'
  = if Channel.eqb c c' then PyDict.set Target.eqb (entry d c) t m
    else entry d c'.
Proof.
  unfold store_masks. unfold entry at 1.
  destruct (Channel.eqb c c') eqn:Heq.
  - rewrite (get_set_eq channel_keys _ _ _ _ Heq). now rewrite entry_touch.
  - rewrite (get_set_neq channel_keys _ _ _ _ Heq).
    fold (entry (touch d c) c'). apply entry_touch.
Qed.

End Touched.

Lemma in_add {K : Type} (eqb : K -> K -> bool) (s : list K) (k x : K) :
  In x (PyDict.add eqb s k) -> In x s \/ x = k.
Proof.
  unfold PyDict.add. destruct (PyDict.mem eqb s k); [now left|].
  intros Hin. apply in_app_or in Hin. destruct Hin as [Hin | [<- | []]]; auto.
Qed.

Lemma category_neq_same (x : option Channel.t) : category_neq x x = false.
Proof.
  destruct x as [c|]; simpl; [|reflexivity].
  unfold Channel.eqb. now rewrite Z.eqb_refl.
Qed.

(** ** Reading the export back: the state *)

Section RoundTripState.
Variable g : Guild.t.
Hypothesis Hg : guild_ok g.

Lemma rt_weaken (P Q : Channel.t -> Target.t -> Prop) (st : ImportState) :
  (forall c t, In c (Guild.channels g) -> P c t -> Q c t) ->
  round_trip_state g P st -> round_trip_state g Q st.
Proof.
  intros HPQ [Ho Ha Hm Hw Ht]. split; try assumption.
  intros c Hc. destruct (Ht c Hc) as (Hin & Hz & Hcov).
  repeat split; try assumption.
  intros t Hin'. destruct (Hcov t Hin'); [now left | right; now apply HPQ].
Qed.

Lemma rt_initial : round_trip_state g none_pending initial_state.
Proof. split; simpl; auto; intros c []. Qed.

Lemma rt_key (P : Channel.t -> Target.t -> Prop) (st : ImportState)
  (c : Channel.t) :
  round_trip_state g P st -> In c (Guild.channels g) ->
  PyDict.contains Channel.eqb (new_overwrites st) c = true ->
  In c (PyDict.keys (new_overwrites st)).
Proof.
  intros Hrt Hin Hc. apply get_key in Hc. destruct Hc as (k0 & Hk0 & Heq).
  destruct (rt_touched Hrt k0 Hk0) as (Hin0 & _).
  now rewrite <- (channel_eqb_eq g _ _ (channel_ids Hg) Hin0 Hin Heq).
Qed.

Lemma rt_entry_zero (P : Channel.t -> Target.t -> Prop) (st : ImportState)
  (c : Channel.t) :
  round_trip_state g P st -> In c (Guild.channels g) ->
  zero_masks (entry (new_overwrites st) c).
Proof.
  intros Hrt Hin.
  destruct (PyDict.contains Channel.eqb (new_overwrites st) c) eqn:Hc.
  - apply (rt_touched Hrt). eapply rt_key; eassumption.
  - unfold entry. unfold PyDict.contains in Hc.
    destruct (PyDict.get Channel.eqb (new_overwrites st) c);
      [discriminate | constructor].
Qed.

(** The header row of a synced channel. *)
Lemma rt_mark_synced (P : Channel.t -> Target.t -> Prop) (st : ImportState)
  (c : Channel.t) :
  In c (Guild.channels g) -> Channel.permissions_synced c = true ->
  round_trip_state g P st ->
  round_trip_state g P (add_want_sync (set_channel st c) c).
Proof.
  intros Hin Hs [Ho Ha Hm Hw Ht]. split; simpl; try assumption.
  intros c' Hc'. apply in_add in Hc'. destruct Hc' as [Hc' | ->]; auto.
Qed.

(** The header row of a channel that is not synced. *)
Lemma rt_touch (st : ImportState) (c : Channel.t)
  (pairs : list (Target.t * PermissionOverwrite)) :
  In c (Guild.channels g) ->
  (forall t, In t (PyDict.keys (Channel.overwrites c)) -> In t (map fst pairs)) ->
  round_trip_state g none_pending st ->
  round_trip_state g (pending_of c pairs)
    (set_new_overwrites (set_channel st c) (touch (new_overwrites st) c)).
Proof.
  intros Hin Hpairs Hrt. pose proof Hrt as [Ho Ha Hm Hw Ht].
  split; simpl; try assumption.
  intros c' Hc'. rewrite entry_touch. apply in_keys_touch in Hc'.
  destruct Hc' as [Hc' | ->].
  - destruct (Ht c' Hc') as (Hin' & Hz & Hcov). repeat split; try assumption.
    intros t Hin''. destruct (Hcov t Hin'') as [Hl | []]. now left.
  - repeat split; [exact Hin | eapply rt_entry_zero; eassumption |].
    intros t Hin'. right. split; [reflexivity | now apply Hpairs].
Qed.

(** The row of an overwrite of the channel. *)
Lemma rt_store (st : ImportState) (c : Channel.t)
  (p : Target.t * PermissionOverwrite)
  (pairs : list (Target.t * PermissionOverwrite)) (t' : Target.t) :
  In c (Guild.channels g) ->
  In c (PyDict.keys (new_overwrites st)) ->
  Target.eqb t' (fst p) = true ->
  round_trip_state g (pending_of c (p :: pairs)) st ->
  round_trip_state g (pending_of c pairs)
    (set_new_overwrites (set_channel st c)
       (store_masks (new_overwrites st) c t' (0, 0, 0)))
  /\ In c (PyDict.keys (store_masks (new_overwrites st) c t' (0, 0, 0))).
Proof.
  intros Hin Hkey Heq Hrt. pose proof Hrt as [Ho Ha Hm Hw Ht].
  split.
  - split; simpl; try assumption.
    intros c' Hc'. rewrite keys_store in Hc'. rewrite entry_store.
    apply in_keys_touch in Hc'.
    assert (Hin' : In c' (Guild.channels g))
      by (destruct Hc' as [Hc' | ->]; [apply (Ht c' Hc') | exact Hin]).
    split; [exact Hin'|].
    destruct (Channel.eqb c c') eqn:Hcc.
    + apply (channel_eqb_eq g _ _ (channel_ids Hg) Hin Hin') in Hcc. subst c'.
      destruct (Ht c Hkey) as (_ & Hz & Hcov). split.
      * unfold zero_masks. apply Forall_forall. intros x Hx.
        apply in_set_value in Hx. destruct Hx as [Hx | Hx]; [|exact Hx].
        unfold zero_masks in Hz. rewrite Forall_forall in Hz. now apply Hz.
      * intros t Hint. rewrite (contains_set target_keys).
        destruct (Hcov t Hint) as [Hl | [_ Hp]].
        -- left. now rewrite Hl.
        -- simpl in Hp. destruct Hp as [<- | Hp].
           ++ left. rewrite Heq. apply orb_true_r.
           ++ right. split; [reflexivity | exact Hp].
    + destruct Hc' as [Hc' | ->];
        [|unfold Channel.eqb in Hcc; rewrite Z.eqb_refl in Hcc; discriminate].
      destruct (Ht c' Hc') as (_ & Hz & Hcov). split; [exact Hz|].
      intros t Hint. destruct (Hcov t Hint) as [Hl | [-> _]]; [now left|].
      unfold Channel.eqb in Hcc. rewrite Z.eqb_refl in Hcc. discriminate.
  - rewrite keys_store. now apply keys_touch_incl.
Qed.

End RoundTripState.

(** ** Reading the export back: the rows *)

Lemma find_by_id (l : list (Target.t * PermissionOverwrite))
  (t : Target.t) (ow : PermissionOverwrite) :
  NoDup (map (fun to : Target.t * PermissionOverwrite => Target.id (fst to)) l) ->
  In (t, ow) l ->
  find (fun to : Target.t * PermissionOverwrite =>
          Target.id (fst to) =? Target.id t) l
  = Some (t, ow).
Proof.
  induction l as [|[t0 ow0] l IH]; simpl; intros Hnd Hin; [destruct Hin|].
  inversion Hnd as [|? ? Hnotin Hnd']; subst.
  destruct Hin as [[= -> ->] | Hin].
  - now rewrite Z.eqb_refl.
  - destruct (Z.eqb_spec (Target.id t0) (Target.id t)) as [Heq | _];
      [|now apply IH].
    exfalso. apply Hnotin. rewrite Heq.
    apply (in_map (fun to : Target.t * PermissionOverwrite =>
                     Target.id (fst to)) l (t, ow) Hin).
Qed.

Lemma numbered_cons (start : nat) (row : list string)
  (rows : list (list string)) :
  numbered start (row :: rows) = (start, row) :: numbered (S start) rows.
Proof. reflexivity. Qed.

Lemma numbered_app (rows rows' : list (list string)) :
  forall start,
    numbered start (rows ++ rows')
    = numbered start rows ++ numbered (start + List.length rows) rows'.
Proof.
  induction rows as [|row rows IH]; intros start; simpl.
  - now rewrite Nat.add_0_r.
  - rewrite !numbered_cons, IH. simpl. now rewrite Nat.add_succ_r.
Qed.

Lemma descriptor_is_target (t : Target.t) :
  (target_descriptor t =? "(synced)")%string = false
  /\ (target_descriptor t =? "")%string = false.
Proof. destruct t; split; reflexivity. Qed.

Section RowsOfExport.
Context {P : PermissionsClass}.
Variable g : Guild.t.
Hypothesis Htable : table_ok P.
Hypothesis Hg : guild_ok g.

Let chs : list (string * Channel.t) :=
  PyDict.of_items String.eqb
    (map (fun c => (label g c, c)) (Guild.channels g)).

Lemma import_role_row_of_export (r : Role.t) (line : nat) (st : ImportState) :
  In r (Guild.roles g) ->
  import_row g chs (roles_by_name g) flag_columns st (line, export_role r)
  = Ok st.
Proof.
  intros Hin. rewrite export_role_symbols. cbn [app].
  unfold import_row. cbn [row_columns String.eqb andb].
  unfold import_role_row.
  change (PyStr.startswith ("Role " ++ Role.name r) "Role ") with true.
  change (PyStr.removeprefix ("Role " ++ Role.name r) "Role ")
    with (Role.name r).
  cbn [negb]. rewrite (@lookup_role g r Hg Hin). cbn [skipn].
  rewrite (@role_changes_of_export P r Htable). reflexivity.
Qed.

Lemma resolve_channel_of_export (c : Channel.t) (line : nat) :
  In c (Guild.channels g) ->
  exists h0 h1,
    row_header g c = [h0; h1]
    /\ ((h0 =? "")%string && (h1 =? "")%string = false)
    /\ resolve_channel chs line h0 h1
       = Ok (if Channel.is_category c then None else category g c, c).
Proof.
  intros Hin. unfold row_header, resolve_channel.
  pose proof (channel_names Hg) as Hnames. rewrite Forall_forall in Hnames.
  pose proof (label_nonempty g c (Hnames c Hin)) as Hlabel.
  pose proof (lookup_label g c (channel_labels Hg) Hin) as Hlookup.
  fold chs in Hlookup.
  destruct (Channel.is_category c) eqn:Hkind.
  - exists (label g c), ""%string. split; [reflexivity|].
    split; [now rewrite Hlabel|].
    cbn [String.eqb]. now rewrite Hlookup, Hkind.
  - exists (match category g c with
            | Some cat => label g cat
            | None => ""%string
            end), (label g c).
    split; [reflexivity|]. split; [rewrite Hlabel; apply andb_false_r|].
    rewrite Hlabel.
    destruct (category g c) as [cat|] eqn:Hcat.
    + pose proof (category_in_guild _ _ Hcat) as Hcin.
      rewrite (label_nonempty g cat (Hnames cat Hcin)).
      pose proof (lookup_label g cat (channel_labels Hg) Hcin) as Hlc.
      fold chs in Hlc. rewrite Hlc.
      pose proof (parents Hg) as Hpar. rewrite Forall_forall in Hpar.
      specialize (Hpar c Hin). rewrite Hcat in Hpar. rewrite Hpar.
      cbn [negb bind]. now rewrite Hlookup, Hkind.
    + cbn [String.eqb bind]. now rewrite Hlookup, Hkind.
Qed.

(** A row of the channel [c]: its two leading columns resolve to [c] in
    its own category, so that no move is noted. *)
Lemma import_channel_row_of_export (c : Channel.t) (line : nat)
  (st : ImportState) (r2 : string) (rest : list string) :
  In c (Guild.channels g) ->
  import_row g chs (roles_by_name g) flag_columns st
    (line, row_header g c ++ r2 :: rest)
  = if (r2 =? "(synced)")%string && negb (Channel.is_category c)
    then Ok (add_want_sync (set_channel st c) c)
    else if negb (r2 =? "")%string then
      target <- resolve_target g (roles_by_name g) line r2 ;;
      '(changes, add_mask, remove_mask, reset_mask) <-
        overwrite_changes (allow (overwrites_for c target))
          (deny (overwrites_for c target)) flag_columns rest ;;
      let st1 := match changes with
                 | [] => set_channel st c
                 | _ => append_output (set_channel st c)
                          (OverwriteNote c target changes)
                 end in
      Ok (set_new_overwrites st1
            (store_masks (new_overwrites st1) c target
               (add_mask, remove_mask, reset_mask)))
    else
      Ok (set_new_overwrites (set_channel st c)
            (touch (new_overwrites st) c)).
Proof.
  intros Hin.
  destruct (@resolve_channel_of_export c line Hin)
    as (h0 & h1 & Hheader & Hnames & Hresolve).
  rewrite Hheader. cbn [app]. unfold import_row. cbn [row_columns].
  rewrite Hnames. unfold import_channel_row. rewrite Hresolve.
  cbn [bind skipn].
  replace (negb (Channel.is_category c)
           && category_neq (category g c)
                (if Channel.is_category c then None else category g c))
    with false; [reflexivity|].
  destruct (Channel.is_category c); [reflexivity|].
  now rewrite category_neq_same.
Qed.

Lemma resolve_target_of_export (c : Channel.t) (line : nat)
  (t : Target.t) (ow : PermissionOverwrite) :
  In c (Guild.channels g) -> In (t, ow) (Channel.overwrites c) ->
  exists t',
    resolve_target g (roles_by_name g) line (target_descriptor t) = Ok t'
    /\ Target.eqb t' t = true
    /\ overwrites_for c t' = ow.
Proof.
  intros Hin Hto.
  pose proof (targets Hg) as Htargets. rewrite Forall_forall in Htargets.
  specialize (Htargets c Hin). rewrite Forall_forall in Htargets.
  specialize (Htargets (t, ow) Hto). simpl in Htargets.
  pose proof (target_ids Hg) as Hids. rewrite Forall_forall in Hids.
  specialize (Hids c Hin).
  assert (Hfor : forall t', Target.id t' = Target.id t ->
                            overwrites_for c t' = ow).
  { intros t' Hid. unfold overwrites_for. rewrite Hid.
    now rewrite (@find_by_id _ t ow Hids Hto). }
  destruct t as [r|m].
  - exists (Target.OfRole r). split; [|split].
    + unfold resolve_target, target_descriptor.
      change (PyStr.startswith ("Role " ++ Role.name r) "Role ") with true.
      change (PyStr.removeprefix ("Role " ++ Role.name r) "Role ")
        with (Role.name r).
      cbv iota. now rewrite (@lookup_role g r Hg Htargets).
    + apply (key_refl target_keys).
    + now apply Hfor.
  - destruct (lookup_member g m Htargets) as (m' & Hget & Hid).
    exists (Target.OfMember m'). split; [|split].
    + unfold target_descriptor.
      destruct (str_int_token (Member.id m)) as [Hne Hns].
      unfold resolve_target.
      change (PyStr.startswith
                ("User " ++ PyStr.str_int (Member.id m) ++ " " ++ Member.name m)
                "Role ") with false.
      change (PyStr.startswith
                ("User " ++ PyStr.str_int (Member.id m) ++ " " ++ Member.name m)
                "User ") with true.
      change (PyStr.removeprefix
                ("User " ++ PyStr.str_int (Member.id m) ++ " " ++ Member.name m)
                "User ")
        with (PyStr.str_int (Member.id m) ++ " " ++ Member.name m)%string.
      cbv iota.
      rewrite (@split_first_token (PyStr.str_int (Member.id m))
                 (" " ++ Member.name m) Hne Hns
                 (or_intror (ex_intro _ " "%char
                               (ex_intro _ (Member.name m)
                                  (conj eq_refl eq_refl))))).
      cbn [bind].
      now rewrite int_str_int, Hget.
    + simpl. unfold Member.eqb. rewrite Hid. apply Z.eqb_refl.
    + apply Hfor. exact Hid.
Qed.

Lemma role_rows_of_export (rs : list Role.t) :
  (forall r, In r rs -> In r (Guild.roles g)) ->
  forall start st,
    foldM (import_row g chs (roles_by_name g) flag_columns)
      (numbered start (map export_role rs)) st
    = Ok st.
Proof.
  induction rs as [|r rs IH]; intros Hrs start st; [reflexivity|].
  cbn [map]. rewrite numbered_cons. cbn [foldM].
  rewrite import_role_row_of_export by (apply Hrs; now left).
  cbn [bind]. apply IH. intros r' Hr'. apply Hrs. now right.
Qed.

Lemma overwrite_rows_of_export (c : Channel.t)
  (pairs : list (Target.t * PermissionOverwrite)) :
  In c (Guild.channels g) ->
  (forall p, In p pairs -> In p (Channel.overwrites c)) ->
  forall start st,
    round_trip_state g (pending_of c pairs) st ->
    In c (PyDict.keys (new_overwrites st)) ->
    exists st',
      foldM (import_row g chs (roles_by_name g) flag_columns)
        (numbered start (map (overwrite_row (row_header g c)) pairs)) st
      = Ok st'
      /\ round_trip_state g none_pending st'.
Proof.
  intros Hin. induction pairs as [|[t ow] pairs IH];
    intros Hpairs start st Hrt Hkey.
  - exists st. split; [reflexivity|].
    eapply rt_weaken; [|exact Hrt]. intros c' t' _ [_ []].
  - cbn [map]. rewrite numbered_cons. cbn [foldM].
    unfold overwrite_row at 1. cbn [fst snd app].
    rewrite (@import_channel_row_of_export c start st _ _ Hin).
    destruct (descriptor_is_target t) as [Hs He]. rewrite Hs, He.
    cbn [andb negb].
    destruct (@resolve_target_of_export c start t ow Hin
                (Hpairs (t, ow) (or_introl eq_refl)))
      as (t' & Hresolve & Heq & Hfor).
    rewrite Hresolve. cbn [bind]. rewrite Hfor.
    rewrite (@overwrite_changes_of_export P ow Htable). cbn [bind].
    destruct (@rt_store g Hg st c (t, ow) pairs t' Hin Hkey Heq Hrt) as [Hrt' Hkey'].
    apply IH; try assumption.
    intros p Hp. apply Hpairs. now right.
Qed.

Lemma channel_rows_of_export (c : Channel.t) :
  In c (Guild.channels g) ->
  forall start st,
    round_trip_state g none_pending st ->
    exists st',
      foldM (import_row g chs (roles_by_name g) flag_columns)
        (numbered start (channel_rows g c)) st
      = Ok st'
      /\ round_trip_state g none_pending st'.
Proof.
  intros Hin start st Hrt. unfold channel_rows.
  rewrite numbered_cons. cbn [foldM].
  rewrite (@import_channel_row_of_export c start st _ _ Hin).
  pose proof (synced_channels Hg) as Hsynced.
  rewrite Forall_forall in Hsynced. specialize (Hsynced c Hin).
  destruct (Channel.permissions_synced c) eqn:Hs.
  - destruct Hsynced as [Hkind _]. rewrite Hkind. cbn [String.eqb andb negb bind].
    replace ("(synced)" =? "(synced)")%string with true by reflexivity.
    cbn [andb bind]. eexists. split; [reflexivity|].
    now apply rt_mark_synced.
  - replace ("" =? "(synced)")%string with false by reflexivity.
    replace ("" =? "")%string with true by reflexivity.
    cbn [andb negb bind].
    set (pairs := sorted Z.leb (overwrite_sort_key g) (Channel.overwrites c)).
    assert (Hrt' : round_trip_state g (pending_of c pairs)
                     (set_new_overwrites (set_channel st c)
                        (touch (new_overwrites st) c))).
    { apply rt_touch; try assumption.
      intros t Ht. unfold PyDict.keys in Ht. apply in_map_iff in Ht.
      destruct Ht as (p & <- & Hp). apply in_map. now apply sorted_in. }
    apply overwrite_rows_of_export; try assumption.
    + intros p Hp. now apply sorted_in in Hp.
    + eapply rt_key; [exact Hg | exact Hrt' | exact Hin |]. simpl.
      apply contains_touch.
Qed.

Lemma channels_rows_of_export (cs : list Channel.t) :
  (forall c, In c cs -> In c (Guild.channels g)) ->
  forall start st,
    round_trip_state g none_pending st ->
    exists st',
      foldM (import_row g chs (roles_by_name g) flag_columns)
        (numbered start (List.concat (map (channel_rows g) cs))) st
      = Ok st'
      /\ round_trip_state g none_pending st'.
Proof.
  induction cs as [|c cs IH]; intros Hcs start st Hrt.
  - exists st. split; [reflexivity | exact Hrt].
  - cbn [map List.concat]. rewrite numbered_app, foldM_app.
    destruct (@channel_rows_of_export c (Hcs c (or_introl eq_refl)) start st Hrt)
      as (st1 & Hrows & Hrt1).
    rewrite Hrows. cbn [bind]. apply IH; [|exact Hrt1].
    intros c' Hc'. apply Hcs. now right.
Qed.

(** The rows of the export, read from the initial state. *)
Lemma first_pass_of_export :
  exists st,
    first_pass g chs (roles_by_name g) flag_columns
      (map export_role (Guild.roles g)
       ++ List.concat
            (map (channel_rows g)
               (sorted key3_leb (channel_sort_key g) (Guild.channels g))))
    = Ok st
    /\ round_trip_state g none_pending st.
Proof.
  unfold first_pass.
  change (combine (seq 2 (List.length ?rows)) ?rows) with (numbered 2 rows).
  rewrite numbered_app, foldM_app.
  rewrite role_rows_of_export by auto. cbn [bind].
  apply channels_rows_of_export; [|apply rt_initial].
  intros c Hc. now apply sorted_in in Hc.
Qed.

End RowsOfExport.

(** ** Reading the export back: the loops after the rows *)

Lemma zero_masks_idle (e : list (Target.t * Masks)) :
  zero_masks e -> existsb masks_nonzero (PyDict.values e) = false.
Proof.
  unfold zero_masks, PyDict.values. induction 1 as [|[t m] e Hm _ IH];
    simpl; [reflexivity|].
  simpl in Hm. subst m. exact IH.
Qed.

Lemma covered_idle (e : list (Target.t * Masks)) (targets : list Target.t) :
  (forall t, In t targets -> PyDict.contains Target.eqb e t = true) ->
  filter (fun t => negb (PyDict.contains Target.eqb e t)) targets = []
  /\ existsb (fun t => negb (PyDict.contains Target.eqb e t)) targets = false.
Proof.
  intros Hcov. split.
  - apply filter_none. intros t Ht. now rewrite (Hcov t Ht).
  - destruct (existsb _ targets) eqn:He; [|reflexivity].
    apply existsb_exists in He. destruct He as (t & Ht & Hneg).
    rewrite (Hcov t Ht) in Hneg. discriminate.
Qed.

(** When every touched channel has zero masks and all its live targets,
    the second loop notes nothing and changes no set; the actions it
    appends are overwrite edits of touched channels. *)
Lemma overwrite_loop_idle (l : list Channel.t) :
  forall st,
    (l = [] \/ channel st <> None) ->
    (forall chan, In chan l ->
       zero_masks (entry (new_overwrites st) chan)
       /\ forall t, In t (PyDict.keys (Channel.overwrites chan)) ->
            PyDict.contains Target.eqb (entry (new_overwrites st) chan) t
            = true) ->
    exists st' l',
      foldM overwrite_step l st = Ok st'
      /\ output st' = output st
      /\ actions st' = actions st ++ map EditOverwrites l'
      /\ incl l' l
      /\ new_overwrites st' = new_overwrites st
      /\ want_sync st' = want_sync st
      /\ seen_moved st' = seen_moved st
      /\ forall c,
           PyDict.mem Channel.eqb (overwrites_changed st') c
           = PyDict.mem Channel.eqb (overwrites_changed st) c.
Proof.
  induction l as [|chan l IH]; intros st Hch Hidle.
  - exists st, []. simpl. rewrite List.app_nil_r.
    repeat split; try reflexivity. apply incl_refl.
  - destruct Hch as [Hch | Hch]; [discriminate|].
    destruct (channel st) as [c0|] eqn:Hc0; [clear Hch | congruence].
    destruct (PyDict.mem Channel.eqb (want_sync st) c0) eqn:Hw.
    + cbn [foldM]. unfold overwrite_step at 1. rewrite Hc0, Hw. cbn [bind].
      destruct (IH st) as (st' & l' & Hfold & Ho & Ha & Hincl & Hrest).
      * right. congruence.
      * intros x Hx. apply Hidle. now right.
      * exists st', l'. split; [exact Hfold|]. split; [exact Ho|].
        split; [exact Ha|]. split; [|exact Hrest].
        intros x Hx. right. now apply Hincl.
    + destruct (overwrite_step_run st chan Hc0 Hw)
        as (st1 & Hrun & Ha1 & Hn1 & Hw1 & Hm1 & Hc1 & Ho1 & Hoc1).
      destruct (Hidle chan (or_introl eq_refl)) as [Hzero Hcov].
      destruct (covered_idle _ _ Hcov) as [Hnone Hnoremoval].
      assert (Hchanged : changed st chan = false).
      { unfold changed, has_nonzero_mask, has_removal.
        now rewrite (zero_masks_idle Hzero), Hnoremoval. }
      cbn [foldM]. rewrite Hrun. cbn [bind].
      destruct (IH st1) as (st' & l' & Hfold & Ho & Ha & Hincl & Hn & Hws & Hm & Hoc).
      * right. congruence.
      * intros x Hx. rewrite Hn1. apply Hidle. now right.
      * exists st', (chan :: l'). split; [exact Hfold|].
        repeat split; try congruence.
        -- rewrite Ho, Ho1. unfold removed_targets. rewrite Hnone. simpl.
           apply List.app_nil_r.
        -- rewrite Ha, Ha1, <- List.app_assoc. reflexivity.
        -- intros x [<- | Hx]; [now left | right; now apply Hincl].
        -- intros c. rewrite Hoc, Hoc1, Hchanged.
           now rewrite andb_false_r, orb_false_r.
Qed.

(** When no marked channel is due, the third loop changes neither the
    notes nor the actions. *)
Lemma sync_loop_idle (g : Guild.t) (l : list Channel.t) :
  forall st,
    (forall c, In c l ->
       Channel.is_category c = false
       /\ new_category g st c <> None
       /\ sync_due g st c = false) ->
    exists st',
      foldM (sync_step g) l st = Ok st'
      /\ output st' = output st
      /\ actions st' = actions st
      /\ new_overwrites st' = new_overwrites st.
Proof.
  induction l as [|chan l IH]; intros st Hidle.
  - exists st. repeat split.
  - destruct (Hidle chan (or_introl eq_refl)) as (Hkind & Hcat & Hdue).
    destruct (new_category g st chan) as [cat|] eqn:Hnew; [|congruence].
    destruct (sync_step_run g st chan Hkind Hnew)
      as (st1 & Hstep & Ha & Ho & Hm & Hoc & _ & Hn).
    rewrite Hdue, List.app_nil_r in Ha, Ho.
    cbn [foldM]. rewrite Hstep. cbn [bind].
    destruct (IH st1) as (st' & Hfold & Ho' & Ha' & Hn').
    + intros c Hc. destruct (Hidle c (or_intror Hc)) as (Hk & Hcc & Hd).
      destruct (sync_due_same g st st1 c Hm Hoc) as [-> ->]. auto.
    + exists st'. repeat split; congruence.
Qed.

(** ** Reading the export back *)

Lemma check_header_of_export `{PermissionsClass} :
  check_header export_header = Ok tt
  /\ skipn 3 export_header = map fst VALID_FLAGS.
Proof. split; reflexivity. Qed.

(** C1, as the code has it. In a guild that is well formed and whose names
    identify (no two roles of one name, no two channels of one label), with
    a permissions class whose flags are single bits, the export succeeds
    and the import of its rows succeeds with no change note, so that
    "No changes." is reported and no action is run. The import does
    schedule actions: overwrite edits of channels of the guild, all of
    whose masks are zero. *)
Theorem export_import_round_trip `{PermissionsClass} (g : Guild.t) :
  table_ok H -> guild_ok g ->
  exists rows st,
    exportperms g = Ok rows
    /\ importperms g rows = Ok st
    /\ output st = []
    /\ (forall confirmed, executed_actions st confirmed = [])
    /\ Forall (fun a => exists c,
                 a = EditOverwrites c
                 /\ In c (Guild.channels g)
                 /\ zero_masks (entry (new_overwrites st) c))
         (actions st).
Proof.
  intros Htable Hg.
  destruct (first_pass_of_export Htable Hg) as (st1 & Hfirst & Hrt).
  pose proof (first_pass_invariant _ _ _ _ _ Hfirst) as Hinv.
  destruct Hrt as [Ho1 Ha1 Hm1 Hw1 Ht1].
  destruct (@overwrite_loop_idle (PyDict.keys (new_overwrites st1)) st1)
    as (st2 & l2 & Hsecond & Ho2 & Ha2 & Hincl & Hn2 & Hw2 & Hm2 & Hoc2).
  { destruct (new_overwrites st1) as [|kv d] eqn:Hd; [now left|].
    right. apply (inv_channel Hinv). congruence. }
  { intros chan Hchan. destruct (Ht1 chan Hchan) as (_ & Hz & Hcov).
    split; [exact Hz|]. intros t Hin. now destruct (Hcov t Hin). }
  destruct (@sync_loop_idle g (want_sync st2) st2)
    as (st3 & Hthird & Ho3 & Ha3 & Hn3).
  { intros c Hc. rewrite Hw2 in Hc. destruct (Hw1 c Hc) as [Hin Hsynced].
    pose proof (synced_channels Hg) as Hs. rewrite Forall_forall in Hs.
    specialize (Hs c Hin). rewrite Hsynced in Hs. destruct Hs as [Hkind Hcat].
    assert (Hnew : new_category g st2 c = category g c)
      by (unfold new_category; now rewrite Hm2, Hm1).
    split; [exact Hkind|]. split; [now rewrite Hnew|].
    unfold sync_due. rewrite Hnew, Hsynced, Hm2, Hm1. cbn [negb orb].
    destruct (category g c) as [cat|]; [|reflexivity].
    rewrite Hoc2, (inv_unchanged Hinv). reflexivity. }
  eexists. exists st3. split; [apply (exportperms_rows Hg)|].
  split.
  - unfold importperms.
    rewrite (channels_by_name_labels g (channel_ids Hg)). cbn [bind].
    destruct check_header_of_export as [-> ->]. cbn [bind].
    rewrite (parse_flags_of_export Htable). cbn [bind].
    rewrite Hfirst. cbn [bind]. unfold second_pass. rewrite Hsecond.
    cbn [bind]. exact Hthird.
  - assert (Hout : output st3 = []) by congruence.
    split; [exact Hout|]. split.
    + intros confirmed. unfold executed_actions. now rewrite Hout.
    + rewrite Ha3, Ha2, Ha1. cbn [app]. apply Forall_forall.
      intros a Ha. apply in_map_iff in Ha. destruct Ha as (c & <- & Hc).
      apply Hincl in Hc. destruct (Ht1 c Hc) as (Hin & Hz & _).
      exists c. rewrite Hn3, Hn2. auto.
Qed.

Lemma sample_table_ok : table_ok Sample.permissions.
Proof.
  split.
  - repeat constructor.
  - repeat (constructor; [split; [vm_compute; discriminate | reflexivity]|]).
    constructor.
Qed.

Lemma sample_guild_ok : guild_ok Sample.guild.
Proof.
  split.
  - vm_compute. nodup_concrete.
  - vm_compute. nodup_concrete.
  - repeat (constructor; [discriminate|]). constructor.
  - vm_compute. nodup_concrete.
  - repeat (constructor; [vm_compute; auto|]). constructor.
  - repeat (constructor;
            [vm_compute; auto; try (split; [reflexivity | discriminate])|]).
    constructor.
  - repeat (constructor; [repeat (constructor; [simpl; auto|]); constructor|]).
    constructor.
  - repeat (constructor; [vm_compute; nodup_concrete|]). constructor.
Qed.

Lemma export_import_round_trip_witness :
  exists rows st,
    exportperms (P := Sample.permissions) Sample.guild = Ok rows
    /\ importperms (P := Sample.permissions) Sample.guild rows = Ok st
    /\ output st = []
    /\ (forall confirmed, executed_actions st confirmed = [])
    /\ Forall (fun a => exists c,
                 a = EditOverwrites c
                 /\ In c (Guild.channels Sample.guild)
                 /\ zero_masks (entry (new_overwrites st) c))
         (actions st).
Proof.
  exact (@export_import_round_trip Sample.permissions Sample.guild
           sample_table_ok sample_guild_ok).
Defined.

(** The import of the unmodified export of the sample guild schedules two
    actions: the overwrite edits of the category and of the channel that
    is not synced. *)
Lemma round_trip_schedules_actions :
  exists rows st,
    exportperms (P := Sample.permissions) Sample.guild = Ok rows
    /\ importperms (P := Sample.permissions) Sample.guild rows = Ok st
    /\ actions st
       = [EditOverwrites Sample.lobby;
          EditOverwrites (Sample.general 200 false)]
    /\ actions st <> [].
Proof.
  eexists. eexists. split; [vm_compute; reflexivity|].
  split; [vm_compute; reflexivity|].
  split; [reflexivity | discriminate].
Qed.

(** Two roles of one name: the import resolves both rows to the second
    role, so the unmodified export gives a note and an edit that takes the
    administrator flag away from it. *)
Lemma same_name_roles_change :
  exists rows st,
    exportperms (P := Sample.permissions) Sample.twins = Ok rows
    /\ importperms (P := Sample.permissions) Sample.twins rows = Ok st
    /\ output st
       = [RoleNote {| Role.id := 2; Role.name := "Mod"; Role.permissions := 8 |}
            [Denied "administrator"]]
    /\ executed_actions st true
       = [EditRole {| Role.id := 2; Role.name := "Mod"; Role.permissions := 8 |}
            0 8].
Proof.
  eexists. eexists. split; [vm_compute; reflexivity|].
  split; [vm_compute; reflexivity|].
  split; vm_compute; reflexivity.
Qed.

(** * Further properties of the importer and the exporter *)

(** ** Rows that fail *)



(** ** The header *)

(** The three leading columns of the header decide: when they are not
    [Category], [Channel], [Role/User] the import stops with
    [InvalidHeader]; when they are and some later column names no
    attribute of the permissions class, it stops with [UnknownPermission]
    of the first such column. Neither depends on the rows that follow. *)
Theorem header_rejections `{PermissionsClass} (g : Guild.t)
  (header : list string) (data : list (list string)) :
  (check_header header <> Ok tt ->
   importperms g (header :: data) = Raise (UserError InvalidHeader))
  /\ (forall before perm after,
        header = "Category"%string :: "Channel"%string :: "Role/User"%string
                 :: before ++ perm :: after ->
        (forall p, In p before -> Permissions_getattr p <> None) ->
        Permissions_getattr perm = None ->
        importperms g (header :: data)
        = Raise (UserError (UnknownPermission perm))).
Proof.
  split.
  - intros Hbad. apply invalid_header_raises.
    destruct (check_header_cases header) as [(perms & _ & Hok) | Hraise];
      [congruence | exact Hraise].
  - intros before perm after -> Hbefore Hperm.
    now apply unknown_permission_raises.
Qed.

Lemma header_rejections_witness :
  importperms (P := Sample.permissions) Sample.guild
    (["Category"; "Channels"; "Role/User"]%string :: Sample.lobby_rows)
  = Raise (UserError InvalidHeader)
  /\ importperms (P := Sample.permissions) Sample.guild
       (("Category"%string :: "Channel"%string :: "Role/User"%string
         :: ["stream"%string] ++ "fly"%string :: ["speak"%string])
        :: Sample.lobby_rows)
     = Raise (UserError (UnknownPermission "fly")).
Proof.
  split.
  - apply (proj1 (@header_rejections Sample.permissions Sample.guild
                    ["Category"; "Channels"; "Role/User"]%string
                    Sample.lobby_rows)).
    discriminate.
  - apply (proj2 (@header_rejections Sample.permissions Sample.guild _
                    Sample.lobby_rows) ["stream"%string] "fly"%string
             ["speak"%string] eq_refl).
    + intros p [<- | []]. discriminate.
    + reflexivity.
Defined.

(** ** Labels *)

(** The lookup of the index in [disambiguated_name] cannot fail on a
    channel of the guild, and the dictionary of the channels by label is
    built for every guild. *)
Theorem disambiguated_name_never_raises (g : Guild.t) :
  (forall c, In c (Guild.channels g) ->
             exists n, disambiguated_name g c = Ok n)
  /\ exists channels, channels_by_name g = Ok channels.
Proof.
  split; [intros c; apply disambiguated_name_total
         | apply channels_by_name_total].
Qed.

(** ** The loop over the touched channels *)

(** When the variable [channel] is left on a channel that is marked
    synced, the second loop skips every touched channel: it returns the
    state as it was, with no removal noted and no edit scheduled. *)
Theorem second_pass_skipped (st : ImportState) (c0 : Channel.t) :
  channel st = Some c0 ->
  PyDict.mem Channel.eqb (want_sync st) c0 = true ->
  second_pass st = Ok st.
Proof.
  intros Hc Hw. unfold second_pass.
  induction (PyDict.keys (new_overwrites st)) as [|chan l IH];
    [reflexivity|].
  cbn [foldM]. unfold overwrite_step at 1. rewrite Hc, Hw. exact IH.
Qed.

Lemma second_pass_skipped_witness :
  second_pass Sample.skipped_state = Ok Sample.skipped_state.
Proof.
  apply (@second_pass_skipped Sample.skipped_state (Sample.general 100 true));
    reflexivity.
Defined.

(** ** The state after the rows *)

(** Whatever rows are read without error, the loop over the rows schedules
    only role edits and moves, marks no category for syncing and no
    channel twice, touches no channel twice, and leaves the set of changed
    channels empty. *)
Theorem rows_keep_invariant (g : Guild.t)
  (channels : list (string * Channel.t)) (roles : list (string * Role.t))
  (flags : list (PermAttr * string)) (data : list (list string))
  (st : ImportState) :
  first_pass g channels roles flags data = Ok st ->
  Forall row_action (actions st)
  /\ Forall (fun c => Channel.is_category c = false) (want_sync st)
  /\ distinct Channel.eqb (want_sync st)
  /\ distinct Channel.eqb (PyDict.keys (new_overwrites st))
  /\ overwrites_changed st = [].
Proof.
  intros Hfirst. apply first_pass_invariant in Hfirst.
  destruct Hfirst. auto.
Qed.

Lemma rows_keep_invariant_witness :
  Forall row_action (actions Sample.skipped_state)
  /\ Forall (fun c => Channel.is_category c = false)
       (want_sync Sample.skipped_state)
  /\ distinct Channel.eqb (want_sync Sample.skipped_state)
  /\ distinct Channel.eqb (PyDict.keys (new_overwrites Sample.skipped_state))
  /\ overwrites_changed Sample.skipped_state = [].
Proof.
  apply (@rows_keep_invariant Sample.guild Sample.channels Sample.roles []
           Sample.skipped_rows).
  reflexivity.
Defined.

Lemma disambiguated_name_never_raises_witness :
  exists n, disambiguated_name Sample.clash (Sample.plain 200 "general") = Ok n.
Proof.
  apply (proj1 (disambiguated_name_never_raises Sample.clash)).
  right. now left.
Defined.

(** ** Messages that are sent *)

Lemma send_loop_nonempty (output : list string) :
  forall text,
    text <> ""%string ->
    Forall (fun note => note <> ""%string) output ->
    Forall (fun m => m <> ""%string) (send_loop text output).
Proof.
  induction output as [|out rest IH]; intros text Htext Hall; cbn [send_loop].
  - constructor; [exact Htext | constructor].
  - inversion Hall as [|? ? Hout Hrest]; subst.
    destruct (2000 <? _)%nat.
    + constructor; [exact Htext | now apply IH].
    + apply IH; [|exact Hrest]. now destruct text.
Qed.

(** The first message is empty exactly in one case. When the first note
    has 2000 characters or more, the loop first sends the empty text it
    started with; when the first note is shorter and no note is empty, no
    message is empty. *)
Theorem empty_first_message (out : string) (rest : list string) :
  ((2000 <= String.length out)%nat ->
   send_notes (out :: rest) = ""%string :: send_loop out rest)
  /\ ((String.length out < 2000)%nat ->
      Forall (fun note => note <> ""%string) (out :: rest) ->
      Forall (fun m => m <> ""%string) (send_notes (out :: rest))).
Proof.
  unfold send_notes. cbn [send_loop String.length]. split.
  - intros Hlong.
    destruct (Nat.ltb_spec 2000 (0 + 1 + String.length out)) as [_ | Hle];
      [reflexivity | lia].
  - intros Hshort Hall.
    destruct (Nat.ltb_spec 2000 (0 + 1 + String.length out)) as [Hlt | _];
      [lia|].
    inversion Hall as [|? ? _ Hrest]; subst.
    apply send_loop_nonempty; [discriminate | exact Hrest].
Qed.

Lemma empty_first_message_witness :
  Forall (fun m => m <> ""%string)
    (send_notes ["Move <#200> to <#10>"; "Sync <#100> with <#10>"]%string).
Proof.
  apply (proj2 (empty_first_message "Move <#200> to <#10>"
                  ["Sync <#100> with <#10>"%string])).
  - apply Nat.ltb_lt. reflexivity.
  - repeat constructor; discriminate.
Defined.

(** ** Permission values *)

(** Applying the edit of a role twice gives what applying it once gives. *)
Theorem tweak_permissions_twice (permissions add_mask remove_mask : Z) :
  tweak_permissions (tweak_permissions permissions add_mask remove_mask)
    add_mask remove_mask
  = tweak_permissions permissions add_mask remove_mask.
Proof.
  unfold tweak_permissions. apply Z.bits_inj'. intros n Hn.
  rewrite ?Z.lor_spec, ?Z.land_spec, ?Z.lor_spec, ?Z.land_spec, ?Z.lnot_spec
    by exact Hn.
  destruct (Z.testbit permissions n), (Z.testbit add_mask n),
    (Z.testbit remove_mask n); reflexivity.
Qed.

(** The edit sets every flag of the add mask, clears every flag of the
    remove mask that is not in the add mask, and leaves the other bits. *)
Theorem tweak_permissions_bits (permissions add_mask remove_mask : Z) :
  Z.land (tweak_permissions permissions add_mask remove_mask) add_mask
  = add_mask
  /\ Z.land (tweak_permissions permissions add_mask remove_mask)
       (Z.land remove_mask (Z.lnot add_mask))
     = 0
  /\ Z.land (tweak_permissions permissions add_mask remove_mask)
       (Z.lnot (Z.lor add_mask remove_mask))
     = Z.land permissions (Z.lnot (Z.lor add_mask remove_mask)).
Proof.
  unfold tweak_permissions. repeat split; apply Z.bits_inj'; intros n Hn;
    rewrite ?Z.bits_0, ?Z.land_spec, ?Z.lor_spec, ?Z.land_spec, ?Z.lnot_spec,
      ?Z.lor_spec by exact Hn;
    destruct (Z.testbit permissions n), (Z.testbit add_mask n),
      (Z.testbit remove_mask n); reflexivity.
Qed.

(** ** The overwrite of a target *)

(** [overwrites_for] looks the target up by its identifier alone: it gives
    the overwrite stored for a target of the channel when the identifiers
    of the targets are distinct, the empty overwrite when no target has
    the identifier, and the same for a role and a member of one
    identifier. *)
Theorem overwrites_for_by_id (c : Channel.t) (target : Target.t) :
  (forall ow,
      NoDup (map (fun to : Target.t * PermissionOverwrite =>
                    Target.id (fst to)) (Channel.overwrites c)) ->
      In (target, ow) (Channel.overwrites c) ->
      overwrites_for c target = ow)
  /\ ((forall to, In to (Channel.overwrites c) ->
                  Target.id (fst to) <> Target.id target) ->
      overwrites_for c target = {| allow := 0; deny := 0 |})
  /\ (forall target',
        Target.id target' = Target.id target ->
        overwrites_for c target' = overwrites_for c target).
Proof.
  repeat split.
  - intros ow Hnd Hin. unfold overwrites_for.
    now rewrite (@find_by_id _ target ow Hnd Hin).
  - intros Hnone. unfold overwrites_for.
    destruct (find _ (Channel.overwrites c)) as [to|] eqn:Hfind;
      [|reflexivity].
    apply find_some in Hfind. destruct Hfind as [Hin Heq].
    apply Z.eqb_eq in Heq. now apply Hnone in Hin.
  - intros target' Hid. unfold overwrites_for. now rewrite Hid.
Qed.

Lemma overwrites_for_by_id_witness :
  overwrites_for (Sample.general 200 false) (Target.OfMember Sample.alice)
  = {| allow := 0; deny := Sample.SEND |}
  /\ overwrites_for Sample.lobby (Target.OfMember Sample.alice)
     = {| allow := 0; deny := 0 |}.
Proof.
  split.
  - apply (proj1 (overwrites_for_by_id (Sample.general 200 false)
                    (Target.OfMember Sample.alice))).
    + vm_compute. nodup_concrete.
    + right. now left.
  - apply (proj1 (proj2 (overwrites_for_by_id Sample.lobby
                           (Target.OfMember Sample.alice)))).
    intros to [<- | []]. discriminate.
Defined.

(** ** The order of the channels in the export *)

Lemma key3_total (a b : Z * bool * Z) :
  key3_leb a b = true \/ key3_leb b a = true.
Proof.
  destruct a as [[a1 a2] a3], b as [[b1 b2] b3]. unfold key3_leb.
  destruct (Z.ltb_spec a1 b1), (Z.ltb_spec b1 a1); try lia; auto.
  destruct a2, b2; auto; apply Zleb_total.
Qed.

Lemma key3_trans (a b c : Z * bool * Z) :
  key3_leb a b = true -> key3_leb b c = true -> key3_leb a c = true.
Proof.
  destruct a as [[a1 a2] a3], b as [[b1 b2] b3], c as [[c1 c2] c3].
  unfold key3_leb.
  destruct (Z.ltb_spec a1 b1), (Z.ltb_spec b1 a1), (Z.ltb_spec b1 c1),
    (Z.ltb_spec c1 b1), (Z.ltb_spec a1 c1), (Z.ltb_spec c1 a1);
    try lia; try discriminate; try reflexivity;
    destruct a2, b2, c2; try discriminate; try reflexivity;
    apply Zleb_trans.
Qed.

Lemma strongly_sorted_after {A : Type} (R : A -> A -> Prop)
  (before : list A) (x : A) (after : list A) :
  StronglySorted R (before ++ x :: after) -> Forall (R x) after.
Proof.
  induction before as [|y before IH]; simpl; intros Hs.
  - now apply StronglySorted_inv in Hs.
  - apply StronglySorted_inv in Hs. now apply IH.
Qed.

(** The export visits the channels of the guild, each once, in the order
    of [channel_sort_key]. With positions that are not negative, no
    channel comes before the category it is in, and no category comes
    before a channel that is in no category. *)
Theorem channels_export_order (g : Guild.t) :
  let visited := sorted key3_leb (channel_sort_key g) (Guild.channels g) in
  Permutation visited (Guild.channels g)
  /\ StronglySorted (key_le key3_leb (channel_sort_key g)) visited
  /\ (forall before x after cat,
        visited = before ++ x :: after ->
        Channel.is_category x = false -> category g x = Some cat ->
        Channel.is_category cat = true -> 0 <= Channel.position x ->
        ~ In cat after)
  /\ (forall before y after x,
        visited = before ++ y :: after ->
        Channel.is_category y = true -> 0 <= Channel.position y ->
        Channel.is_category x = false -> category g x = None ->
        ~ In x after).
Proof.
  intros visited.
  assert (Hsorted : StronglySorted (key_le key3_leb (channel_sort_key g)) visited)
    by (apply sorted_sorted; [apply key3_total | apply key3_trans]).
  split; [apply sorted_perm|]. split; [exact Hsorted|]. split.
  - intros before x after cat Hvisited Hx Hcat Hkind Hpos Hin.
    rewrite Hvisited in Hsorted. apply strongly_sorted_after in Hsorted.
    rewrite Forall_forall in Hsorted. specialize (Hsorted cat Hin).
    unfold key_le, channel_sort_key in Hsorted.
    rewrite Hx, Hkind, Hcat in Hsorted. unfold key3_leb in Hsorted.
    rewrite Z.ltb_irrefl in Hsorted.
    destruct (Channel.is_voice_or_stage x); [discriminate|].
    apply Z.leb_le in Hsorted. lia.
  - intros before y after x Hvisited Hy Hpos Hx Hcat Hin.
    rewrite Hvisited in Hsorted. apply strongly_sorted_after in Hsorted.
    rewrite Forall_forall in Hsorted. specialize (Hsorted x Hin).
    unfold key_le, channel_sort_key in Hsorted.
    rewrite Hx, Hy, Hcat in Hsorted. unfold key3_leb in Hsorted.
    destruct (Z.ltb_spec (Channel.position y) (-1)); [lia|].
    destruct (Z.ltb_spec (-1) (Channel.position y)); [discriminate | lia].
Qed.

Lemma channels_export_order_witness :
  ~ In Sample.lobby [Sample.general 200 false].
Proof.
  destruct (channels_export_order Sample.guild) as (_ & _ & Hcat & _).
  apply (Hcat [Sample.lobby] (Sample.general 100 true)
           [Sample.general 200 false] Sample.lobby); try reflexivity.
  vm_compute. discriminate.
Defined.

(** ** The shape of the export *)

Lemma mapM_forall {A B : Type} (f : A -> Result B) (Q : B -> Prop) (l : list A) :
  (forall a b, f a = Ok b -> Q b) ->
  forall bs, mapM f l = Ok bs -> Forall Q bs.
Proof.
  intros Hf. induction l as [|a l IH]; simpl; intros bs Hbs.
  - injection Hbs as <-. constructor.
  - destruct (f a) as [b|] eqn:Hb; [|discriminate]. simpl in Hbs.
    destruct (mapM f l) as [bs'|]; [|discriminate]. simpl in Hbs.
    injection Hbs as <-. constructor; [now apply (Hf a) | now apply IH].
Qed.

Lemma export_channel_shape `{PermissionsClass} (g : Guild.t) (c : Channel.t)
  (rows : list (list string)) :
  export_channel g c = Ok rows -> Forall row_shape rows.
Proof.
  unfold export_channel.
  destruct (if Channel.is_category c then _ else _) as [header|] eqn:Hheader;
    [|discriminate].
  assert (Hlen : List.length header = 2%nat).
  { destruct (Channel.is_category c).
    - destruct (disambiguated_name g c); [|discriminate].
      simpl in Hheader. now injection Hheader as <-.
    - destruct (match category g c with Some cat => _ | None => _ end);
        [|discriminate].
      simpl in Hheader. destruct (disambiguated_name g c); [|discriminate].
      simpl in Hheader. now injection Hheader as <-. }
  cbn [bind].
  assert (Hfirst : forall x : string, row_shape (header ++ [x])).
  { intros x. left. rewrite length_app, Hlen. reflexivity. }
  destruct (Channel.permissions_synced c); intros [= <-].
  - constructor; [apply Hfirst | constructor].
  - constructor; [apply Hfirst|].
    apply Forall_forall. intros row Hrow. apply in_map_iff in Hrow.
    destruct Hrow as (to & <- & _). right.
    rewrite !length_app, Hlen, overwrite_symbols_map. cbn [List.length].
    now rewrite length_map.
Qed.

(** Every row of the export has its three leading columns, alone or
    followed by one sign for each flag of the header; so no row of an
    export is too short for the import. The first row is the header and
    the rows of the roles follow it in the order of the guild. *)
Theorem export_rows_shape `{PermissionsClass} (g : Guild.t)
  (rows : list (list string)) :
  exportperms g = Ok rows ->
  Forall row_shape rows
  /\ Forall (fun row => row_columns row <> None) rows
  /\ exists channel_rows,
       rows = export_header :: map export_role (Guild.roles g) ++ channel_rows.
Proof.
  intros Hexport.
  assert (Hshape : Forall row_shape rows
                   /\ exists channel_rows,
                        rows = export_header
                               :: map export_role (Guild.roles g)
                                  ++ channel_rows).
  { unfold exportperms in Hexport.
    destruct (mapM (export_channel g) _) as [chans|] eqn:Hchans;
      [|discriminate].
    simpl in Hexport. injection Hexport as <-.
    split; [|now exists (List.concat chans)].
    constructor.
    - right. unfold export_header. rewrite length_app, length_map. reflexivity.
    - apply Forall_app. split.
      + apply Forall_forall. intros row Hrow. apply in_map_iff in Hrow.
        destruct Hrow as (r & <- & _). right.
        rewrite export_role_symbols, length_app, length_map. reflexivity.
      + apply Forall_concat.
        eapply mapM_forall; [|exact Hchans].
        intros c rows'. apply export_channel_shape. }
  destruct Hshape as [Hshape Hrows]. split; [exact Hshape|].
  split; [|exact Hrows].
  eapply Forall_impl; [|exact Hshape].
  intros row [Hlen | Hlen]; destruct row as [|r0 [|r1 [|r2 row]]];
    simpl in Hlen; try discriminate; try lia.
Qed.

Lemma export_rows_shape_witness :
  exists rows,
    exportperms (P := Sample.permissions) Sample.guild = Ok rows
    /\ Forall (row_shape (H := Sample.permissions)) rows
    /\ Forall (fun row => row_columns row <> None) rows.
Proof.
  eexists. split; [vm_compute; reflexivity|].
  destruct (@export_rows_shape Sample.permissions Sample.guild _ eq_refl)
    as (Hshape & Hcolumns & _).
  split; assumption.
Defined.

(** ** The masks of a row *)

Lemma single_bit_inside (value f : Z) :
  single_bit f -> truthy (Z.land value f) = true ->
  Z.land f (Z.lnot value) = 0.
Proof.
  intros Hf Htruthy. rewrite (has_flag_truthy value Hf) in Htruthy.
  unfold has_flag in Htruthy. apply Z.eqb_eq in Htruthy.
  rewrite <- Htruthy at 1.
  rewrite (Z.land_comm value f), <- Z.land_assoc, Z.land_lnot_diag.
  apply Z.land_0_r.
Qed.

Lemma single_bit_outside (value f : Z) :
  truthy (Z.land value f) = false -> Z.land f value = 0.
Proof.
  unfold truthy. intros H. apply negb_false_iff, Z.eqb_eq in H.
  now rewrite Z.land_comm.
Qed.

Lemma lor_nonzero (a f : Z) : f <> 0 -> Z.lor a f <> 0.
Proof. intros Hf H. apply Z.lor_eq_0_iff in H. tauto. Qed.

Lemma nonempty_snoc {A : Type} (l : list A) (a : A) : l ++ [a] <> [].
Proof. now destruct l. Qed.

Lemma role_sign_masks (value : Z) (acc acc' : list Change * Z * Z)
  (flag : PermAttr) (perm sign : string) :
  match flag with FlagAttr f => single_bit f | OtherAttr => True end ->
  role_masks_ok value acc ->
  role_sign value acc (flag, perm, sign) = Ok acc' ->
  role_masks_ok value acc'.
Proof.
  intros Hflag Hacc. destruct acc as [[changes add_mask] remove_mask].
  destruct Hacc as (Hadd & Hremove & Hnone & Hsome).
  unfold role_sign.
  destruct (String.eqb_spec sign "+") as [-> | Hplus].
  - cbn [String.eqb Ascii.eqb Bool.eqb].
    destruct flag as [f|]; [|discriminate]. cbn [flag_of bind].
    destruct (truthy (Z.land value f)) eqn:Ht; cbn [negb bind].
    + intros [= <-]. unfold role_masks_ok. tauto.
    + intros [= <-]. unfold role_masks_ok. split; [|split; [|split]].
      * rewrite Z.land_lor_distr_l, Hadd, (single_bit_outside _ _ Ht).
        reflexivity.
      * exact Hremove.
      * intros Hnil. now apply nonempty_snoc in Hnil.
      * intros _. left. apply lor_nonzero. now apply single_bit_nonzero.
  - cbn [bind]. destruct (String.eqb_spec sign "-") as [-> | Hminus].
    + destruct flag as [f|]; [|discriminate]. cbn [flag_of bind].
      destruct (truthy (Z.land value f)) eqn:Ht.
      * intros [= <-]. unfold role_masks_ok. split; [|split; [|split]].
        -- exact Hadd.
        -- rewrite Z.land_lor_distr_l, Hremove,
             (single_bit_inside value Hflag Ht). reflexivity.
        -- intros Hnil. now apply nonempty_snoc in Hnil.
        -- intros _. right. apply lor_nonzero. now apply single_bit_nonzero.
      * intros [= <-]. unfold role_masks_ok. tauto.
    + intros [= <-]. unfold role_masks_ok. tauto.
Qed.

Lemma role_changes_masks (value : Z) (flags : list (PermAttr * string))
  (signs : list string) (acc : list Change * Z * Z) :
  bit_flags flags ->
  role_changes value flags signs = Ok acc ->
  role_masks_ok value acc.
Proof.
  intros Hflags. unfold role_changes.
  assert (Hgen : forall zipped acc0,
             Forall (fun fs : PermAttr * string * string =>
                       match fst (fst fs) with
                       | FlagAttr f => single_bit f
                       | OtherAttr => True
                       end) zipped ->
             role_masks_ok value acc0 ->
             foldM (role_sign value) zipped acc0 = Ok acc ->
             role_masks_ok value acc).
  { induction zipped as [|[[flag perm] sign] zipped IH];
      intros acc0 Hz Hacc0; cbn [foldM].
    - now intros [= <-].
    - inversion Hz as [|? ? Hflag Hz']; subst. simpl in Hflag.
      destruct (role_sign value acc0 (flag, perm, sign)) as [acc1|] eqn:Hstep;
        [|discriminate].
      cbn [bind]. apply IH; [exact Hz'|].
      eapply role_sign_masks; eassumption. }
  apply Hgen.
  - apply Forall_forall. intros [[flag perm] sign] Hin.
    apply in_combine_l in Hin. unfold bit_flags in Hflags.
    rewrite Forall_forall in Hflags. apply (Hflags _ Hin).
  - simpl. repeat split; auto.
Qed.

(** A role row that is read without error either leaves the state as it
    is or adds one note and one role edit, together. The add mask of the
    edit holds only flags that the role lacks and the remove mask only
    flags that it has, so the two are disjoint. *)
Theorem role_row_effect (roles : list (string * Role.t))
  (flags : list (PermAttr * string)) (st st' : ImportState) (line : nat)
  (row : list string) (target : string) :
  bit_flags flags ->
  import_role_row roles flags st line row target = Ok st' ->
  st' = st
  \/ exists role changes add_mask remove_mask,
       PyDict.get String.eqb roles (PyStr.removeprefix target "Role ")
       = Some role
       /\ changes <> []
       /\ st' = append_action (append_output st (RoleNote role changes))
                  (EditRole role add_mask remove_mask)
       /\ Z.land add_mask (Role.permissions role) = 0
       /\ Z.land remove_mask (Z.lnot (Role.permissions role)) = 0
       /\ Z.land add_mask remove_mask = 0
       /\ (add_mask <> 0 \/ remove_mask <> 0).
Proof.
  intros Hflags. unfold import_role_row.
  destruct (negb (PyStr.startswith target "Role ")); [discriminate|].
  destruct (PyDict.get String.eqb roles _) as [role|] eqn:Hrole;
    [|discriminate].
  destruct (role_changes _ _ _) as [[[changes add_mask] remove_mask]|] eqn:Hch;
    [|discriminate].
  cbn [bind]. intros [= <-].
  pose proof (@role_changes_masks _ _ _ _ Hflags Hch) as Hmasks.
  destruct Hmasks as (Hadd & Hremove & Hnone & Hsome).
  destruct changes as [|change changes].
  - destruct (Hnone eq_refl) as [-> ->]. now left.
  - right. exists role, (change :: changes), add_mask, remove_mask.
    assert (Hne : add_mask <> 0 \/ remove_mask <> 0) by (apply Hsome; discriminate).
    repeat split; try assumption; try discriminate.
    + destruct Hne as [Hne | Hne]; apply Z.eqb_neq in Hne; rewrite Hne;
        [reflexivity | now rewrite orb_true_r].
    + apply Z.bits_inj'. intros n Hn. rewrite Z.bits_0, Z.land_spec.
      destruct (Z.testbit add_mask n) eqn:Ha; [|reflexivity].
      destruct (Z.testbit remove_mask n) eqn:Hr; [|reflexivity].
      assert (Hv : Z.testbit (Z.land add_mask (Role.permissions role)) n = false)
        by (rewrite Hadd; apply Z.bits_0).
      assert (Hv' : Z.testbit (Z.land remove_mask
                                 (Z.lnot (Role.permissions role))) n = false)
        by (rewrite Hremove; apply Z.bits_0).
      rewrite Z.land_spec, Ha in Hv.
      rewrite Z.land_spec, Z.lnot_spec, Hr in Hv' by exact Hn.
      simpl in Hv, Hv'. rewrite Hv in Hv'. discriminate.
Qed.

Ltac bit_flags_concrete :=
  repeat (constructor;
          [first [exact I | split; [vm_compute; discriminate | reflexivity]]|]);
  constructor.

Lemma role_row_effect_witness :
  append_action
    (append_output initial_state
       (RoleNote Sample.admin [Allowed "kick_members"]))
    (EditRole Sample.admin 2 0)
  = initial_state
  \/ exists role changes add_mask remove_mask,
       PyDict.get String.eqb Sample.roles
         (PyStr.removeprefix "Role Admin" "Role ")
       = Some role
       /\ changes <> []
       /\ append_action
            (append_output initial_state
               (RoleNote Sample.admin [Allowed "kick_members"]))
            (EditRole Sample.admin 2 0)
          = append_action (append_output initial_state (RoleNote role changes))
              (EditRole role add_mask remove_mask)
       /\ Z.land add_mask (Role.permissions role) = 0
       /\ Z.land remove_mask (Z.lnot (Role.permissions role)) = 0
       /\ Z.land add_mask remove_mask = 0
       /\ (add_mask <> 0 \/ remove_mask <> 0).
Proof.
  apply (@role_row_effect Sample.roles [(FlagAttr 2, "kick_members"%string)]
           initial_state _ 2%nat [""; ""; "Role Admin"; "+"]%string
           "Role Admin"%string).
  - bit_flags_concrete.
  - reflexivity.
Defined.

Lemma overwrite_sign_masks (allow_value deny_value : Z)
  (acc acc' : list Change * Z * Z * Z)
  (flag : PermAttr) (perm sign : string) :
  match flag with FlagAttr f => single_bit f | OtherAttr => True end ->
  overwrite_masks_ok allow_value deny_value acc ->
  overwrite_sign allow_value deny_value acc (flag, perm, sign) = Ok acc' ->
  overwrite_masks_ok allow_value deny_value acc'.
Proof.
  intros Hflag Hacc.
  destruct acc as [[[changes add_mask] remove_mask] reset_mask].
  destruct Hacc as (Hadd & Hremove & Hreset & Hnone & Hsome).
  unfold overwrite_sign.
  destruct (String.eqb_spec sign "+") as [-> | Hplus].
  - cbn [String.eqb Ascii.eqb Bool.eqb].
    destruct flag as [f|]; [|discriminate]. cbn [flag_of bind].
    destruct (truthy (Z.land allow_value f)) eqn:Ht; cbn [negb bind].
    + intros [= <-]. unfold overwrite_masks_ok. tauto.
    + intros [= <-]. unfold overwrite_masks_ok.
      split; [|split; [|split; [|split]]]; try assumption.
      * rewrite Z.land_lor_distr_l, Hadd, (single_bit_outside _ _ Ht).
        reflexivity.
      * intros Hnil. now apply nonempty_snoc in Hnil.
      * intros _. left. apply lor_nonzero. now apply single_bit_nonzero.
  - cbn [bind]. destruct (String.eqb_spec sign "-") as [-> | Hminus].
    + cbn [String.eqb Ascii.eqb Bool.eqb].
      destruct flag as [f|]; [|discriminate]. cbn [flag_of bind].
      destruct (truthy (Z.land deny_value f)) eqn:Ht; cbn [negb bind].
      * intros [= <-]. unfold overwrite_masks_ok. tauto.
      * intros [= <-]. unfold overwrite_masks_ok.
        split; [|split; [|split; [|split]]]; try assumption.
        -- rewrite Z.land_lor_distr_l, Hremove, (single_bit_outside _ _ Ht).
           reflexivity.
        -- intros Hnil. now apply nonempty_snoc in Hnil.
        -- intros _. right. left. apply lor_nonzero.
           now apply single_bit_nonzero.
    + cbn [bind]. destruct (String.eqb_spec sign "/") as [-> | Hslash].
      * destruct flag as [f|]; [|discriminate]. cbn [flag_of bind].
        destruct (truthy (Z.land allow_value f) || truthy (Z.land deny_value f))
          eqn:Ht.
        -- intros [= <-]. unfold overwrite_masks_ok.
           split; [|split; [|split; [|split]]]; try assumption.
           ++ rewrite Z.land_lor_distr_l, Hreset.
              assert (Hin : Z.land f (Z.lnot (Z.lor allow_value deny_value)) = 0).
              { apply Z.bits_inj'. intros n Hn.
                rewrite Z.bits_0, Z.land_spec, Z.lnot_spec, Z.lor_spec
                  by exact Hn.
                destruct (Z.testbit f n) eqn:Hf; [|reflexivity].
                apply orb_true_iff in Ht.
                destruct Ht as [Ht | Ht];
                  apply (single_bit_inside _ Hflag) in Ht;
                  assert (Hb : Z.testbit (Z.land f (Z.lnot _)) n = false)
                    by (rewrite Ht; apply Z.bits_0);
                  rewrite Z.land_spec, Z.lnot_spec, Hf in Hb by exact Hn;
                  simpl in Hb; apply negb_false_iff in Hb; rewrite Hb;
                  [reflexivity | now rewrite orb_true_r]. }
              now rewrite Hin.
           ++ intros Hnil. now apply nonempty_snoc in Hnil.
           ++ intros _. right. right. apply lor_nonzero.
              now apply single_bit_nonzero.
        -- intros [= <-]. unfold overwrite_masks_ok. tauto.
      * intros [= <-]. unfold overwrite_masks_ok. tauto.
Qed.

(** The masks an overwrite row computes: the add mask holds only flags
    that are not allowed, the remove mask only flags that are not denied,
    the reset mask only flags that are allowed or denied; and the row
    notes a change exactly when one of the masks is not zero. *)
Theorem overwrite_row_masks (allow_value deny_value : Z)
  (flags : list (PermAttr * string)) (signs : list string)
  (changes : list Change) (add_mask remove_mask reset_mask : Z) :
  bit_flags flags ->
  overwrite_changes allow_value deny_value flags signs
  = Ok (changes, add_mask, remove_mask, reset_mask) ->
  Z.land add_mask allow_value = 0
  /\ Z.land remove_mask deny_value = 0
  /\ Z.land reset_mask (Z.lnot (Z.lor allow_value deny_value)) = 0
  /\ (changes = [] <->
      add_mask = 0 /\ remove_mask = 0 /\ reset_mask = 0).
Proof.
  intros Hflags. unfold overwrite_changes.
  assert (Hgen : forall zipped acc0 acc,
             Forall (fun fs : PermAttr * string * string =>
                       match fst (fst fs) with
                       | FlagAttr f => single_bit f
                       | OtherAttr => True
                       end) zipped ->
             overwrite_masks_ok allow_value deny_value acc0 ->
             foldM (overwrite_sign allow_value deny_value) zipped acc0 = Ok acc ->
             overwrite_masks_ok allow_value deny_value acc).
  { induction zipped as [|[[flag perm] sign] zipped IH];
      intros acc0 acc Hz Hacc0; cbn [foldM].
    - now intros [= <-].
    - inversion Hz as [|? ? Hflag Hz']; subst. simpl in Hflag.
      destruct (overwrite_sign allow_value deny_value acc0 (flag, perm, sign))
        as [acc1|] eqn:Hstep; [|discriminate].
      cbn [bind]. apply IH; [exact Hz'|].
      eapply overwrite_sign_masks; eassumption. }
  intros Hfold. apply Hgen in Hfold.
  - destruct Hfold as (Hadd & Hremove & Hreset & Hnone & Hsome).
    repeat split; try assumption; try (now apply Hnone).
    intros (-> & -> & ->). destruct changes; [reflexivity|].
    destruct Hsome as [Hs | [Hs | Hs]]; (discriminate || now contradiction Hs).
  - apply Forall_forall. intros [[flag perm] sign] Hin.
    apply in_combine_l in Hin. unfold bit_flags in Hflags.
    rewrite Forall_forall in Hflags. apply (Hflags _ Hin).
  - simpl. repeat split; auto.
Qed.

Lemma overwrite_row_masks_witness :
  Z.land 0 Sample.VIEW = 0
  /\ Z.land Sample.SEND 0 = 0
  /\ Z.land Sample.VIEW (Z.lnot (Z.lor Sample.VIEW 0)) = 0
  /\ ([Inherited "read_messages"; Denied "send_messages"] = [] <->
      0 = 0 /\ Sample.SEND = 0 /\ Sample.VIEW = 0).
Proof.
  apply (@overwrite_row_masks Sample.VIEW 0
           [(FlagAttr Sample.VIEW, "read_messages"%string);
            (FlagAttr Sample.SEND, "send_messages"%string)]
           ["/"; "-"]%string).
  - bit_flags_concrete.
  - reflexivity.
Defined.

(** ** The channel of a row *)

(** What the two leading columns of a channel row resolve to, when they
    resolve: with an empty channel column, to a category under no
    category; otherwise to a channel that is no category, under the
    category that the first column names, or under none when the first
    column is empty. Whatever is returned as the category is one. *)
Theorem resolve_channel_kinds (channels : list (string * Channel.t))
  (line : nat) (r0 r1 : string) (cat : option Channel.t) (ch : Channel.t) :
  resolve_channel channels line r0 r1 = Ok (cat, ch) ->
  (r1 = ""%string ->
   cat = None /\ Channel.is_category ch = true
   /\ PyDict.get String.eqb channels r0 = Some ch)
  /\ (r1 <> ""%string ->
      Channel.is_category ch = false
      /\ PyDict.get String.eqb channels r1 = Some ch
      /\ match cat with
         | Some c =>
             Channel.is_category c = true
             /\ PyDict.get String.eqb channels r0 = Some c
         | None => r0 = ""%string
         end).
Proof.
  unfold resolve_channel. destruct (String.eqb_spec r1 "") as [-> | Hr1].
  - destruct (PyDict.get String.eqb channels r0) as [c|]; [|discriminate].
    destruct (Channel.is_category c) eqn:Hkind; [|discriminate].
    cbn [negb]. intros [= <- <-]. split; [auto | congruence].
  - destruct (String.eqb_spec r0 "") as [-> | Hr0]; cbn [bind].
    + destruct (PyDict.get String.eqb channels r1) as [c|]; [|discriminate].
      destruct (Channel.is_category c) eqn:Hkind; [discriminate|].
      intros [= <- <-]. split; [congruence | auto].
    + destruct (PyDict.get String.eqb channels r0) as [c0|]; [|discriminate].
      destruct (Channel.is_category c0) eqn:Hkind0; [|discriminate].
      cbn [negb bind].
      destruct (PyDict.get String.eqb channels r1) as [c|]; [|discriminate].
      destruct (Channel.is_category c) eqn:Hkind; [discriminate|].
      intros [= <- <-]. split; [congruence | auto].
Qed.

Lemma resolve_channel_kinds_witness :
  ("general (2)"%string = ""%string ->
   Some Sample.lobby = None
   /\ Channel.is_category (Sample.general 200 false) = true
   /\ PyDict.get String.eqb Sample.channels "Lobby"
      = Some (Sample.general 200 false))
  /\ ("general (2)"%string <> ""%string ->
      Channel.is_category (Sample.general 200 false) = false
      /\ PyDict.get String.eqb Sample.channels "general (2)"
         = Some (Sample.general 200 false)
      /\ Channel.is_category Sample.lobby = true
      /\ PyDict.get String.eqb Sample.channels "Lobby" = Some Sample.lobby).
Proof.
  apply (@resolve_channel_kinds Sample.channels 2%nat "Lobby" "general (2)"
           (Some Sample.lobby) (Sample.general 200 false)).
  reflexivity.
Defined.

(** ** Moves *)






(** ** Reading a role row again *)

Lemma single_bit_spec (f : Z) :
  single_bit f ->
  forall n, 0 <= n -> Z.testbit f n = (Z.log2 f =? n).
Proof.
  intros [Hk Hf] n Hn. rewrite Hf at 1. now apply Z.pow2_bits_eqb.
Qed.

Lemma single_bit_truthy (value f : Z) :
  single_bit f -> truthy (Z.land value f) = Z.testbit value (Z.log2 f).
Proof.
  intros Hf. pose proof Hf as [Hk _]. unfold truthy.
  destruct (Z.testbit value (Z.log2 f)) eqn:Hbit.
  - apply negb_true_iff, Z.eqb_neq. intros Hzero.
    assert (Hb : Z.testbit (Z.land value f) (Z.log2 f) = false)
      by (rewrite Hzero; apply Z.bits_0).
    rewrite Z.land_spec, Hbit, (single_bit_spec Hf Hk), Z.eqb_refl in Hb.
    discriminate.
  - apply negb_false_iff, Z.eqb_eq. apply Z.bits_inj'. intros n Hn.
    rewrite Z.bits_0, Z.land_spec, (single_bit_spec Hf Hn).
    destruct (Z.eqb_spec (Z.log2 f) n) as [<- | _];
      [now rewrite Hbit | apply andb_false_r].
Qed.

Lemma single_bit_same (f f' : Z) (n : Z) :
  single_bit f -> single_bit f' -> 0 <= n ->
  Z.testbit f n = true -> Z.testbit f' n = true -> f = f'.
Proof.
  intros Hf Hf' Hn Hb Hb'.
  rewrite (single_bit_spec Hf Hn) in Hb.
  rewrite (single_bit_spec Hf' Hn) in Hb'.
  apply Z.eqb_eq in Hb, Hb'. destruct Hf as [_ ->], Hf' as [_ ->].
  congruence.
Qed.

(** What one step of the loop of a role row does to the masks. *)
Lemma role_sign_cases (value : Z) (changes changes' : list Change)
  (a r a' r' : Z) (flag : PermAttr) (perm sign : string) :
  role_sign value (changes, a, r) (flag, perm, sign) = Ok (changes', a', r') ->
  (sign = "+"%string
   /\ exists f, flag = FlagAttr f /\ r' = r
                /\ (if truthy (Z.land value f) then a' = a
                    else a' = Z.lor a f))
  \/ (sign = "-"%string
      /\ exists f, flag = FlagAttr f /\ a' = a
                   /\ (if truthy (Z.land value f) then r' = Z.lor r f
                       else r' = r))
  \/ (sign <> "+"%string /\ sign <> "-"%string /\ a' = a /\ r' = r).
Proof.
  unfold role_sign.
  destruct (String.eqb_spec sign "+") as [-> | Hplus].
  - cbn [String.eqb Ascii.eqb Bool.eqb].
    destruct flag as [f|]; [|discriminate]. cbn [flag_of bind].
    intros Hstep. left. split; [reflexivity|]. exists f.
    destruct (truthy (Z.land value f)); cbn [negb bind] in Hstep;
      injection Hstep as <- <- <-; auto.
  - cbn [bind]. destruct (String.eqb_spec sign "-") as [-> | Hminus].
    + destruct flag as [f|]; [|discriminate]. cbn [flag_of bind].
      intros Hstep. right. left. split; [reflexivity|]. exists f.
      destruct (truthy (Z.land value f)); injection Hstep as <- <- <-; auto.
    + intros [= <- <- <-]. right. right. auto.
Qed.

Ltac mask_bits :=
  repeat split; auto; try discriminate; try congruence; intros;
  repeat match goal with
    | H : FlagAttr _ = FlagAttr _ |- _ => injection H as H; subst
    | H : Z.testbit (Z.lor _ _) _ = true |- _ =>
        rewrite Z.lor_spec in H; apply orb_true_iff in H; destruct H
    end;
  rewrite ?Z.lor_spec;
  try congruence; try (left; assumption);
  try (right; eexists; repeat split; eassumption);
  try (apply orb_true_iff; auto).

(** The bits of the masks of a role row come from its signs, and every
    sign that applies leaves its bit. *)
Lemma role_masks_bits (value : Z) (zipped : list (PermAttr * string * string)) :
  forall changes a r changes' a' r',
    foldM (role_sign value) zipped (changes, a, r) = Ok (changes', a', r') ->
    (forall n, Z.testbit a' n = true ->
       Z.testbit a n = true
       \/ exists f perm, In (FlagAttr f, perm, "+"%string) zipped
                         /\ Z.testbit f n = true)
    /\ (forall n, Z.testbit r' n = true ->
          Z.testbit r n = true
          \/ exists f perm, In (FlagAttr f, perm, "-"%string) zipped
                            /\ Z.testbit f n = true)
    /\ (forall n, Z.testbit a n = true -> Z.testbit a' n = true)
    /\ (forall n, Z.testbit r n = true -> Z.testbit r' n = true)
    /\ (forall f perm n,
          In (FlagAttr f, perm, "+"%string) zipped ->
          truthy (Z.land value f) = false ->
          Z.testbit f n = true -> Z.testbit a' n = true)
    /\ (forall f perm n,
          In (FlagAttr f, perm, "-"%string) zipped ->
          truthy (Z.land value f) = true ->
          Z.testbit f n = true -> Z.testbit r' n = true)
    /\ (forall perm sign,
          In (OtherAttr, perm, sign) zipped ->
          sign <> "+"%string /\ sign <> "-"%string).
Proof.
  induction zipped as [|[[flag perm] sign] zipped IH];
    intros changes a r changes' a' r'; cbn [foldM].
  - intros [= <- <- <-]. repeat split; auto; try (intros; contradiction).
  - destruct (role_sign value (changes, a, r) (flag, perm, sign))
      as [[[changes1 a1] r1]|] eqn:Hstep; [|discriminate].
    cbn [bind]. intros Hfold.
    destruct (IH _ _ _ _ _ _ Hfold) as (Ha & Hr & Hma & Hmr & Hpa & Hpr & Ho).
    apply role_sign_cases in Hstep.
    assert (Hbits :
              (forall n, Z.testbit a1 n = true ->
                 Z.testbit a n = true
                 \/ exists f, flag = FlagAttr f /\ sign = "+"%string
                              /\ Z.testbit f n = true)
              /\ (forall n, Z.testbit r1 n = true ->
                    Z.testbit r n = true
                    \/ exists f, flag = FlagAttr f /\ sign = "-"%string
                                 /\ Z.testbit f n = true)
              /\ (forall n, Z.testbit a n = true -> Z.testbit a1 n = true)
              /\ (forall n, Z.testbit r n = true -> Z.testbit r1 n = true)
              /\ (forall f n, flag = FlagAttr f -> sign = "+"%string ->
                    truthy (Z.land value f) = false ->
                    Z.testbit f n = true -> Z.testbit a1 n = true)
              /\ (forall f n, flag = FlagAttr f -> sign = "-"%string ->
                    truthy (Z.land value f) = true ->
                    Z.testbit f n = true -> Z.testbit r1 n = true)
              /\ (flag = OtherAttr ->
                  sign <> "+"%string /\ sign <> "-"%string)).
    { destruct Hstep as [(-> & f & -> & -> & Hadd)
                        | [(-> & f & -> & -> & Hrem)
                          | (Hp & Hm & -> & ->)]].
      - destruct (truthy (Z.land value f)) eqn:Ht; subst a1; mask_bits.
      - destruct (truthy (Z.land value f)) eqn:Ht; subst r1; mask_bits.
      - mask_bits. }
    destruct Hbits as (Ha1 & Hr1 & Hma1 & Hmr1 & Hpa1 & Hpr1 & Ho1).
    split; [|split; [|split; [|split; [|split; [|split]]]]].
    + intros n Hn. destruct (Ha n Hn) as [Hn1 | (f & p & Hin & Hf)].
      * destruct (Ha1 n Hn1) as [Hn0 | (f & -> & -> & Hf)]; [now left|].
        right. exists f, perm. split; [now left | exact Hf].
      * right. exists f, p. split; [now right | exact Hf].
    + intros n Hn. destruct (Hr n Hn) as [Hn1 | (f & p & Hin & Hf)].
      * destruct (Hr1 n Hn1) as [Hn0 | (f & -> & -> & Hf)]; [now left|].
        right. exists f, perm. split; [now left | exact Hf].
      * right. exists f, p. split; [now right | exact Hf].
    + auto.
    + auto.
    + intros f p n [[= -> -> ->] | Hin] Ht Hf.
      * apply Hma. now apply (Hpa1 f n).
      * now apply (Hpa f p n).
    + intros f p n [[= -> -> ->] | Hin] Ht Hf.
      * apply Hmr. now apply (Hpr1 f n).
      * now apply (Hpr f p n).
    + intros p s [[= -> -> ->] | Hin]; [now apply Ho1 | now apply (Ho p s)].
Qed.

Lemma tweak_permissions_bit (value add_mask remove_mask n : Z) :
  0 <= n ->
  Z.testbit (tweak_permissions value add_mask remove_mask) n
  = (Z.testbit value n && negb (Z.testbit remove_mask n))
    || Z.testbit add_mask n.
Proof.
  intros Hn. unfold tweak_permissions.
  now rewrite Z.lor_spec, Z.land_spec, Z.lnot_spec.
Qed.

(** Once the edit of a role row is applied, the same row asks for nothing:
    read against the new permission value it gives no change and empty
    masks, provided the flags are single bits and no flag of the row has
    both signs. *)
Theorem role_row_settles (value : Z) (flags : list (PermAttr * string))
  (signs : list string) (changes : list Change) (add_mask remove_mask : Z) :
  bit_flags flags ->
  one_sign_per_flag (combine flags signs) ->
  role_changes value flags signs = Ok (changes, add_mask, remove_mask) ->
  role_changes (tweak_permissions value add_mask remove_mask) flags signs
  = Ok ([], 0, 0).
Proof.
  intros Hflags Hone Hrun. unfold role_changes in *.
  destruct (role_masks_bits _ _ _ _ _ Hrun)
    as (Ha & Hr & _ & _ & Hpa & Hpr & Ho).
  assert (Hbit : forall f perm sign,
             In (FlagAttr f, perm, sign) (combine flags signs) ->
             single_bit f).
  { intros f perm sign Hin. apply in_combine_l in Hin.
    unfold bit_flags in Hflags. rewrite Forall_forall in Hflags.
    exact (Hflags _ Hin). }
  assert (Hno_add : forall f perm,
             In (FlagAttr f, perm, "-"%string) (combine flags signs) ->
             Z.testbit add_mask (Z.log2 f) = false).
  { intros f perm Hin. pose proof (Hbit _ _ _ Hin) as Hf.
    destruct (Z.testbit add_mask (Z.log2 f)) eqn:Hb; [|reflexivity].
    destruct (Ha _ Hb) as [Hzero | (f' & perm' & Hin' & Hb')];
      [now rewrite Z.bits_0 in Hzero|].
    pose proof (Hbit _ _ _ Hin') as Hf'. destruct Hf as [Hk Hf].
    assert (f' = f).
    { apply (@single_bit_same f' f (Z.log2 f)); auto; [split; auto|].
      rewrite Hf at 1. rewrite Z.pow2_bits_eqb by assumption.
      apply Z.eqb_refl. }
    subst f'. destruct (Hone _ _ _ Hin' Hin). }
  assert (Hno_remove : forall f perm,
             In (FlagAttr f, perm, "+"%string) (combine flags signs) ->
             Z.testbit remove_mask (Z.log2 f) = false).
  { intros f perm Hin. pose proof (Hbit _ _ _ Hin) as Hf.
    destruct (Z.testbit remove_mask (Z.log2 f)) eqn:Hb; [|reflexivity].
    destruct (Hr _ Hb) as [Hzero | (f' & perm' & Hin' & Hb')];
      [now rewrite Z.bits_0 in Hzero|].
    pose proof (Hbit _ _ _ Hin') as Hf'. destruct Hf as [Hk Hf].
    assert (f' = f).
    { apply (@single_bit_same f' f (Z.log2 f)); auto; [split; auto|].
      rewrite Hf at 1. rewrite Z.pow2_bits_eqb by assumption.
      apply Z.eqb_refl. }
    subst f'. destruct (Hone _ _ _ Hin Hin'). }
  apply foldM_ignored. intros acc [[flag perm] sign] Hin.
  unfold role_sign.
  destruct (String.eqb_spec sign "+") as [-> | Hplus].
  - cbn [String.eqb Ascii.eqb Bool.eqb].
    destruct flag as [f|]; [|now destruct (Ho _ _ Hin)].
    pose proof (Hbit _ _ _ Hin) as Hf. pose proof Hf as [Hk Hpow].
    cbn [flag_of bind].
    rewrite (single_bit_truthy _ Hf), tweak_permissions_bit by assumption.
    rewrite (Hno_remove _ _ Hin). cbn [negb]. rewrite andb_true_r.
    destruct (Z.testbit value (Z.log2 f)) eqn:Hv; [reflexivity|].
    rewrite (Hpa f perm (Z.log2 f) Hin); [reflexivity | |].
    + now rewrite (single_bit_truthy _ Hf).
    + rewrite Hpow at 1. rewrite Z.pow2_bits_eqb by assumption.
      apply Z.eqb_refl.
  - cbn [bind]. destruct (String.eqb_spec sign "-") as [-> | Hminus];
      [|reflexivity].
    destruct flag as [f|]; [|now destruct (Ho _ _ Hin)].
    pose proof (Hbit _ _ _ Hin) as Hf. pose proof Hf as [Hk Hpow].
    cbn [flag_of bind].
    rewrite (single_bit_truthy _ Hf), tweak_permissions_bit by assumption.
    rewrite (Hno_add _ _ Hin), orb_false_r.
    destruct (Z.testbit value (Z.log2 f)) eqn:Hv; [|reflexivity].
    rewrite (Hpr f perm (Z.log2 f) Hin); [reflexivity | |].
    + now rewrite (single_bit_truthy _ Hf).
    + rewrite Hpow at 1. rewrite Z.pow2_bits_eqb by assumption.
      apply Z.eqb_refl.
Qed.

Lemma role_row_settles_witness :
  role_changes (tweak_permissions 1024 2048 1024)
    [(FlagAttr Sample.VIEW, "read_messages"%string);
     (FlagAttr Sample.SEND, "send_messages"%string)]
    ["-"; "+"]%string
  = Ok ([], 0, 0).
Proof.
  apply (@role_row_settles 1024
           [(FlagAttr Sample.VIEW, "read_messages"%string);
            (FlagAttr Sample.SEND, "send_messages"%string)]
           ["-"; "+"]%string
           [Denied "read_messages"; Allowed "send_messages"] 2048 1024).
  - bit_flags_concrete.
  - intros f perm perm' Hplus Hminus. cbn [combine In] in Hplus, Hminus.
    destruct Hplus as [Hplus | [Hplus | []]]; [discriminate|].
    destruct Hminus as [Hminus | [Hminus | []]]; [|discriminate].
    injection Hplus as <- _. discriminate.
  - reflexivity.
Defined.

(** ** The objects the actions are called on *)









